(** * Lyria-Pro-2: the streaming playback coordinator, verified

    A shallow embedding of the coordination core of the application:
    - [Double]     : the Numbers of JavaScript, IEEE 754 binary64
    - [Throttle]   : utils/throttle.js
    - [Midi]       : utils/MidiDispatcher.js
    - [Js]         : the plain JavaScript values the prompt maps hold
    - [LiveMusic]  : utils/LiveMusicHelper.js
    - [PromptDj]   : components/PromptDjMidi.js (save and load of prompt sets)

    Every JavaScript function is translated to a Rocq function of the same
    name; mutable fields of [this] become fields of a record that is passed
    in and returned; [dispatchEvent] appends to an event log. *)

From Stdlib Require Import ZArith Lia SpecFloat.
From Stdlib.Strings Require Import Byte.
From stdpp Require Import gmap strings list pretty.

Set Warnings "-register-all".
Local Open Scope Z_scope.

(* ===================================================================== *)
(** * JavaScript numbers *)
(* ===================================================================== *)

Module Double.

(** A Number is an IEEE 754 binary64 value: a [spec_float] of the
    Standard Library's specification of floating-point arithmetic, at
    precision 53 and maximal exponent 1024. It is a signed zero, a signed
    infinity, NaN, or a finite number [m * 2^e] with a sign. *)
Definition double : Type := spec_float.

Definition prec : Z := 53.
Definition emax : Z := 1024.

(** The values that stand for a Number: a finite one has its mantissa
    and exponent in the canonical form of binary64. *)
Definition is_double (x : double) : bool := valid_binary prec emax x.

(** [x + y], [x * y] and [x / y], rounded to nearest, ties to even. *)
Definition add (x y : double) : double := SFadd prec emax x y.
Definition mul (x y : double) : double := SFmul prec emax x y.
Definition div (x y : double) : double := SFdiv prec emax x y.

(** [x < y], [x <= y] and [x === y]: false when an operand is NaN, and
    the two zeros are equal. *)
Definition ltb (x y : double) : bool := SFltb x y.
Definition leb (x y : double) : bool := SFleb x y.
Definition eqb (x y : double) : bool := SFeqb x y.

(** The literal [0]. *)
Definition zero : double := S754_zero false.

(** An integer literal, and a number that holds an integer. *)
Definition of_Z (z : Z) : double := binary_normalize prec emax z 0 false.

Definition is_nan (x : double) : bool :=
  match x with
  | S754_nan => true
  | _ => false
  end.

(** Neither NaN nor an infinity. *)
Definition is_finite (x : double) : bool :=
  match x with
  | S754_zero _ | S754_finite _ _ _ => true
  | _ => false
  end.

(** [0.1], [0.5] and [Infinity]. *)
Definition tenth : double := div (of_Z 1) (of_Z 10).
Definition half : double := div (of_Z 1) (of_Z 2).
Definition Infinity : double := S754_infinity false.

End Double.

Arguments Double.add : simpl never.
Arguments Double.mul : simpl never.
Arguments Double.div : simpl never.
Arguments Double.ltb : simpl never.
Arguments Double.leb : simpl never.
Arguments Double.eqb : simpl never.
Arguments Double.of_Z : simpl never.

(* ===================================================================== *)
(** * utils/throttle.js *)
(* ===================================================================== *)

Module Throttle.

(** The values [lastCall] and [timeSinceLastCall] range over: integer
    millisecond timestamps of [Date.now()] and the two infinities
    ([lastCall] starts at [-Infinity]). *)
Inductive num : Type :=
| NegInfinity
| Finite (z : Z)
| PosInfinity.

(** [now - lastCall] with [now] a finite timestamp. *)
Definition minus (now : Z) (lastCall : num) : num :=
  match lastCall with
  | NegInfinity => PosInfinity
  | Finite t => Finite (now - t)
  | PosInfinity => NegInfinity
  end.

(** [x >= delay] with [delay] finite. *)
Definition geb (x : num) (delay : Z) : bool :=
  match x with
  | NegInfinity => false
  | Finite z => delay <=? z
  | PosInfinity => true
  end.

Section Throttle.
(** [A]: the argument list, [W]: the world [func] reads and writes,
    [R]: what [func] returns (for an async [func], its promise). *)
Context {A W R : Type}.
Variable func : A -> W -> R * W.
Variable delay : Z.

(** The two variables captured by the returned arrow function;
    [lastResult = None] is [undefined]. *)
Record closure : Type := Closure {
  lastCall : num;
  lastResult : option R
}.

(** [throttle(func, delay)]: the captured variables as initialised. *)
Definition throttle : closure :=
  {| lastCall := NegInfinity; lastResult := None |}.

(** The test [timeSinceLastCall >= delay]. *)
Definition fresh (c : closure) (now : Z) : bool :=
  let timeSinceLastCall := minus now (lastCall c) in
  geb timeSinceLastCall delay.

(** The returned arrow function [(...args) => { ... }], called with
    [args] when [Date.now()] is [now]. *)
Definition invoke (c : closure) (args : A) (now : Z) (w : W)
  : option R * closure * W :=
  let timeSinceLastCall := minus now (lastCall c) in
  let '(c, w) :=
    if geb timeSinceLastCall delay then
      let '(r, w') := func args w in
      ({| lastCall := Finite now; lastResult := Some r |}, w')
    else (c, w) in
  (lastResult c, c, w).

(** One line of the record of a sequence of invocations. *)
Record entry : Type := Entry {
  e_now : Z;            (* Date.now() at the invocation *)
  e_args : A;           (* its arguments *)
  e_ran : bool;         (* did it call func *)
  e_computed : option R;(* what func returned, if it was called *)
  e_returned : option R (* what the wrapper returned *)
}.

(** A sequence of invocations [(now, args)], in order. *)
Fixpoint run (c : closure) (w : W) (calls : list (Z * A))
  : list entry * closure * W :=
  match calls with
  | [] => ([], c, w)
  | (now, args) :: rest =>
      let ran := fresh c now in
      let computed := if ran then Some (fst (func args w)) else None in
      let '(ret, c', w') := invoke c args now w in
      let '(es, c'', w'') := run c' w' rest in
      (Entry now args ran computed ret :: es, c'', w'')
  end.

(** The last entry of a record that called [func]. *)
Fixpoint last_ran (es : list entry) : option entry :=
  match es with
  | [] => None
  | e :: rest =>
      match last_ran rest with
      | Some e' => Some e'
      | None => if e_ran e then Some e else None
      end
  end.

(** What an invocation that calls [func] leaves behind: the value
    returned, the captured variables, the world. *)
Definition executed (args : A) (now : Z) (w : W) : option R * closure * W :=
  (Some (func args w).1,
   {| lastCall := Finite now; lastResult := Some (func args w).1 |},
   (func args w).2).

(** The captured variables follow a record [es]: [lastCall] is the time
    of the last invocation that called [func] and [lastResult] is what
    it computed. *)
Definition tracks (c : closure) (es : list entry) : Prop :=
  match last_ran es with
  | None => lastCall c = NegInfinity /\ lastResult c = None
  | Some p => lastCall c = Finite (e_now p) /\ lastResult c = e_computed p
              /\ is_Some (e_computed p)
  end.

End Throttle.

Arguments closure : clear implicits.
Arguments entry : clear implicits.

End Throttle.

(* ===================================================================== *)
(** * utils/MidiDispatcher.js *)
(* ===================================================================== *)

Module Midi.

(** An entry of [access.inputs]. *)
Record MIDIInput : Type := {
  id : string;
  name : string
}.

(** [event.data] is a [Uint8Array], or missing. *)
Record MIDIMessageEvent : Type := {
  data : option (list byte)
}.

(** The [detail] of a ['cc-message'] event; a byte read past the end of
    [data] is [undefined], here [None]. *)
Record detail : Type := {
  cc : option byte;
  value : option byte;
  channel : Z
}.

Inductive Event : Type :=
| cc_message (d : detail).

(** [access] tells whether [this.access] holds the [MIDIAccess] of the
    platform ([false]: it is [null]). The [inputs] map of a [MIDIAccess] is
    live: it holds the inputs the system has at the time it is read, so its
    entries are not kept here but come with the platform, below. *)
Record MidiDispatcher : Type := {
  access : bool;
  activeMidiInputId : option string
}.

Definition constructor : MidiDispatcher :=
  {| access := false; activeMidiInputId := None |}.

(** How [navigator.requestMIDIAccess] answers. *)
Inductive Answer : Type :=
| no_requestMIDIAccess
| request_rejected
| request_granted.

(** The platform at the time a method of the dispatcher runs: the answer
    [requestMIDIAccess] gives, and the entries of the [inputs] map of its
    [MIDIAccess] then. *)
Record navigator : Type := {
  requestMIDIAccess : Answer;
  inputs : list MIDIInput
}.

(** [data[i]] *)
Definition index (d : list byte) (i : nat) : option byte := nth_error d i.

(** A byte as the number the bit operators see; [undefined] converts to 0. *)
Definition to_number (b : option byte) : Z :=
  match b with
  | Some b => Z.of_N (Byte.to_N b)
  | None => 0
  end.

(** The handler [input.onmidimessage = (event) => { ... }] that
    [getMidiAccess] installs on [input]; the result is the list of events
    it dispatches. *)
Definition onmidimessage (this : MidiDispatcher) (input : MIDIInput)
    (event : MIDIMessageEvent) : list Event :=
  if negb (bool_decide (Some (id input) = activeMidiInputId this)) then []
  else
    match data event with
    | None => []    (* console.error, no event *)
    | Some data =>
        let statusByte := index data 0 in
        let channel := Z.land (to_number statusByte) 0x0f in
        let messageType := Z.land (to_number statusByte) 0xf0 in
        let isControlChange := messageType =? 0xb0 in
        if negb isControlChange then []
        else
          [cc_message {| cc := index data 1;
                         value := index data 2;
                         channel := channel |}]
    end.

(** [getMidiAccess()]: the error thrown or the input ids returned, and the
    dispatcher afterwards. *)
Definition getMidiAccess (nav : navigator) (this : MidiDispatcher)
    : (string + list string) * MidiDispatcher :=
  if access this then (inr (map id (inputs nav)), this)
  else
    match requestMIDIAccess nav with
    | no_requestMIDIAccess =>
        (inl "Your browser does not support the Web MIDI API. For a list of compatible browsers, see https://caniuse.com/midi"%string,
         this)
    | request_rejected =>
        (inl "Unable to acquire MIDI access."%string, this)
    | request_granted =>
        let inputIds := map id (inputs nav) in
        let active :=
          match inputIds, activeMidiInputId this with
          | first :: _, None => Some first
          | _, a => a
          end in
        (inr inputIds, {| access := true; activeMidiInputId := active |})
    end.

(** A status byte as a number. *)
Definition status_number (b : byte) : Z := to_number (Some b).

End Midi.

(* ===================================================================== *)
(** * Plain JavaScript values *)
(* ===================================================================== *)

Module Js.
Import Double.

(** The values a prompt map holds and a set file parses to: [null],
    booleans, Numbers, strings, arrays and plain objects. An object is its
    own properties in the order the language enumerates them. *)
Inductive value : Type :=
| JNull
| JBoolean (b : bool)
| JNumber (x : double)
| JString (s : string)
| JArray (elements : list value)
| JObject (properties : list (string * value)).

Fixpoint assoc (name : string) (ps : list (string * value)) : option value :=
  match ps with
  | [] => None
  | (n, v) :: rest => if String.eqb n name then Some v else assoc name rest
  end.

(** [v.name] for a [v] that is not [null] and a [name] that is not a
    built-in property; [None] is [undefined]. *)
Definition prop (name : string) (v : value) : option value :=
  match v with
  | JObject ps => assoc name ps
  | _ => None
  end.

(** Truthiness, as [!x] and [if (x)] see it. *)
Definition truthy (v : option value) : bool :=
  match v with
  | None => false
  | Some JNull => false
  | Some (JBoolean b) => b
  | Some (JNumber x) => negb (eqb x zero || is_nan x)
  | Some (JString s) => negb (String.eqb s "")
  | Some (JArray _) => true
  | Some (JObject _) => true
  end.

(** [x !== 0] *)
Definition strict_ne_zero (v : option value) : bool :=
  match v with
  | Some (JNumber x) => negb (eqb x zero)
  | _ => true
  end.

(** SameValueZero, the key comparison of [Map]. Arrays and objects are
    compared by identity; two values of this type stand for two objects. *)
Definition same_value_zero (a b : value) : bool :=
  match a, b with
  | JNull, JNull => true
  | JBoolean x, JBoolean y => Bool.eqb x y
  | JNumber x, JNumber y => eqb x y || (is_nan x && is_nan y)
  | JString x, JString y => String.eqb x y
  | _, _ => false
  end.

(** A [Map]: its entries in insertion order. *)
Definition Map : Type := list (value * value).

(** [m.set(k, v)] *)
Fixpoint Map_set (k v : value) (m : Map) : Map :=
  match m with
  | [] => [(k, v)]
  | (k', v') :: rest =>
      if same_value_zero k' k then (k', v) :: rest
      else (k', v') :: Map_set k v rest
  end.

(** [m.get(k)] *)
Fixpoint Map_get (k : value) (m : Map) : option value :=
  match m with
  | [] => None
  | (k', v') :: rest =>
      if same_value_zero k' k then Some v' else Map_get k rest
  end.

(** [Array.from(m.values())] *)
Definition Map_values (m : Map) : list value := map snd m.

(** [JSON.parse(JSON.stringify(v))]: what [v] is when it has been written
    as JSON text and read again. A Number that is not finite is written
    [null], negative zero is written [0], every other Number is written so
    that it reads back as itself; strings, booleans and [null] come back
    as they are, arrays and objects element by element and property by
    property, in order. *)
Fixpoint parse_stringify (v : value) : value :=
  match v with
  | JNumber x =>
      if is_finite x then JNumber (if eqb x zero then zero else x) else JNull
  | JArray elements => JArray (map parse_stringify elements)
  | JObject properties =>
      JObject (map (fun p => (p.1, parse_stringify p.2)) properties)
  | _ => v
  end.

(** Every Number in [v] is finite and is not negative zero. *)
Fixpoint plain (v : value) : bool :=
  match v with
  | JNumber x =>
      is_finite x && negb (match x with S754_zero true => true | _ => false end)
  | JArray elements => forallb plain elements
  | JObject properties => forallb (fun p => plain p.2) properties
  | _ => true
  end.

(** ** Sample data *)

(** A prompt as [buildInitialPrompts] makes them. *)
Definition sample_prompt (promptId text color : string) (cc : Z)
    (weight : double) : value * value :=
  (JString promptId,
   JObject [("promptId", JString promptId);
            ("text", JString text);
            ("weight", JNumber weight);
            ("cc", JNumber (of_Z cc));
            ("color", JString color)]).

Definition sample_prompts (weight0 weight1 : double) : Map :=
  [sample_prompt "prompt-0" "Bossa Nova" "#9900ff" 0 weight0;
   sample_prompt "prompt-11" "Dubstep" "#ffdd28" 11 weight1].

End Js.

(* ===================================================================== *)
(** * utils/LiveMusicHelper.js *)
(* ===================================================================== *)

Module LiveMusic.
Import Double Js.

Inductive PlaybackState : Type := stopped | loading | playing | paused.

(** The [CustomEvent]s the helper dispatches. *)
Inductive Event : Type :=
| error (detail : string)
| playback_state_changed (detail : PlaybackState)
| filtered_prompt (text filteredReason : string).

(** The buffer [decodeAudioData] resolves with (audio.js is not among the
    sources); the scheduler reads its [duration] only. *)
Record AudioBuffer : Type := { duration : double }.

(** [source.start(when)] of a source playing [buffer] into gain node
    [node]. *)
Record Started : Type := {
  when : double;
  buffer : AudioBuffer;
  node : nat
}.

(** The methods of a backend session. *)
Inductive SessionCall : Type :=
| call_setWeightedPrompts (weightedPrompts : list value)
| call_play
| call_pause
| call_stop.

(** The promise the async body of [setWeightedPrompts] returns: settled
    when the body ran to its end without an [await], pending on the
    session otherwise. *)
Inductive Promise : Type :=
| Fulfilled
| Rejected
| AwaitingSession (s : nat).

(** An inbound message [e] of the backend. An audio chunk is given by the
    buffer it decodes to. *)
Record Message : Type := {
  setupComplete : bool;
  filteredPrompt : option (string * string);   (* text, filteredReason *)
  audioChunks : option (list AudioBuffer)      (* e.serverContent?.audioChunks *)
}.

(** The fields of [this], then the surroundings the helper acts on.
    Sessions are numbered in the order [ai.live.music.connect] creates
    them; a promise for a session is identified with that number. Gain
    nodes are numbered in the order [createGain] makes them. Gain ramps
    and node connections of the output graph are not recorded. *)
Record LiveMusicHelper : Type := {
  session : option nat;
  sessionPromise : option nat;
  connectionError : bool;
  filteredPrompts : gset string;
  nextStartTime : double;
  bufferTime : double;
  playbackState : PlaybackState;
  prompts : Map;
  outputNode : nat;
  throttled : Throttle.closure Promise;  (* of setWeightedPrompts = throttle(...) *)
  connections : nat;                     (* calls of ai.live.music.connect *)
  gains : nat;                           (* calls of audioContext.createGain *)
  sent : list (nat * SessionCall);       (* calls of session methods *)
  events : list Event;                   (* dispatchEvent *)
  started : list Started;                (* source.start *)
  timeouts : list double                 (* setTimeout delays, pending *)
}.

Definition set_session v (h : LiveMusicHelper) : LiveMusicHelper :=
  {| session := v; sessionPromise := sessionPromise h;
     connectionError := connectionError h; filteredPrompts := filteredPrompts h;
     nextStartTime := nextStartTime h; bufferTime := bufferTime h;
     playbackState := playbackState h; prompts := prompts h;
     outputNode := outputNode h; throttled := throttled h;
     connections := connections h; gains := gains h; sent := sent h;
     events := events h; started := started h; timeouts := timeouts h |}.

Definition set_sessionPromise v (h : LiveMusicHelper) : LiveMusicHelper :=
  {| session := session h; sessionPromise := v;
     connectionError := connectionError h; filteredPrompts := filteredPrompts h;
     nextStartTime := nextStartTime h; bufferTime := bufferTime h;
     playbackState := playbackState h; prompts := prompts h;
     outputNode := outputNode h; throttled := throttled h;
     connections := connections h; gains := gains h; sent := sent h;
     events := events h; started := started h; timeouts := timeouts h |}.

Definition set_connectionError v (h : LiveMusicHelper) : LiveMusicHelper :=
  {| session := session h; sessionPromise := sessionPromise h;
     connectionError := v; filteredPrompts := filteredPrompts h;
     nextStartTime := nextStartTime h; bufferTime := bufferTime h;
     playbackState := playbackState h; prompts := prompts h;
     outputNode := outputNode h; throttled := throttled h;
     connections := connections h; gains := gains h; sent := sent h;
     events := events h; started := started h; timeouts := timeouts h |}.

Definition set_filteredPrompts v (h : LiveMusicHelper) : LiveMusicHelper :=
  {| session := session h; sessionPromise := sessionPromise h;
     connectionError := connectionError h; filteredPrompts := v;
     nextStartTime := nextStartTime h; bufferTime := bufferTime h;
     playbackState := playbackState h; prompts := prompts h;
     outputNode := outputNode h; throttled := throttled h;
     connections := connections h; gains := gains h; sent := sent h;
     events := events h; started := started h; timeouts := timeouts h |}.

Definition set_nextStartTime v (h : LiveMusicHelper) : LiveMusicHelper :=
  {| session := session h; sessionPromise := sessionPromise h;
     connectionError := connectionError h; filteredPrompts := filteredPrompts h;
     nextStartTime := v; bufferTime := bufferTime h;
     playbackState := playbackState h; prompts := prompts h;
     outputNode := outputNode h; throttled := throttled h;
     connections := connections h; gains := gains h; sent := sent h;
     events := events h; started := started h; timeouts := timeouts h |}.

Definition set_playbackState v (h : LiveMusicHelper) : LiveMusicHelper :=
  {| session := session h; sessionPromise := sessionPromise h;
     connectionError := connectionError h; filteredPrompts := filteredPrompts h;
     nextStartTime := nextStartTime h; bufferTime := bufferTime h;
     playbackState := v; prompts := prompts h;
     outputNode := outputNode h; throttled := throttled h;
     connections := connections h; gains := gains h; sent := sent h;
     events := events h; started := started h; timeouts := timeouts h |}.

Definition set_prompts v (h : LiveMusicHelper) : LiveMusicHelper :=
  {| session := session h; sessionPromise := sessionPromise h;
     connectionError := connectionError h; filteredPrompts := filteredPrompts h;
     nextStartTime := nextStartTime h; bufferTime := bufferTime h;
     playbackState := playbackState h; prompts := v;
     outputNode := outputNode h; throttled := throttled h;
     connections := connections h; gains := gains h; sent := sent h;
     events := events h; started := started h; timeouts := timeouts h |}.

Definition set_throttled v (h : LiveMusicHelper) : LiveMusicHelper :=
  {| session := session h; sessionPromise := sessionPromise h;
     connectionError := connectionError h; filteredPrompts := filteredPrompts h;
     nextStartTime := nextStartTime h; bufferTime := bufferTime h;
     playbackState := playbackState h; prompts := prompts h;
     outputNode := outputNode h; throttled := v;
     connections := connections h; gains := gains h; sent := sent h;
     events := events h; started := started h; timeouts := timeouts h |}.

Definition set_timeouts v (h : LiveMusicHelper) : LiveMusicHelper :=
  {| session := session h; sessionPromise := sessionPromise h;
     connectionError := connectionError h; filteredPrompts := filteredPrompts h;
     nextStartTime := nextStartTime h; bufferTime := bufferTime h;
     playbackState := playbackState h; prompts := prompts h;
     outputNode := outputNode h; throttled := throttled h;
     connections := connections h; gains := gains h; sent := sent h;
     events := events h; started := started h; timeouts := v |}.

(** [this.dispatchEvent(new CustomEvent(...))] *)
Definition dispatchEvent (e : Event) (h : LiveMusicHelper) : LiveMusicHelper :=
  {| session := session h; sessionPromise := sessionPromise h;
     connectionError := connectionError h; filteredPrompts := filteredPrompts h;
     nextStartTime := nextStartTime h; bufferTime := bufferTime h;
     playbackState := playbackState h; prompts := prompts h;
     outputNode := outputNode h; throttled := throttled h;
     connections := connections h; gains := gains h; sent := sent h;
     events := events h ++ [e]; started := started h; timeouts := timeouts h |}.

(** A call [c] of a method of session [s]. *)
Definition send (s : nat) (c : SessionCall) (h : LiveMusicHelper) : LiveMusicHelper :=
  {| session := session h; sessionPromise := sessionPromise h;
     connectionError := connectionError h; filteredPrompts := filteredPrompts h;
     nextStartTime := nextStartTime h; bufferTime := bufferTime h;
     playbackState := playbackState h; prompts := prompts h;
     outputNode := outputNode h; throttled := throttled h;
     connections := connections h; gains := gains h; sent := sent h ++ [(s, c)];
     events := events h; started := started h; timeouts := timeouts h |}.

(** [source.start(when)], for a time it takes. *)
Definition start (st : Started) (h : LiveMusicHelper) : LiveMusicHelper :=
  {| session := session h; sessionPromise := sessionPromise h;
     connectionError := connectionError h; filteredPrompts := filteredPrompts h;
     nextStartTime := nextStartTime h; bufferTime := bufferTime h;
     playbackState := playbackState h; prompts := prompts h;
     outputNode := outputNode h; throttled := throttled h;
     connections := connections h; gains := gains h; sent := sent h;
     events := events h; started := started h ++ [st]; timeouts := timeouts h |}.

(** [this.outputNode = this.audioContext.createGain()] *)
Definition createGain (h : LiveMusicHelper) : LiveMusicHelper :=
  {| session := session h; sessionPromise := sessionPromise h;
     connectionError := connectionError h; filteredPrompts := filteredPrompts h;
     nextStartTime := nextStartTime h; bufferTime := bufferTime h;
     playbackState := playbackState h; prompts := prompts h;
     outputNode := gains h; throttled := throttled h;
     connections := connections h; gains := S (gains h); sent := sent h;
     events := events h; started := started h; timeouts := timeouts h |}.

(** [this.sessionPromise = this.ai.live.music.connect({...})] *)
Definition connect (h : LiveMusicHelper) : nat * LiveMusicHelper :=
  let fresh_session := connections h in
  (fresh_session,
   {| session := session h; sessionPromise := Some fresh_session;
      connectionError := connectionError h; filteredPrompts := filteredPrompts h;
      nextStartTime := nextStartTime h; bufferTime := bufferTime h;
      playbackState := playbackState h; prompts := prompts h;
      outputNode := outputNode h; throttled := throttled h;
      connections := S (connections h); gains := gains h; sent := sent h;
      events := events h; started := started h; timeouts := timeouts h |}).

Definition constructor : LiveMusicHelper :=
  {| session := None; sessionPromise := None;
     connectionError := true; filteredPrompts := ∅;
     nextStartTime := zero; bufferTime := of_Z 2;
     playbackState := stopped; prompts := [];
     outputNode := 0%nat; throttled := Throttle.throttle;
     connections := 0%nat; gains := 1%nat; sent := [];
     events := []; started := []; timeouts := [] |}.

(** [setPlaybackState(state)] *)
Definition setPlaybackState (state : PlaybackState) (this : LiveMusicHelper)
    : LiveMusicHelper :=
  let this := set_playbackState state this in
  dispatchEvent (playback_state_changed state) this.

(** The predicate of the filter in [get activePrompts()]:
    [!this.filteredPrompts.has(p.text) && p.weight !== 0]; [None] is the
    TypeError of reading [p.text] of [null]. *)
Definition is_active (filtered : gset string) (p : value) : option bool :=
  match p with
  | JNull => None
  | _ =>
      let has :=
        match prop "text" p with
        | Some (JString s) => bool_decide (s ∈ filtered)
        | _ => false
        end in
      Some (negb has && strict_ne_zero (prop "weight" p))
  end.

(** [Array.prototype.filter] with a predicate that may throw. *)
Fixpoint filter_throwing (f : value -> option bool) (l : list value)
    : option (list value) :=
  match l with
  | [] => Some []
  | p :: rest =>
      match f p with
      | None => None
      | Some keep =>
          match filter_throwing f rest with
          | None => None
          | Some rest' => Some (if keep then p :: rest' else rest')
          end
      end
  end.

(** [get activePrompts()] *)
Definition activePrompts (this : LiveMusicHelper) : option (list value) :=
  filter_throwing (is_active (filteredPrompts this))
                  (Map_values (prompts this)).

(** [pause()] *)
Definition pause (this : LiveMusicHelper) : LiveMusicHelper :=
  let this :=
    match session this with
    | Some s => send s call_pause this
    | None => this
    end in
  let this := setPlaybackState paused this in
  let this := set_nextStartTime zero this in
  createGain this.

(** [stop()] *)
Definition stop (this : LiveMusicHelper) : LiveMusicHelper :=
  let this :=
    match session this with
    | Some s => send s call_stop this
    | None => this
    end in
  let this := setPlaybackState stopped this in
  let this := set_nextStartTime zero this in
  let this := set_session None this in
  set_sessionPromise None this.

(** The async arrow function given to [throttle], up to its end or its
    [await]. *)
Definition setWeightedPrompts_body (prompts : Map) (this : LiveMusicHelper)
    : Promise * LiveMusicHelper :=
  let this := set_prompts prompts this in
  match activePrompts this with
  | None => (Rejected, this)
  | Some [] =>
      let this :=
        dispatchEvent (error "There needs to be one active prompt to play.") this in
      let this := pause this in
      (Fulfilled, this)
  | Some active =>
      match session this with
      | None => (Fulfilled, this)
      | Some s =>
          (AwaitingSession s,
           send s (call_setWeightedPrompts active) this)
      end
  end.

(** Its [catch (e)] block, entered when the session rejects the call. *)
Definition setWeightedPrompts_catch (message : string) (this : LiveMusicHelper)
    : LiveMusicHelper :=
  let this := dispatchEvent (error message) this in
  pause this.

(** [setWeightedPrompts = throttle(async (prompts) => {...}, 200)], called
    when [Date.now()] is [now]. *)
Definition setWeightedPrompts (prompts : Map) (now : Z) (this : LiveMusicHelper)
    : option Promise * LiveMusicHelper :=
  let '(result, closure, this) :=
    Throttle.invoke setWeightedPrompts_body 200 (throttled this) prompts now this in
  (result, set_throttled closure this).

(** [getSession()]: the promise returned. *)
Definition getSession (this : LiveMusicHelper) : nat * LiveMusicHelper :=
  match sessionPromise this with
  | None => connect this
  | Some p => (p, this)
  end.

(** [processAudioChunks], the test before the [await]: does it go on? *)
Definition processAudioChunks_enters (this : LiveMusicHelper) : bool :=
  match playbackState this with
  | paused | stopped => false
  | _ => true
  end.

(** The times [source.start(when)] takes: finite and not negative. For
    any other number it throws. *)
Definition startable (when : double) : bool :=
  is_finite when && leb zero when.

(** [processAudioChunks] after the [await]: [audioBuffer] is the decoded
    first chunk, [currentTime0] and [currentTime1] are the two reads of
    [audioContext.currentTime], in order. Where [source.start] throws the
    call ends, with the clock as it stands. *)
Definition processAudioChunks_decoded (audioBuffer : AudioBuffer)
    (currentTime0 currentTime1 : double) (this : LiveMusicHelper)
    : LiveMusicHelper :=
  let source_node := outputNode this in
  let this :=
    if eqb (nextStartTime this) zero then
      let this := set_nextStartTime (add currentTime0 (bufferTime this)) this in
      set_timeouts (timeouts this ++ [mul (bufferTime this) (of_Z 1000)]) this
    else this in
  if ltb (nextStartTime this) currentTime1 then
    let this := setPlaybackState loading this in
    set_nextStartTime zero this
  else if negb (startable (nextStartTime this)) then this
  else
    let this :=
      start {| when := nextStartTime this; buffer := audioBuffer;
               node := source_node |} this in
    set_nextStartTime (add (nextStartTime this) (duration audioBuffer)) this.

(** [processAudioChunks(audioChunks)] with nothing else running during
    the decoding. Reading [audioChunks[0].data] of an empty array throws. *)
Definition processAudioChunks (audioChunks : list AudioBuffer)
    (currentTime0 currentTime1 : double) (this : LiveMusicHelper)
    : LiveMusicHelper :=
  if processAudioChunks_enters this then
    match audioChunks with
    | [] => this
    | audioBuffer :: _ =>
        processAudioChunks_decoded audioBuffer currentTime0 currentTime1 this
    end
  else this.

(** The callback of the timeout set when the clock is primed. *)
Definition timeout_fires (this : LiveMusicHelper) : LiveMusicHelper :=
  match timeouts this with
  | [] => this
  | _ :: rest => setPlaybackState playing (set_timeouts rest this)
  end.

(** The [onmessage] callback. *)
Definition onmessage (e : Message) (currentTime0 currentTime1 : double)
    (this : LiveMusicHelper) : LiveMusicHelper :=
  let this :=
    if setupComplete e then set_connectionError false this else this in
  let this :=
    match filteredPrompt e with
    | Some (text, filteredReason) =>
        let this :=
          set_filteredPrompts (filteredPrompts this ∪ {[ text ]}) this in
        dispatchEvent (filtered_prompt text filteredReason) this
    | None => this
    end in
  match audioChunks e with
  | Some chunks => processAudioChunks chunks currentTime0 currentTime1 this
  | None => this
  end.

(** The [onerror] callback. *)
Definition onerror (this : LiveMusicHelper) : LiveMusicHelper :=
  let this := set_connectionError true this in
  let this := stop this in
  dispatchEvent (error "Connection error, please restart audio.") this.

(** The [onclose] callback. *)
Definition onclose (this : LiveMusicHelper) : LiveMusicHelper :=
  let this := set_connectionError true this in
  let this := stop this in
  dispatchEvent (error "Connection error, please restart audio.") this.

(** [play()] up to [await this.getSession()]: the promise awaited. *)
Definition play_begin (this : LiveMusicHelper) : nat * LiveMusicHelper :=
  let this := setPlaybackState loading this in
  getSession this.

(** [play()] from the moment the awaited promise resolves with [s], up to
    [await this.setWeightedPrompts(this.prompts)]: what is awaited. *)
Definition play_connected (s : nat) (now : Z) (this : LiveMusicHelper)
    : option Promise * LiveMusicHelper :=
  let this := set_session (Some s) this in
  setWeightedPrompts (prompts this) now this.

(** The rest of [play()], [awaited] being what [this.setWeightedPrompts]
    returned: on a rejected promise the [await] throws and [play()] ends
    there; [this.session.play()] throws when [stop()] has run in between. *)
Definition play_resume (awaited : option Promise) (this : LiveMusicHelper)
    : LiveMusicHelper :=
  match awaited with
  | Some Rejected => this
  | _ =>
      match session this with
      | Some s => send s call_play this
      | None => this
      end
  end.

(** [playPause()]; where it calls [play()], up to the first [await]. *)
Definition playPause (this : LiveMusicHelper) : LiveMusicHelper :=
  match playbackState this with
  | playing => pause this
  | paused | stopped => snd (play_begin this)
  | loading => stop this
  end.

(** Everything that runs on the helper, one turn of the event loop at a
    time. *)
Inductive Turn : Type :=
| on_message (e : Message) (currentTime0 currentTime1 : double)
| on_error
| on_close
| on_timeout
| do_setWeightedPrompts (prompts : Map) (now : Z)
| do_setWeightedPrompts_catch (message : string)
| do_play_begin
| do_play_connected (s : nat) (now : Z)
| do_play_resume (awaited : option Promise)
| do_pause
| do_stop
| do_playPause.

Definition turn (t : Turn) (this : LiveMusicHelper) : LiveMusicHelper :=
  match t with
  | on_message e c0 c1 => onmessage e c0 c1 this
  | on_error => onerror this
  | on_close => onclose this
  | on_timeout => timeout_fires this
  | do_setWeightedPrompts prompts now => snd (setWeightedPrompts prompts now this)
  | do_setWeightedPrompts_catch message => setWeightedPrompts_catch message this
  | do_play_begin => snd (play_begin this)
  | do_play_connected s now => snd (play_connected s now this)
  | do_play_resume awaited => play_resume awaited this
  | do_pause => pause this
  | do_stop => stop this
  | do_playPause => playPause this
  end.

Definition turns (ts : list Turn) (this : LiveMusicHelper) : LiveMusicHelper :=
  fold_left (fun h t => turn t h) ts this.

(** ** Notions the statements about the scheduler use *)

(** The time the scheduler aims the next buffer at: [nextStartTime] once
    the priming step [if (this.nextStartTime === 0) ...] has run. *)
Definition target_start (currentTime0 : double) (this : LiveMusicHelper)
    : double :=
  if eqb (nextStartTime this) zero
  then add currentTime0 (bufferTime this)
  else nextStartTime this.

(** The test of the underrun branch, [this.nextStartTime < currentTime]. *)
Definition underrun (currentTime0 currentTime1 : double)
    (this : LiveMusicHelper) : bool :=
  ltb (target_start currentTime0 this) currentTime1.

(** A chunk arriving: its decoded buffer and the two clock reads made
    while it is processed. *)
Record Arrival : Type := {
  chunk : AudioBuffer;
  read0 : double;
  read1 : double
}.

Definition process (a : Arrival) (this : LiveMusicHelper) : LiveMusicHelper :=
  processAudioChunks [chunk a] (read0 a) (read1 a) this.

(** Chunks processed one after the other. *)
Definition feed (arrivals : list Arrival) (this : LiveMusicHelper)
    : LiveMusicHelper :=
  fold_left (fun h a => process a h) arrivals this.

(** No chunk of the sequence takes the underrun branch. *)
Fixpoint no_underrun (arrivals : list Arrival) (this : LiveMusicHelper) : bool :=
  match arrivals with
  | [] => true
  | a :: rest =>
      negb (underrun (read0 a) (read1 a) this)
      && no_underrun rest (process a this)
  end.

(** [source.start] takes the time every chunk of the sequence is aimed
    at: none has grown to [Infinity]. *)
Fixpoint all_startable (arrivals : list Arrival) (this : LiveMusicHelper)
    : bool :=
  match arrivals with
  | [] => true
  | a :: rest =>
      startable (target_start (read0 a) this)
      && all_startable rest (process a this)
  end.

(** A double that is not negative (and so not NaN). *)
Definition nonnegative (x : double) : Prop :=
  is_double x = true /\ leb zero x = true.

(** The clock reads and the duration of an arrival are doubles that are
    not negative. *)
Definition plausible (a : Arrival) : Prop :=
  nonnegative (read0 a) /\ nonnegative (read1 a)
  /\ nonnegative (duration (chunk a)).

(** What [feed] has started beyond what was started before. *)
Definition scheduled (arrivals : list Arrival) (this : LiveMusicHelper)
    : list Started :=
  drop (length (started this)) (started (feed arrivals this)).

(** What a sequence without underrun starts, chunk by chunk. *)
Fixpoint expected (arrivals : list Arrival) (this : LiveMusicHelper)
    : list Started :=
  match arrivals with
  | [] => []
  | a :: rest =>
      {| when := target_start (read0 a) this; buffer := chunk a;
         node := outputNode this |}
      :: expected rest (process a this)
  end.

(** Start times back to back from [t]: each is the one before plus the
    duration of the buffer before. *)
Fixpoint back_to_back (t : double) (buffers : list AudioBuffer)
    : list double :=
  match buffers with
  | [] => []
  | b :: rest => t :: back_to_back (add t (duration b)) rest
  end.

(** ** Notions the statements about sessions use *)

(** Every session the helper holds on to has been created by a call of
    [ai.live.music.connect]. *)
Definition handles_known (this : LiveMusicHelper) : Prop :=
  (forall s, session this = Some s -> (s < connections this)%nat) /\
  (forall s, sessionPromise this = Some s -> (s < connections this)%nat).

(** The events dispatched on the way from [this] to [this']. *)
Definition raised (this this' : LiveMusicHelper) : list Event :=
  drop (length (events this)) (events this').

(** The text a turn adds to the filtered texts, if any. *)
Definition filtered_by (t : Turn) : gset string :=
  match t with
  | on_message e _ _ =>
      match filteredPrompt e with
      | Some (text, _) => {[ text ]}
      | None => ∅
      end
  | _ => ∅
  end.

(** ** Sample data *)

Definition filtered_notice (text : string) : Message :=
  {| setupComplete := false;
     filteredPrompt := Some (text, "Prompt was filtered."%string);
     audioChunks := None |}.

(** A helper that plays with its clock primed for second 5. *)
Definition late_helper : LiveMusicHelper :=
  set_nextStartTime (of_Z 5) (set_playbackState playing constructor).

(** A helper that waits for its first chunk. *)
Definition buffering_helper : LiveMusicHelper :=
  set_playbackState loading constructor.

Definition two_seconds : AudioBuffer := {| duration := of_Z 2 |}.

(** Three chunks of two seconds, arriving at seconds 10, 11 and 12.5. *)
Definition sample_arrivals : list Arrival :=
  [{| chunk := two_seconds; read0 := of_Z 10; read1 := of_Z 10 |};
   {| chunk := two_seconds; read0 := of_Z 11; read1 := of_Z 11 |};
   {| chunk := two_seconds; read0 := div (of_Z 25) (of_Z 2);
      read1 := div (of_Z 25) (of_Z 2) |}].

(** Chunks of a tenth of a second. *)
Definition tenth_of_a_second : AudioBuffer := {| duration := tenth |}.

(** Ten of them for a clock primed at a tenth of a second, the clock
    reading 0.1 for the first nine and 1 for the last. *)
Definition ten_tenths : list Arrival :=
  replicate 9 {| chunk := tenth_of_a_second; read0 := tenth; read1 := tenth |}
  ++ [{| chunk := tenth_of_a_second; read0 := of_Z 1; read1 := of_Z 1 |}].

(** A helper that plays with its clock primed for a tenth of a second. *)
Definition early_helper : LiveMusicHelper :=
  set_nextStartTime tenth (set_playbackState playing constructor).

(** A buffer that reports the duration [Infinity], arriving at second 10,
    and a chunk of two seconds after it. *)
Definition endless_arrivals : list Arrival :=
  [{| chunk := {| duration := Infinity |}; read0 := of_Z 10; read1 := of_Z 10 |};
   {| chunk := two_seconds; read0 := of_Z 11; read1 := of_Z 11 |}].

(** A helper with two active prompts whose [play()] waits for its
    connection. *)
Definition connecting_helper : LiveMusicHelper :=
  turns [do_setWeightedPrompts (sample_prompts (of_Z 1) (of_Z 1)) 0;
         do_play_begin]
        constructor.

(** The same helper, connected and told to play, after the backend has
    filtered the second prompt. *)
Definition filtering_helper : LiveMusicHelper :=
  turns [do_play_connected 0 1000;
         do_play_resume (Some (AwaitingSession 0));
         on_message (filtered_notice "Dubstep") (of_Z 3) (of_Z 3)]
        connecting_helper.

(** Then stopped and connected again. *)
Definition reconnected_helper : LiveMusicHelper :=
  turns [do_stop; do_play_begin; do_play_connected 1 5000] filtering_helper.

End LiveMusic.

(* ===================================================================== *)
(** * components/PromptDjMidi.js: saving and loading a prompt set *)
(* ===================================================================== *)

Module PromptDj.
Import Double Js.

Inductive Event : Type :=
| prompts_changed (detail : Map)
| info (detail : string)
| error (detail : string).

(** The fields [handleSaveSet] and [handleLoadSet] touch. *)
Record PromptDjMidi : Type := {
  prompts : Map;
  events : list Event
}.

(** What the [FileReader] hands to [reader.onload], seen through
    [typeof] and [JSON.parse], which are the platform's: a set file that
    is JSON text is given by the value the text parses to. *)
Inductive FileContent : Type :=
| not_a_string
| not_json (message : string)      (* JSON.parse throws, with this message *)
| json (parsed : value).

(** [handleSaveSet()]: the value whose text
    [JSON.stringify(promptsArray, null, 2)] is downloaded. *)
Definition handleSaveSet (this : PromptDjMidi) : value :=
  let promptsArray := Map_values (prompts this) in
  JArray promptsArray.

(** Reading the downloaded text back: what [JSON.parse] makes of the
    text [JSON.stringify] has written. *)
Definition saved_file (this : PromptDjMidi) : FileContent :=
  json (parse_stringify (handleSaveSet this)).

(** The message of the TypeError of reading [p.promptId] of [null]. *)
Definition TypeError_message : string :=
  "Cannot read properties of null (reading 'promptId')".

(** [p => !p.promptId || !p.text]; [None] is that TypeError. *)
Definition invalid_entry (p : value) : option bool :=
  match p with
  | JNull => None
  | _ => Some (negb (truthy (prop "promptId" p))
               || negb (truthy (prop "text" p)))
  end.

(** [Array.prototype.some] with a predicate that may throw. *)
Fixpoint some (f : value -> option bool) (l : list value) : option bool :=
  match l with
  | [] => Some false
  | p :: rest =>
      match f p with
      | None => None
      | Some true => Some true
      | Some false => some f rest
      end
  end.

(** [loadedPrompts.forEach(p => newPrompts.set(p.promptId, p))]; every
    [p] has passed [invalid_entry], so [p.promptId] is there. *)
Definition set_each (loadedPrompts : list value) (newPrompts : Map) : Map :=
  fold_left
    (fun m p =>
       match prop "promptId" p with
       | Some promptId => Map_set promptId p m
       | None => m
       end)
    loadedPrompts newPrompts.

Definition dispatchEvent (e : Event) (this : PromptDjMidi) : PromptDjMidi :=
  {| prompts := prompts this; events := events this ++ [e] |}.

(** The body of the [try] in [reader.onload]: the error thrown, or the
    component afterwards. *)
Definition onload_try (content : FileContent) (this : PromptDjMidi)
    : string + PromptDjMidi :=
  match content with
  | not_a_string => inl "Invalid file content."%string
  | not_json message => inl message
  | json loadedPrompts =>
      match loadedPrompts with
      | JArray entries =>
          match some invalid_entry entries with
          | None => inl TypeError_message
          | Some true => inl "Invalid set file format."%string
          | Some false =>
              let newPrompts := set_each entries [] in
              let this := {| prompts := newPrompts; events := events this |} in
              let this := dispatchEvent (prompts_changed (prompts this)) this in
              inr (dispatchEvent (info "Set loaded successfully!") this)
          end
      | _ => inl "Invalid set file format."%string
      end
  end.

(** [reader.onload] *)
Definition onload (content : FileContent) (this : PromptDjMidi) : PromptDjMidi :=
  match onload_try content this with
  | inr this => this
  | inl message =>
      dispatchEvent (error ("Error loading set: " ++ message)) this
  end.

(** [reader.onerror] *)
Definition onerror (this : PromptDjMidi) : PromptDjMidi :=
  dispatchEvent (error "Failed to read the file.") this.

(** How [reader.readAsText(file)] ends. *)
Inductive Reading : Type :=
| fails
| loads (content : FileContent).

(** [handleLoadSet(event)] with the outcome of reading [input.files[0]];
    [None]: no file chosen. *)
Definition handleLoadSet (file : option Reading) (this : PromptDjMidi)
    : PromptDjMidi :=
  match file with
  | None => this
  | Some fails => onerror this
  | Some (loads content) => onload content this
  end.

(** ** Notions the statements about set files use *)

(** An entry of a prompt map as the application builds them: the key is
    the [promptId] of the prompt, and [promptId] and [text] are non-empty
    strings. *)
Definition prompt_entry (entry : value * value) : Prop :=
  exists promptId text : string,
    promptId <> ""%string /\ text <> ""%string /\
    entry.1 = JString promptId /\
    prop "promptId" entry.2 = Some (JString promptId) /\
    prop "text" entry.2 = Some (JString text).

(** A prompt map: prompt entries under distinct keys. *)
Definition prompt_set (m : Map) : Prop :=
  NoDup (map fst m) /\ Forall prompt_entry m.

(** A prompt map with every prompt as JSON gives it back, under the key
    it had. *)
Definition through_JSON (m : Map) : Map :=
  map (fun entry => (entry.1, parse_stringify entry.2)) m.

(** An entry of a set file that lacks [promptId] or [text] (missing,
    empty, or the entry is [null]). *)
Definition lacking (p : value) : Prop :=
  truthy (prop "promptId" p) = false \/ truthy (prop "text" p) = false.

(** ** Sample data *)

Definition sample_component : PromptDjMidi :=
  {| prompts := sample_prompts (of_Z 1) half; events := [] |}.

Definition other_component : PromptDjMidi :=
  {| prompts := sample_prompts zero zero; events := [] |}.

(** A component with a prompt whose weight is [Infinity], as a set file
    with the weight [1e999] loads it. *)
Definition loud_component : PromptDjMidi :=
  {| prompts := sample_prompts (of_Z 1) Infinity; events := [] |}.

(** An entry without [text]. *)
Definition nameless_entry : value :=
  JObject [("promptId", JString "prompt-3"); ("weight", JNumber (of_Z 1))].

End PromptDj.

(* ===================================================================== *)
(** * utils/LiveMusicHelper.js: the recording sink *)
(* ===================================================================== *)

Module Recording.

(** A [Blob] the recorder hands over in a [dataavailable] event; the
    helper reads its [size] and its [type]. *)
Record Chunk : Type := {
  size : N;
  type : string
}.

(** [new Blob(this.recordedChunks, { type: mimeType })] *)
Record Blob : Type := {
  parts : list Chunk;
  mimeType : string
}.

(** [MediaRecorder.state] *)
Inductive RecordingState : Type := inactive | recording | paused.

(** A [MediaRecorder]: its state and the [mimeType] option it was made
    with ([None]: made without options). *)
Record MediaRecorder : Type := {
  state : RecordingState;
  options : option string
}.

Inductive Event : Type :=
| error (detail : string).

(** The fields of [this] that [startRecording] and [stopRecording] touch,
    and the events dispatched. *)
Record Recorder : Type := {
  mediaRecorder : option MediaRecorder;
  recordedChunks : list Chunk;
  events : list Event
}.

(** As the constructor of [LiveMusicHelper] leaves them. *)
Definition constructor : Recorder :=
  {| mediaRecorder := None; recordedChunks := []; events := [] |}.

(** What [new MediaRecorder(stream, options)] does on the platform. *)
Inductive Platform : Type :=
| records_webm        (* new MediaRecorder(stream, { mimeType: 'audio/webm' }) works *)
| records_default     (* that throws, new MediaRecorder(stream) works *)
| records_nothing.    (* both throw *)

Definition dispatchEvent (e : Event) (this : Recorder) : Recorder :=
  {| mediaRecorder := mediaRecorder this;
     recordedChunks := recordedChunks this;
     events := events this ++ [e] |}.

(** [this.mediaRecorder && this.mediaRecorder.state === 'recording'] *)
Definition is_recording (this : Recorder) : bool :=
  match mediaRecorder this with
  | Some {| state := recording |} => true
  | _ => false
  end.

(** [startRecording()]; [mediaRecorder.start()] puts the new recorder in
    state ['recording']. *)
Definition startRecording (platform : Platform) (this : Recorder) : Recorder :=
  if is_recording this then this    (* console.warn *)
  else
    let made :=
      match platform with
      | records_webm => Some (Some "audio/webm"%string)
      | records_default => Some None
      | records_nothing => None
      end in
    match made with
    | None =>
        dispatchEvent (error "Recording is not supported in this browser.") this
    | Some options =>
        {| mediaRecorder := Some {| state := recording; options := options |};
           recordedChunks := [];
           events := events this |}
    end.

(** The handler [this.mediaRecorder.ondataavailable]. *)
Definition ondataavailable (data : Chunk) (this : Recorder) : Recorder :=
  if (0 <? size data)%N then
    {| mediaRecorder := mediaRecorder this;
       recordedChunks := recordedChunks this ++ [data];
       events := events this |}
  else this.

(** How the promise of [stopRecording] stands when the call returns. *)
Inductive Resolution : Type :=
| resolved_null
| awaits_onstop.

(** [stopRecording()] up to its return; [mediaRecorder.stop()] puts the
    recorder in state ['inactive'] and has it fire [dataavailable] and
    [stop] later. *)
Definition stopRecording (this : Recorder) : Resolution * Recorder :=
  match mediaRecorder this with
  | None => (resolved_null, this)
  | Some {| state := inactive |} => (resolved_null, this)
  | Some r =>
      (awaits_onstop,
       {| mediaRecorder := Some {| state := inactive; options := options r |};
          recordedChunks := recordedChunks this;
          events := events this |})
  end.

(** The handler [this.mediaRecorder.onstop]: the blob the promise resolves
    with, and the fields afterwards. *)
Definition onstop (this : Recorder) : Blob * Recorder :=
  let mimeType :=
    match recordedChunks this with
    | first :: _ => if String.eqb (type first) "" then "audio/mp3"%string
                    else type first
    | [] => "audio/mp3"%string
    end in
  ({| parts := recordedChunks this; mimeType := mimeType |},
   {| mediaRecorder := mediaRecorder this;
      recordedChunks := [];
      events := events this |}).

(** Chunks handed over one after the other. *)
Definition deliver (chunks : list Chunk) (this : Recorder) : Recorder :=
  fold_left (fun h data => ondataavailable data h) chunks this.

(** The chunks that are not empty. *)
Definition kept (chunks : list Chunk) : list Chunk :=
  List.filter (fun data => (0 <? size data)%N) chunks.

(** Everything that runs on these fields. *)
Inductive Step : Type :=
| do_startRecording (platform : Platform)
| do_stopRecording
| on_dataavailable (data : Chunk)
| on_stop.

Definition step (s : Step) (this : Recorder) : Recorder :=
  match s with
  | do_startRecording platform => startRecording platform this
  | do_stopRecording => (stopRecording this).2
  | on_dataavailable data => ondataavailable data this
  | on_stop => (onstop this).2
  end.

Definition steps (ss : list Step) (this : Recorder) : Recorder :=
  fold_left (fun h s => step s h) ss this.

(** ** Sample data *)

Definition webm_chunk (n : N) : Chunk := {| size := n; type := "audio/webm" |}.

End Recording.

(* ===================================================================== *)
(** * utils/MidiDispatcher.js: device names *)
(* ===================================================================== *)

Module MidiDevices.
Import Midi.

(** [this.access.inputs.get(id)] *)
Definition inputs_get (id : string) (inputs : list MIDIInput) : option MIDIInput :=
  List.find (fun input => String.eqb (Midi.id input) id) inputs.

(** [getDeviceName(id)], with the platform as it is when it runs;
    [None] is [null]. *)
Definition getDeviceName (id : string) (nav : navigator) (this : MidiDispatcher)
    : option string :=
  if negb (access this) then None
  else
    match inputs_get id (inputs nav) with
    | Some input => Some (name input)
    | None => None
    end.

(** ** Sample data *)

Definition two_inputs : list MIDIInput :=
  [{| id := "in-1"; name := "Keys" |}; {| id := "in-2"; name := "Pads" |}]%string.

(** A platform that grants access, with two inputs. *)
Definition studio : navigator :=
  {| requestMIDIAccess := request_granted; inputs := two_inputs |}.

(** The same platform once a third input has been plugged in and the
    first one removed; it would refuse a new request. *)
Definition studio_later : navigator :=
  {| requestMIDIAccess := request_rejected;
     inputs := [{| id := "in-2"; name := "Pads" |};
                {| id := "in-3"; name := "Wind" |}]%string |}.

(** A platform that refuses access. *)
Definition locked : navigator :=
  {| requestMIDIAccess := request_rejected; inputs := two_inputs |}.

End MidiDevices.

(* ===================================================================== *)
(** * components/PromptDjMidi.js: the MIDI controls *)
(* ===================================================================== *)

Module MidiPanel.

Inductive Event : Type :=
| error (detail : string).

(** The fields of [PromptDjMidi] that [setShowMidi] and
    [handleMidiInputChange] touch. *)
Record PromptDjMidi : Type := {
  showMidi : bool;
  midiInputIds : list string;
  activeMidiInputId : option string;
  midiDispatcher : Midi.MidiDispatcher;
  events : list Event
}.

(** As the constructor leaves them. *)
Definition constructor : PromptDjMidi :=
  {| showMidi := false; midiInputIds := []; activeMidiInputId := None;
     midiDispatcher := Midi.constructor; events := [] |}.

(** [setShowMidi(show)], with what [navigator] offers when it runs. *)
Definition setShowMidi (show : bool) (nav : Midi.navigator) (this : PromptDjMidi)
    : PromptDjMidi :=
  if negb show then
    {| showMidi := false; midiInputIds := midiInputIds this;
       activeMidiInputId := activeMidiInputId this;
       midiDispatcher := midiDispatcher this; events := events this |}
  else
    match Midi.getMidiAccess nav (midiDispatcher this) with
    | (inr inputIds, dispatcher) =>
        {| showMidi := true; midiInputIds := inputIds;
           activeMidiInputId := Midi.activeMidiInputId dispatcher;
           midiDispatcher := dispatcher; events := events this |}
    | (inl message, dispatcher) =>
        {| showMidi := false; midiInputIds := midiInputIds this;
           activeMidiInputId := activeMidiInputId this;
           midiDispatcher := dispatcher;
           events := events this ++ [error message] |}
    end.

(** [toggleShowMidi()] *)
Definition toggleShowMidi (nav : Midi.navigator) (this : PromptDjMidi)
    : PromptDjMidi :=
  setShowMidi (negb (showMidi this)) nav this.

(** [handleMidiInputChange(event)], [newMidiId] being the value of the
    select element. *)
Definition handleMidiInputChange (newMidiId : string) (this : PromptDjMidi)
    : PromptDjMidi :=
  {| showMidi := showMidi this; midiInputIds := midiInputIds this;
     activeMidiInputId := Some newMidiId;
     midiDispatcher :=
       {| Midi.access := Midi.access (midiDispatcher this);
          Midi.activeMidiInputId := Some newMidiId |};
     events := events this |}.

Inductive Step : Type :=
| do_setShowMidi (show : bool) (nav : Midi.navigator)
| do_toggleShowMidi (nav : Midi.navigator)
| do_handleMidiInputChange (newMidiId : string).

Definition step (s : Step) (this : PromptDjMidi) : PromptDjMidi :=
  match s with
  | do_setShowMidi show nav => setShowMidi show nav this
  | do_toggleShowMidi nav => toggleShowMidi nav this
  | do_handleMidiInputChange newMidiId => handleMidiInputChange newMidiId this
  end.

Definition steps (ss : list Step) (this : PromptDjMidi) : PromptDjMidi :=
  fold_left (fun h s => step s h) ss this.

(** The panel shows what the dispatcher holds: the same active input;
    and it lists input ids only when the dispatcher has access. *)
Definition in_step (this : PromptDjMidi) : Prop :=
  activeMidiInputId this = Midi.activeMidiInputId (midiDispatcher this)
  /\ (midiInputIds this <> [] -> Midi.access (midiDispatcher this) = true).

End MidiPanel.

(* ===================================================================== *)
(** * index.js: the initial prompts *)
(* ===================================================================== *)

Module Index.
Import Double Js.

(** [DEFAULT_PROMPTS], each as (color, text). *)
Definition DEFAULT_PROMPTS : list (string * string) :=
  [("#9900ff", "Bossa Nova"); ("#5200ff", "Chillwave");
   ("#ff25f6", "Drum and Bass"); ("#2af6de", "Post Punk");
   ("#ffdd28", "Shoegaze"); ("#2af6de", "Funk");
   ("#9900ff", "Chiptune"); ("#3dffab", "Lush Strings");
   ("#d8ff3e", "Sparkling Arpeggios"); ("#d9b2ff", "Staccato Rhythms");
   ("#3dffab", "Punchy Kick"); ("#ffdd28", "Dubstep");
   ("#ff25f6", "K Pop"); ("#d8ff3e", "Neo Soul");
   ("#5200ff", "Trip Hop"); ("#d9b2ff", "Thrash")]%string.

(** [startOn.includes(prompt) ? 1 : 0]; [startOn] holds objects of
    [DEFAULT_PROMPTS], given here by their positions. *)
Definition weight_of (startOn : list nat) (i : nat) : double :=
  if bool_decide (i ∈ startOn) then of_Z 1 else zero.

(** The body of the loop of [buildInitialPrompts], at index [i]. *)
Definition add_prompt (weight : nat -> double) (prompts : Map)
    (i : nat) (prompt : string * string) : Map :=
  let promptId := ("prompt-" ++ pretty i)%string in
  let '(color, text) := prompt in
  Map_set (JString promptId)
    (JObject [("promptId", JString promptId);
              ("text", JString text);
              ("weight", JNumber (weight i));
              ("cc", JNumber (of_Z (Z.of_nat i)));
              ("color", JString color)])
    prompts.

(** The loop [for (let i = 0; i < DEFAULT_PROMPTS.length; i++)], from
    index [i] on. *)
Fixpoint add_prompts (weight : nat -> double) (i : nat)
    (rest : list (string * string)) (prompts : Map) : Map :=
  match rest with
  | [] => prompts
  | prompt :: rest =>
      add_prompts weight (S i) rest (add_prompt weight prompts i prompt)
  end.

(** [buildInitialPrompts()], [startOn] being the three prompts the random
    shuffle has put first. *)
Definition buildInitialPrompts (startOn : list nat) : Map :=
  add_prompts (weight_of startOn) 0 DEFAULT_PROMPTS [].

(** The entry the loop makes at index [i]. *)
Definition initial_entry (weight : nat -> double)
    (indexed : nat * (string * string))
    : value * value :=
  let '(i, (color, text)) := indexed in
  (JString ("prompt-" ++ pretty i),
   JObject [("promptId", JString ("prompt-" ++ pretty i));
            ("text", JString text);
            ("weight", JNumber (weight i));
            ("cc", JNumber (of_Z (Z.of_nat i)));
            ("color", JString color)]).

(** [DEFAULT_PROMPTS] with the index of each prompt. *)
Definition indexed_prompts : list (nat * (string * string)) :=
  combine (seq 0 (length DEFAULT_PROMPTS)) DEFAULT_PROMPTS.

(** What the shuffle and [slice(0, 3)] can give: three different prompts
    of [DEFAULT_PROMPTS]. *)
Definition three_prompts (startOn : list nat) : Prop :=
  length startOn = 3%nat /\ NoDup startOn
  /\ Forall (fun i => (i < length DEFAULT_PROMPTS)%nat) startOn.

End Index.

(* ===================================================================== *)
(** * components/PromptDjMidi.js: editing a prompt *)
(* ===================================================================== *)

Module PromptEdit.
Import Double Js PromptDj.

(** The [detail] of a ['prompt-changed'] event. *)
Record detail : Type := {
  promptId : value;
  text : value;
  weight : value;
  cc : value;
  color : value
}.

(** [object.name = v] on the properties of an object: the property is
    overwritten where it stands, or added after the others. *)
Fixpoint assign (name : string) (v : value) (ps : list (string * value))
    : list (string * value) :=
  match ps with
  | [] => [(name, v)]
  | (n, old) :: rest =>
      if String.eqb n name then (n, v) :: rest
      else (n, old) :: assign name v rest
  end.

(** The four assignments [prompt.text = text; ...; prompt.color = color]. *)
Definition assign_fields (d : detail) (ps : list (string * value))
    : list (string * value) :=
  let ps := assign "text" (text d) ps in
  let ps := assign "weight" (weight d) ps in
  let ps := assign "cc" (cc d) ps in
  assign "color" (color d) ps.

(** [handlePromptChanged(e)]. The prompt found is changed where it is
    stored, which shows in the map as a new value under the key it has.
    A prompt that is a primitive value makes the first assignment throw;
    an array takes the assignments without showing them as elements. *)
Definition handlePromptChanged (d : detail) (this : PromptDjMidi) : PromptDjMidi :=
  let prompt := Map_get (promptId d) (prompts this) in
  if negb (truthy prompt) then this     (* console.error *)
  else
    match prompt with
    | Some (JObject ps) =>
        let prompts' :=
          Map_set (promptId d) (JObject (assign_fields d ps)) (prompts this) in
        dispatchEvent (prompts_changed prompts')
          {| prompts := prompts'; events := events this |}
    | Some (JArray _) =>
        dispatchEvent (prompts_changed (prompts this)) this
    | _ => this                         (* TypeError *)
    end.

(** A value of a map that came out of a set file with entries [entries]:
    it is one of them, its [promptId] and [text] are truthy, and it is
    stored under its [promptId]. *)
Definition loaded_entry (entries : list value) (entry : value * value) : Prop :=
  entry.2 ∈ entries
  /\ truthy (prop "promptId" entry.2) = true
  /\ truthy (prop "text" entry.2) = true
  /\ exists promptId, prop "promptId" entry.2 = Some promptId
       /\ (entry.1 = promptId \/ same_value_zero entry.1 promptId = true).

(** ** Sample data *)

Definition retune : detail :=
  {| promptId := JString "prompt-11"; text := JString "Dub Techno";
     weight := JNumber (div (of_Z 3) (of_Z 2)); cc := JNumber (of_Z 11);
     color := JString "#ffdd28" |}.

(** A change for a prompt the sample maps do not hold. *)
Definition stray : detail :=
  {| promptId := JString "prompt-99"; text := JString "Gabber";
     weight := JNumber (of_Z 1); cc := JNumber (of_Z 99);
     color := JString "#000000" |}.

End PromptEdit.

(* ===================================================================== *)
(** * Notions the further statements about the helper use *)
(* ===================================================================== *)

Module Playback.
Import Double Js LiveMusic.

(** The state the last ['playback-state-changed'] event of a log told. *)
Definition last_announced (log : list Event) : option PlaybackState :=
  fold_left
    (fun told e =>
       match e with
       | playback_state_changed state => Some state
       | _ => told
       end)
    log None.

(** The clock reads and the duration of the chunk a turn brings are not
    negative. *)
Definition plausible_turn (t : Turn) : Prop :=
  match t with
  | on_message e c0 c1 =>
      leb zero c0 = true /\ leb zero c1 = true
      /\ match audioChunks e with
         | Some (audioBuffer :: _) => leb zero (duration audioBuffer) = true
         | _ => True
         end
  | _ => True
  end.

(** What runs on the helper in one go: a turn, or the rest of a
    [processAudioChunks] call whose [await] has let other turns run first
    (the test on the playback state is not made again after the [await]). *)
Inductive Moment : Type :=
| a_turn (t : Turn)
| chunk_decoded (audioBuffer : AudioBuffer) (currentTime0 currentTime1 : double).

Definition moment (m : Moment) (this : LiveMusicHelper) : LiveMusicHelper :=
  match m with
  | a_turn t => turn t this
  | chunk_decoded audioBuffer c0 c1 =>
      processAudioChunks_decoded audioBuffer c0 c1 this
  end.

Definition moments (ms : list Moment) (this : LiveMusicHelper) : LiveMusicHelper :=
  fold_left (fun h m => moment m h) ms this.

(** The clock reads and the duration of the chunk a moment brings are not
    negative. *)
Definition plausible_moment (m : Moment) : Prop :=
  match m with
  | a_turn t => plausible_turn t
  | chunk_decoded audioBuffer c0 c1 =>
      leb zero c0 = true /\ leb zero c1 = true
      /\ leb zero (duration audioBuffer) = true
  end.

(** The state told last is the state held; before any event that is
    [stopped]. *)
Definition announced (this : LiveMusicHelper) : Prop :=
  default stopped (last_announced (events this)) = playbackState this.

(** The look-ahead is the two seconds of the constructor, and neither the
    clock nor a start time handed to a source is negative. *)
Definition clock_sound (this : LiveMusicHelper) : Prop :=
  bufferTime this = of_Z 2
  /\ leb zero (nextStartTime this) = true
  /\ Forall (fun s => leb zero (when s) = true) (started this).

(** The state is [paused] or [stopped]. *)
Definition halted (this : LiveMusicHelper) : bool :=
  negb (processAudioChunks_enters this).

(** What was sent to sessions on the way from [this] to [this']. *)
Definition newly_sent (this this' : LiveMusicHelper) : list (nat * SessionCall) :=
  drop (length (sent this)) (sent this').

(** What was started on the way from [this] to [this']. *)
Definition newly_started (this this' : LiveMusicHelper) : list Started :=
  drop (length (started this)) (started this').

(** A message that brings audio chunks and nothing else. *)
Definition audio_message (chunks : list AudioBuffer) : Message :=
  {| setupComplete := false; filteredPrompt := None;
     audioChunks := Some chunks |}.

(** Audio messages handled one after the other, each with its chunks and
    the two clock reads made for it. *)
Definition hear (messages : list (list AudioBuffer * double * double))
    (this : LiveMusicHelper) : LiveMusicHelper :=
  fold_left
    (fun h message =>
       let '(chunks, c0, c1) := message in
       onmessage (audio_message chunks) c0 c1 h)
    messages this.

(** ** Sample data *)

(** A [play()] begun, then a first chunk of two seconds at second 10. *)
Definition first_chunk_turns : list Turn :=
  [do_play_begin;
   on_message (audio_message [two_seconds]) (of_Z 10) (of_Z 10)].

(** The same, then a pause, and a chunk whose decoding ends after it. *)
Definition late_decoding : list Moment :=
  map a_turn first_chunk_turns
  ++ [a_turn do_pause; chunk_decoded two_seconds (of_Z 11) (of_Z 11)].

(** A pause while the timeout of the priming is pending, the timeout,
    and a chunk that arrives after it. *)
Definition chunk_after_timeout : list Turn :=
  first_chunk_turns
  ++ [do_pause; on_timeout;
      on_message (audio_message [two_seconds]) (of_Z 11) (of_Z 11)].

End Playback.

(* ===================================================================== *)
(** * Sums of doubles *)
(* ===================================================================== *)

Section DoubleFacts.
Import Double.

Lemma digits2_pos_size m : digits2_pos m = Pos.size m.
Proof. induction m; simpl; congruence. Qed.

Lemma digits2_pos_log2 m : Zpos (digits2_pos m) = Z.log2 (Zpos m) + 1.
Proof.
  rewrite digits2_pos_size. destruct m; simpl; lia.
Qed.

Lemma digits2_pos_bounds m :
  2 ^ (Zpos (digits2_pos m) - 1) <= Zpos m < 2 ^ Zpos (digits2_pos m).
Proof.
  rewrite digits2_pos_log2.
  pose proof (Z.log2_spec (Zpos m) ltac:(lia)) as H.
  replace (Z.log2 (Z.pos m) + 1 - 1) with (Z.log2 (Z.pos m)) by lia.
  replace (Z.log2 (Z.pos m) + 1) with (Z.succ (Z.log2 (Z.pos m))) by lia.
  exact H.
Qed.

(** The number of binary digits is the only [d] with [2^(d-1) <= m < 2^d]. *)
Lemma digits2_pos_unique m d :
  2 ^ (d - 1) <= Zpos m < 2 ^ d -> Zpos (digits2_pos m) = d.
Proof.
  intros H. rewrite digits2_pos_log2.
  assert (0 < d).
  { destruct (Z_lt_le_dec 0 d) as [|Hd]; [done|].
    assert (2 ^ d <= 2 ^ 0) by (apply Z.pow_le_mono_r; lia).
    change (2 ^ 0) with 1 in *. lia. }
  rewrite (Z.log2_unique (Zpos m) (d - 1)); [lia|lia|].
  by replace (Z.succ (d - 1)) with d by lia.
Qed.

Lemma iter_xO m d : Zpos (Pos.iter xO m d) = Zpos m * 2 ^ Zpos d.
Proof.
  revert m. induction d using Pos.peano_ind; intros m.
  - simpl. lia.
  - rewrite Pos.iter_succ, Pos2Z.inj_xO, IHd, Pos2Z.inj_succ, Z.pow_succ_r; lia.
Qed.

Lemma shr_1_m mrs : 0 <= shr_m mrs -> shr_m (shr_1 mrs) = shr_m mrs / 2.
Proof.
  destruct mrs as [m r s]. cbn [shr_m]. intros Hm.
  destruct m as [|[p|p|]|p]; cbn [shr_1 shr_m]; try done; try lia.
  - apply (Z.div_unique _ 2 _ 1); lia.
  - apply (Z.div_unique _ 2 _ 0); lia.
Qed.

Lemma pow2_xO n : 2 ^ Zpos n~0 = 2 ^ Zpos n * 2 ^ Zpos n.
Proof. rewrite Pos2Z.inj_xO, <- Z.pow_add_r by lia. f_equal. lia. Qed.

Lemma pow2_xI n : 2 ^ Zpos n~1 = 2 * (2 ^ Zpos n * 2 ^ Zpos n).
Proof.
  rewrite Pos2Z.inj_xI, <- Z.pow_add_r, <- Z.pow_succ_r by lia. f_equal. lia.
Qed.

Lemma iter_shr_1_m n : forall mrs,
  0 <= shr_m mrs ->
  shr_m (SpecFloat.iter_pos shr_1 n mrs) = shr_m mrs / 2 ^ Zpos n.
Proof.
  induction n as [n IH|n IH|]; intros mrs Hm; simpl SpecFloat.iter_pos.
  - assert (H1 : 0 <= shr_m (shr_1 mrs)).
    { rewrite shr_1_m by done. apply Z.div_pos; lia. }
    assert (H2 : 0 <= shr_m (SpecFloat.iter_pos shr_1 n (shr_1 mrs))).
    { rewrite IH by done. apply Z.div_pos; lia. }
    rewrite IH, IH, shr_1_m by done.
    rewrite !Z.div_div by lia. by rewrite pow2_xI.
  - assert (H2 : 0 <= shr_m (SpecFloat.iter_pos shr_1 n mrs)).
    { rewrite IH by done. apply Z.div_pos; lia. }
    rewrite IH, IH by done.
    rewrite !Z.div_div by lia. by rewrite pow2_xO.
  - rewrite shr_1_m by done. done.
Qed.

Lemma fexp_eq k : fexp prec emax k = Z.max (k - 53) (-1074).
Proof. reflexivity. Qed.

Lemma shr_nonpos mrs e n : n <= 0 -> shr mrs e n = (mrs, e).
Proof. destruct n; [done|lia|done]. Qed.

Lemma shr_pos mrs e n :
  0 < n -> 0 <= shr_m mrs ->
  snd (shr mrs e n) = e + n
  /\ shr_m (fst (shr mrs e n)) = shr_m mrs / 2 ^ n.
Proof.
  intros Hn Hm. destruct n as [|p|p]; [lia| |lia]. simpl.
  split; [done|]. by apply iter_shr_1_m.
Qed.

Lemma round_nearest_even_cases q l :
  round_nearest_even q l = q \/ round_nearest_even q l = q + 1.
Proof.
  destruct l as [|[| |]]; simpl; auto. destruct (Z.even q); auto.
Qed.

(** Rounding a mantissa that already stands at its exponent. *)
Lemma binary_round_aux_exact (m : positive) (e : Z) :
  fexp prec emax (Zpos (digits2_pos m) + e) <= e ->
  binary_round_aux prec emax false (Zpos m) e loc_Exact
  = if e <=? emax - prec then S754_finite false m e else S754_infinity false.
Proof.
  intros Ht. unfold binary_round_aux, shr_fexp.
  cbn [Zdigits2 shr_record_of_loc].
  rewrite shr_nonpos by lia.
  cbn [shr_m loc_of_shr_record round_nearest_even Zdigits2 shr_record_of_loc].
  rewrite shr_nonpos by lia. done.
Qed.

(** Rounding a mantissa that has to lose digits: the quotient [q], one
    more or not, and one more digit dropped when that carries. *)
Lemma binary_round_aux_shift (m : positive) (e : Z) :
  let t := fexp prec emax (Zpos (digits2_pos m) + e) in
  e < t ->
  exists q2 : Z,
    Zpos m / 2 ^ (t - e) <= q2 <= Zpos m / 2 ^ (t - e) + 1
    /\ q2 <= 2 ^ 53
    /\ binary_round_aux prec emax false (Zpos m) e loc_Exact
       = if q2 =? 2 ^ 53 then
           if t + 1 <=? emax - prec
           then S754_finite false (2 ^ 52)%positive (t + 1)
           else S754_infinity false
         else
           match q2 with
           | Zpos p => if t <=? emax - prec then S754_finite false p t
                       else S754_infinity false
           | _ => S754_zero false
           end.
Proof.
  intros t Ht.
  assert (Hemin : -1074 <= t) by (subst t; rewrite fexp_eq; lia).
  unfold binary_round_aux, shr_fexp. cbn [Zdigits2 shr_record_of_loc]. fold t.
  destruct (shr_pos {| shr_m := Zpos m; shr_r := false; shr_s := false |}
              e (t - e) ltac:(lia) ltac:(simpl; lia)) as [He Hq].
  destruct (shr _ e (t - e)) as [mrs' e'] eqn:Hshr. cbn [fst snd] in He, Hq.
  cbn [shr_m] in Hq. subst e'. replace (e + (t - e)) with t by lia.
  set (q := Zpos m / 2 ^ (t - e)) in *.
  set (q2 := round_nearest_even (shr_m mrs') (loc_of_shr_record mrs')).
  assert (Hq0 : 0 <= q) by (apply Z.div_pos; lia).
  assert (Hq53 : q < 2 ^ 53).
  { apply Z.div_lt_upper_bound; [lia|].
    pose proof (digits2_pos_bounds m) as [_ Hm].
    eapply Z.lt_le_trans; [exact Hm|].
    rewrite <- Z.pow_add_r by lia. apply Z.pow_le_mono_r; [lia|].
    subst t. rewrite fexp_eq in *. lia. }
  assert (Hq2 : q <= q2 <= q + 1).
  { subst q2. rewrite Hq.
    destruct (round_nearest_even_cases q (loc_of_shr_record mrs')) as [->| ->]; lia. }
  exists q2. split; [done|]. split; [lia|].
  destruct (Z.eqb_spec q2 (2 ^ 53)) as [Heq|Hne].
  - rewrite Heq. change (Zdigits2 (2 ^ 53)) with 54.
    replace (fexp prec emax (54 + t) - t) with 1 by (rewrite fexp_eq; lia).
    done.
  - assert (Hlt : q2 < 2 ^ 53) by lia.
    destruct q2 as [|p2|p2] eqn:Hp2; [| |lia].
    + cbn [Zdigits2]. rewrite shr_nonpos by (rewrite fexp_eq; lia). done.
    + cbn [Zdigits2].
      assert (Hd : Zpos (digits2_pos p2) <= 53).
      { pose proof (digits2_pos_bounds p2) as [Hlow _].
        destruct (Z_le_gt_dec (Zpos (digits2_pos p2)) 53) as [|Hgt]; [done|].
        assert (2 ^ 53 <= 2 ^ (Zpos (digits2_pos p2) - 1))
          by (apply Z.pow_le_mono_r; lia).
        lia. }
      rewrite shr_nonpos by (rewrite fexp_eq; lia). done.
Qed.

Lemma shl_align_fst m e e' :
  e' <= e -> Zpos (fst (shl_align m e e')) = Zpos m * 2 ^ (e - e').
Proof.
  intros He. unfold shl_align.
  destruct (e' - e) as [|d|d] eqn:Hd; cbn [fst].
  - replace (e - e') with 0 by lia. lia.
  - lia.
  - rewrite iter_xO. f_equal. f_equal. lia.
Qed.

Lemma digits2_pos_shifted (m mz : positive) (k : Z) :
  0 <= k -> Zpos mz = Zpos m * 2 ^ k ->
  Zpos (digits2_pos mz) = Zpos (digits2_pos m) + k.
Proof.
  intros Hk Hmz. apply digits2_pos_unique. rewrite Hmz.
  pose proof (digits2_pos_bounds m) as [Hlow Hhigh].
  assert (0 < 2 ^ k) by (apply Z.pow_pos_nonneg; lia).
  replace (Zpos (digits2_pos m) + k - 1) with (Zpos (digits2_pos m) - 1 + k) by lia.
  rewrite !Z.pow_add_r by lia. nia.
Qed.

(** A larger mantissa has at least as many digits. *)
Lemma digits2_pos_le (m : positive) (d : Z) (M : positive) :
  2 ^ (d - 1) <= Zpos M -> d <= Zpos (digits2_pos M).
Proof.
  intros Hle. pose proof (digits2_pos_bounds M) as [_ Hhigh].
  destruct (Z_le_gt_dec d (Zpos (digits2_pos M))) as [|Hgt]; [done|].
  assert (2 ^ Zpos (digits2_pos M) <= 2 ^ (d - 1))
    by (apply Z.pow_le_mono_r; lia).
  lia.
Qed.

(** [binary_round] where no digit is lost. *)
Lemma binary_round_exact (m : positive) (e : Z) :
  let t := fexp prec emax (Zpos (digits2_pos m) + e) in
  t <= e ->
  exists mz : positive,
    Zpos mz = Zpos m * 2 ^ (e - t)
    /\ binary_round prec emax false m e
       = if t <=? emax - prec then S754_finite false mz t
         else S754_infinity false.
Proof.
  intros t Ht. unfold binary_round. fold t.
  pose proof (shl_align_fst m e t Ht) as Hfst.
  destruct (shl_align m e t) as [mz ez] eqn:Halign. cbn [fst] in Hfst.
  assert (Hez : ez = t \/ (ez = e /\ t = e)).
  { unfold shl_align in Halign. destruct (t - e) eqn:Hd; simplify_eq; lia. }
  assert (Hezt : ez = t) by lia. subst ez.
  exists mz. split; [done|].
  apply binary_round_aux_exact.
  rewrite (digits2_pos_shifted m mz (e - t)) by (done || lia).
  replace (Zpos (digits2_pos m) + (e - t) + t) with (Zpos (digits2_pos m) + e) by lia.
  fold t. lia.
Qed.

(** [binary_round] where digits are lost. *)
Lemma binary_round_shift (m : positive) (e : Z) :
  let t := fexp prec emax (Zpos (digits2_pos m) + e) in
  e < t ->
  exists q2 : Z,
    Zpos m / 2 ^ (t - e) <= q2 <= Zpos m / 2 ^ (t - e) + 1
    /\ q2 <= 2 ^ 53
    /\ binary_round prec emax false m e
       = if q2 =? 2 ^ 53 then
           if t + 1 <=? emax - prec
           then S754_finite false (2 ^ 52)%positive (t + 1)
           else S754_infinity false
         else
           match q2 with
           | Zpos p => if t <=? emax - prec then S754_finite false p t
                       else S754_infinity false
           | _ => S754_zero false
           end.
Proof.
  intros t Ht. unfold binary_round. fold t.
  assert (Halign : shl_align m e t = (m, e)).
  { unfold shl_align. destruct (t - e) eqn:Hd; try done. lia. }
  rewrite Halign. by apply binary_round_aux_shift.
Qed.

(** The sum of two positive finite numbers is the rounding of a
    mantissa that holds both. *)
Lemma add_finite mx ex my ey :
  exists M : positive,
    Zpos M = Zpos mx * 2 ^ (ex - Z.min ex ey) + Zpos my * 2 ^ (ey - Z.min ex ey)
    /\ add (S754_finite false mx ex) (S754_finite false my ey)
       = binary_round prec emax false M (Z.min ex ey).
Proof.
  unfold add, SFadd, cond_Zopp.
  pose proof (shl_align_fst mx ex (Z.min ex ey) ltac:(lia)) as Hx.
  pose proof (shl_align_fst my ey (Z.min ex ey) ltac:(lia)) as Hy.
  set (mx' := fst (shl_align mx ex (Z.min ex ey))) in *.
  set (my' := fst (shl_align my ey (Z.min ex ey))) in *.
  exists (mx' + my')%positive. split; [lia|]. done.
Qed.

(** Rounding a positive mantissa gives nothing negative and no NaN. *)
Lemma binary_round_sign (m : positive) (e : Z) :
  leb zero (binary_round prec emax false m e) = true.
Proof.
  set (t := fexp prec emax (Zpos (digits2_pos m) + e)).
  destruct (Z_le_gt_dec t e) as [Hle|Hgt].
  - destruct (binary_round_exact m e Hle) as (mz & _ & ->). fold t.
    by destruct (t <=? emax - prec).
  - destruct (binary_round_shift m e ltac:(fold t; lia)) as (q2 & _ & _ & ->).
    fold t.
    destruct (q2 =? 2 ^ 53); [by destruct (t + 1 <=? emax - prec)|].
    destruct q2; try done. by destruct (t <=? emax - prec).
Qed.

(** It gives a double. *)
Lemma binary_round_valid (m : positive) (e : Z) :
  is_double (binary_round prec emax false m e) = true.
Proof.
  set (t := fexp prec emax (Zpos (digits2_pos m) + e)).
  assert (Hemin : -1074 <= t) by (subst t; rewrite fexp_eq; lia).
  destruct (Z_le_gt_dec t e) as [Hle|Hgt].
  - destruct (binary_round_exact m e Hle) as (mz & Hmz & ->). fold t in Hmz |- *.
    destruct (t <=? emax - prec) eqn:Hb; [|done].
    unfold is_double, valid_binary, bounded, canonical_mantissa.
    rewrite Hb, andb_true_r. apply Z.eqb_eq.
    rewrite (digits2_pos_shifted m mz (e - t)) by (done || lia).
    replace (Zpos (digits2_pos m) + (e - t) + t) with (Zpos (digits2_pos m) + e) by lia.
    done.
  - destruct (binary_round_shift m e ltac:(fold t; lia)) as (q2 & Hq & Hq53 & ->).
    fold t in Hq |- *.
    destruct (Z.eqb_spec q2 (2 ^ 53)) as [Heq|Hne].
    + destruct (t + 1 <=? emax - prec) eqn:Hb; [|done].
      unfold is_double, valid_binary, bounded, canonical_mantissa.
      rewrite Hb, andb_true_r. apply Z.eqb_eq.
      change (Zpos (digits2_pos (2 ^ 52))) with 53. rewrite fexp_eq. lia.
    + destruct q2 as [|p|p]; try done.
      destruct (t <=? emax - prec) eqn:Hb; [|done].
      unfold is_double, valid_binary, bounded, canonical_mantissa.
      rewrite Hb, andb_true_r. apply Z.eqb_eq.
      pose proof (digits2_pos_bounds p) as [Hlow Hhigh].
      assert (Hd : Zpos (digits2_pos p) <= 53).
      { destruct (Z_le_gt_dec (Zpos (digits2_pos p)) 53) as [|Hd]; [done|].
        assert (2 ^ 53 <= 2 ^ (Zpos (digits2_pos p) - 1))
          by (apply Z.pow_le_mono_r; lia).
        lia. }
      rewrite fexp_eq.
      destruct (Z.eq_dec t (-1074)) as [Ht|Ht]; [lia|].
      assert (Ht' : t = Zpos (digits2_pos m) + e - 53)
        by (subst t; rewrite fexp_eq in *; lia).
      assert (H52 : 2 ^ 52 <= Zpos m / 2 ^ (t - e)).
      { apply Z.div_le_lower_bound; [apply Z.pow_pos_nonneg; lia|].
        pose proof (digits2_pos_bounds m) as [Hm _].
        rewrite <- Z.pow_add_r by lia.
        replace (t - e + 52) with (Zpos (digits2_pos m) - 1) by lia. done. }
      assert (53 <= Zpos (digits2_pos p)); [|lia].
      apply (digits2_pos_le p). change (53 - 1) with 52. lia.
Qed.

Lemma leb_finite mx ex p e :
  ex < e \/ (ex = e /\ (mx <= p)%positive) ->
  leb (S754_finite false mx ex) (S754_finite false p e) = true.
Proof.
  intros H. unfold leb, SFleb, SFcompare.
  destruct (Z.compare_spec ex e) as [Heq|Hlt|Hgt]; [|done|lia].
  destruct H as [?|[_ Hle]]; [lia|].
  change (Pos.compare_cont Eq mx p) with (mx ?= p)%positive.
  by destruct (Pos.compare_spec mx p) as [?|?|?]; [..|lia].
Qed.

(** Rounding a mantissa does not go below a double that is not above
    the mantissa. *)
Lemma binary_round_above (mx : positive) (ex : Z) (M : positive) (ez : Z) :
  canonical_mantissa prec emax mx ex = true ->
  ez <= ex ->
  Zpos mx * 2 ^ (ex - ez) <= Zpos M ->
  leb (S754_finite false mx ex) (binary_round prec emax false M ez) = true.
Proof.
  intros Hcanon Hez Hle.
  apply Z.eqb_eq in Hcanon. rewrite fexp_eq in Hcanon.
  set (t := fexp prec emax (Zpos (digits2_pos M) + ez)).
  assert (Hdigits : Zpos (digits2_pos mx) + ex <= Zpos (digits2_pos M) + ez).
  { assert (Zpos (digits2_pos mx) + (ex - ez) <= Zpos (digits2_pos M)); [|lia].
    apply (digits2_pos_le M).
    pose proof (digits2_pos_bounds mx) as [Hlow _].
    assert (0 < 2 ^ (ex - ez)) by (apply Z.pow_pos_nonneg; lia).
    replace (Zpos (digits2_pos mx) + (ex - ez) - 1)
      with (Zpos (digits2_pos mx) - 1 + (ex - ez)) by lia.
    rewrite Z.pow_add_r by lia. nia. }
  assert (Ht : ex <= t) by (subst t; rewrite fexp_eq; lia).
  destruct (Z_le_gt_dec t ez) as [Htez|Hgt].
  - destruct (binary_round_exact M ez Htez) as (mz & Hmz & ->).
    fold t in Hmz |- *.
    assert (t = ez) by lia. assert (ex = ez) by lia.
    replace (ez - t) with 0 in Hmz by lia.
    replace (ex - ez) with 0 in Hle by lia.
    destruct (t <=? emax - prec); [|done].
    apply leb_finite. right. split; [lia|]. lia.
  - destruct (binary_round_shift M ez ltac:(fold t; lia)) as (q2 & Hq & Hq53 & ->).
    fold t in Hq |- *.
    assert (Hq1 : 1 <= Zpos M / 2 ^ (t - ez)).
    { apply Z.div_le_lower_bound; [apply Z.pow_pos_nonneg; lia|].
      pose proof (digits2_pos_bounds M) as [HM _].
      pose proof (digits2_pos_bounds mx) as [_ _].
      eapply Z.le_trans; [|exact HM]. rewrite Z.mul_1_r.
      apply Z.pow_le_mono_r; [lia|]. subst t. rewrite fexp_eq in *. lia. }
    destruct (Z.eqb_spec q2 (2 ^ 53)) as [Heq|Hne].
    + destruct (t + 1 <=? emax - prec); [|done].
      apply leb_finite. left. lia.
    + destruct q2 as [|p|p]; [lia| |lia].
      destruct (t <=? emax - prec); [|done].
      apply leb_finite.
      destruct (Z.eq_dec ex t) as [Heq|Hneq]; [right|left; lia].
      split; [done|].
      assert (Zpos mx <= Zpos M / 2 ^ (t - ez)); [|lia].
      apply Z.div_le_lower_bound; [apply Z.pow_pos_nonneg; lia|].
      rewrite <- Heq. lia.
Qed.

(** ** The sums the scheduler makes *)

Lemma positive_nonneg x : ltb zero x = true -> leb zero x = true.
Proof. by destruct x as [s|[|]| |[|] m e]. Qed.

Lemma nonzero_positive x :
  leb zero x = true -> eqb x zero = false -> ltb zero x = true.
Proof. by destruct x as [s|[|]| |[|] m e]. Qed.

Lemma positive_nonzero x : ltb zero x = true -> eqb x zero = false.
Proof. by destruct x as [s|[|]| |[|] m e]. Qed.

Lemma nonneg_cases x :
  leb zero x = true ->
  (exists s, x = S754_zero s) \/ x = S754_infinity false
  \/ exists m e, x = S754_finite false m e.
Proof.
  destruct x as [s|[|]| |[|] m e]; try done; eauto.
Qed.

Lemma positive_cases x :
  ltb zero x = true ->
  x = S754_infinity false \/ exists m e, x = S754_finite false m e.
Proof.
  destruct x as [s|[|]| |[|] m e]; try done; eauto.
Qed.

Lemma leb_refl x : leb zero x = true -> leb x x = true.
Proof.
  intros [[s ->]|[->|(m & e & ->)]]%nonneg_cases; try done.
  apply leb_finite. right. split; [done|]. lia.
Qed.

(** A number that is not below a positive finite number is positive. *)
Lemma above_positive m e x :
  leb (S754_finite false m e) x = true -> ltb zero x = true.
Proof. by destruct x as [s|[|]| |[|] m' e']. Qed.

(** The sum of two numbers that are not negative is not negative. *)
Lemma add_nonneg a b :
  leb zero a = true -> leb zero b = true -> leb zero (add a b) = true.
Proof.
  intros [[sa ->]|[->|(ma & ea & ->)]]%nonneg_cases
         [[sb ->]|[->|(mb & eb & ->)]]%nonneg_cases; try done.
  - by destruct sa, sb.
  - destruct (add_finite ma ea mb eb) as (M & _ & ->). apply binary_round_sign.
Qed.

(** The sum of two doubles that are not negative is a double. *)
Lemma add_is_double a b :
  is_double a = true -> is_double b = true ->
  leb zero a = true -> leb zero b = true ->
  is_double (add a b) = true.
Proof.
  intros Ha Hb
         [[sa ->]|[->|(ma & ea & ->)]]%nonneg_cases
         [[sb ->]|[->|(mb & eb & ->)]]%nonneg_cases; try done.
  - by destruct sa, sb.
  - destruct (add_finite ma ea mb eb) as (M & _ & ->). apply binary_round_valid.
Qed.

(** Adding a number that is not negative to a double that is not negative
    does not give less. *)
Lemma add_mono_l a b :
  is_double a = true -> leb zero a = true -> leb zero b = true ->
  leb a (add a b) = true.
Proof.
  intros Ha
         [[sa ->]|[->|(ma & ea & ->)]]%nonneg_cases
         [[sb ->]|[->|(mb & eb & ->)]]%nonneg_cases; try done.
  - by destruct sa, sb.
  - apply leb_finite. right. split; [done|]. lia.
  - destruct (add_finite ma ea mb eb) as (M & HM & ->).
    apply andb_true_iff in Ha as [Ha _].
    apply binary_round_above; [done|lia|].
    assert (0 < 2 ^ (eb - Z.min ea eb)) by (apply Z.pow_pos_nonneg; lia).
    nia.
Qed.

Lemma add_mono_r a b :
  is_double b = true -> leb zero a = true -> leb zero b = true ->
  leb b (add a b) = true.
Proof.
  intros Hb
         [[sa ->]|[->|(ma & ea & ->)]]%nonneg_cases
         [[sb ->]|[->|(mb & eb & ->)]]%nonneg_cases; try done.
  - by destruct sa, sb.
  - apply leb_finite. right. split; [done|]. lia.
  - destruct (add_finite ma ea mb eb) as (M & HM & ->).
    apply andb_true_iff in Hb as [Hb _].
    apply binary_round_above; [done|lia|].
    assert (0 < 2 ^ (ea - Z.min ea eb)) by (apply Z.pow_pos_nonneg; lia).
    nia.
Qed.

(** A sum with a positive double in it is positive. *)
Lemma add_positive_l a b :
  is_double a = true -> ltb zero a = true -> leb zero b = true ->
  ltb zero (add a b) = true.
Proof.
  intros Ha Hpos Hb.
  assert (Hnonneg : leb zero a = true) by (by destruct a as [s|[|]| |[|] m e]).
  pose proof (add_mono_l a b Ha Hnonneg Hb) as Hle.
  destruct (positive_cases a Hpos) as [->|(m & e & ->)].
  - by destruct b as [s|[|]| |[|] m e].
  - by apply above_positive in Hle.
Qed.

Lemma add_positive_r a b :
  is_double b = true -> leb zero a = true -> ltb zero b = true ->
  ltb zero (add a b) = true.
Proof.
  intros Hb Ha Hpos.
  assert (Hnonneg : leb zero b = true) by (by destruct b as [s|[|]| |[|] m e]).
  pose proof (add_mono_r a b Hb Ha Hnonneg) as Hle.
  destruct (positive_cases b Hpos) as [->|(m & e & ->)].
  - by destruct a as [s|[|]| |[|] m e].
  - by apply above_positive in Hle.
Qed.

End DoubleFacts.

(* ===================================================================== *)
(** * The rate limiter *)
(* ===================================================================== *)

Section ThrottleFacts.
Import Throttle.
Context {A W R : Type}.
Variable func : A -> W -> R * W.
Variable delay : Z.

Implicit Types (c : closure R) (es : list (entry A R)).

Lemma fresh_spec c now :
  fresh delay c now = true <->
  match lastCall c with
  | NegInfinity => True
  | Finite t => delay <= now - t
  | PosInfinity => False
  end.
Proof.
  unfold fresh. destruct (lastCall c); simpl.
  - split; auto.
  - apply Z.leb_le.
  - split; [discriminate | tauto].
Qed.

Lemma invoke_fresh c args now w :
  fresh delay c now = true ->
  invoke func delay c args now w =
    (Some (fst (func args w)),
     {| lastCall := Finite now; lastResult := Some (fst (func args w)) |},
     snd (func args w)).
Proof.
  unfold fresh, invoke. intros ->. by destruct (func args w).
Qed.

Lemma invoke_stale c args now w :
  fresh delay c now = false ->
  invoke func delay c args now w = (lastResult c, c, w).
Proof.
  unfold fresh, invoke. by intros ->.
Qed.

Lemma last_ran_app es1 es2 :
  last_ran (es1 ++ es2) =
    match last_ran es2 with
    | Some e => Some e
    | None => last_ran es1
    end.
Proof.
  induction es1 as [|e es1 IH]; simpl.
  - by destruct (last_ran es2).
  - rewrite IH. by destruct (last_ran es2).
Qed.

(** [last_ran] picks the entry that ran and after which none ran. *)
Lemma last_ran_Some es p :
  last_ran es = Some p <->
  exists j, es !! j = Some p /\ e_ran p = true /\
    forall k q, (j < k)%nat -> es !! k = Some q -> e_ran q = false.
Proof.
  revert p. induction es as [|e es IH]; intros p; simpl.
  - split; [discriminate | intros (j & Hj & _); by destruct j].
  - destruct (last_ran es) as [p'|] eqn:Hl.
    + split.
      * intros [= <-]. destruct (proj1 (IH p') eq_refl) as (j & Hj & Hr & Hafter).
        exists (S j). split_and!; auto.
        intros [|k] q Hk Hq; [lia|]. apply (Hafter k); [lia | done].
      * intros (j & Hj & Hr & Hafter).
        destruct (proj1 (IH p') eq_refl) as (j' & Hj' & Hr' & Hafter').
        destruct j as [|j].
        -- specialize (Hafter (S j') p'). simpl in Hafter.
           rewrite Hafter in Hr'; [done | lia | done].
        -- simpl in Hj. apply IH. exists j. split_and!; auto.
           intros k q Hk Hq. apply (Hafter (S k)); [lia | done].
    + split.
      * destruct (e_ran e) eqn:He; [|discriminate]. intros [= <-].
        exists 0%nat. split_and!; auto.
        intros [|k] q Hk Hq; [lia|]. simpl in Hq.
        destruct (e_ran q) eqn:Hq'; [|done].
        assert (Hsome : exists p, last_ran es = Some p); [|destruct Hsome; congruence].
        clear -Hq Hq'. revert k Hq. induction es as [|e' es IH']; intros k Hk; [by destruct k|].
        simpl. destruct (last_ran es) eqn:E; eauto.
        destruct k; simpl in Hk.
        -- injection Hk as ->. rewrite Hq'. eauto.
        -- destruct (IH' k Hk) as [? ?]. done.
      * intros (j & Hj & Hr & Hafter). destruct j as [|j].
        -- simpl in Hj. injection Hj as ->. by rewrite Hr.
        -- simpl in Hj. exfalso.
           assert (@None (entry A R) = Some p) as Habs; [|discriminate Habs].
           apply IH. exists j. split_and!; auto.
           intros k q Hk Hq. apply (Hafter (S k)); [lia | done].
Qed.

Lemma run_step_tracks c w now args hist :
  tracks c hist ->
  let ran := fresh delay c now in
  let computed := if ran then Some (fst (func args w)) else None in
  let '(ret, c', _) := invoke func delay c args now w in
  tracks c' (hist ++ [Entry now args ran computed ret]).
Proof.
  intros Ht. simpl. destruct (fresh delay c now) eqn:Hf.
  - rewrite invoke_fresh by done. unfold tracks. rewrite last_ran_app. simpl.
    split_and!; eauto.
  - rewrite invoke_stale by done. unfold tracks. rewrite last_ran_app. simpl.
    done.
Qed.

Lemma run_characterised calls : forall c w hist i e,
  tracks c hist ->
  (run func delay c w calls).1.1 !! i = Some e ->
  let before := hist ++ take i (run func delay c w calls).1.1 in
  (e_ran e = true <->
     match last_ran before with
     | None => True
     | Some p => delay <= e_now e - e_now p
     end)
  /\ (e_ran e = true ->
        is_Some (e_computed e) /\ e_returned e = e_computed e)
  /\ (e_ran e = false ->
        exists p, last_ran before = Some p /\ is_Some (e_computed p)
                  /\ e_returned e = e_computed p).
Proof.
  induction calls as [|[now args] rest IH]; intros c w hist i e Ht Hi.
  - by destruct i.
  - simpl in Hi |- *.
    pose proof (run_step_tracks c w now args hist Ht) as Hstep. simpl in Hstep.
    destruct (invoke func delay c args now w) as [[ret c'] w'] eqn:Hinv.
    destruct (run func delay c' w' rest) as [[es c''] w''] eqn:Hrun.
    simpl in Hi |- *. destruct i as [|i].
    + injection Hi as <-. simpl. rewrite app_nil_r.
      unfold tracks in Ht. pose proof (fresh_spec c now) as Hspec.
      destruct (fresh delay c now) eqn:Hf.
      * rewrite invoke_fresh in Hinv by done. injection Hinv as <- <- <-.
        split_and!; [|eauto|done].
        destruct (last_ran hist) as [p|]; [|done].
        destruct Ht as (Hc & _). rewrite Hc in Hspec. done.
      * rewrite invoke_stale in Hinv by done. injection Hinv as <- <- <-.
        destruct (last_ran hist) as [p|].
        -- destruct Ht as (Hc & Hr & Hs). rewrite Hc in Hspec.
           split_and!; [done|done|]. intros _. eauto.
        -- destruct Ht as (Hc & _). rewrite Hc in Hspec.
           destruct Hspec as [_ Hspec]. by specialize (Hspec I).
    + simpl in Hi.
      specialize (IH c' w' _ i e Hstep). rewrite Hrun in IH. simpl in IH.
      specialize (IH Hi). rewrite <- app_assoc in IH. simpl in IH. exact IH.
Qed.

Lemma run_tracks calls : forall c w hist,
  tracks c hist ->
  tracks (run func delay c w calls).1.2
         (hist ++ (run func delay c w calls).1.1).
Proof.
  induction calls as [|[now args] rest IH]; intros c w hist Ht; simpl.
  - by rewrite app_nil_r.
  - pose proof (run_step_tracks c w now args hist Ht) as Hstep. simpl in Hstep.
    destruct (invoke func delay c args now w) as [[ret c'] w'].
    specialize (IH c' w' _ Hstep).
    destruct (run func delay c' w' rest) as [[es c''] w'']. simpl in *.
    by rewrite <- app_assoc in IH.
Qed.

Lemma last_ran_cons_ran e es : e_ran e = true -> is_Some (last_ran (e :: es)).
Proof. intros He. simpl. rewrite He. destruct (last_ran es); eauto. Qed.

Lemma run_first_runs c w calls :
  lastCall c = NegInfinity ->
  last_ran (run func delay c w calls).1.1 = None -> calls = [].
Proof.
  intros Hc Hnone. destruct calls as [|[now args] rest]; [done|].
  exfalso. simpl in Hnone.
  destruct (invoke func delay c args now w) as [[ret c'] w'].
  destruct (run func delay c' w' rest) as [[es c''] w'']. simpl in Hnone.
  assert (Hf : fresh delay c now = true) by (apply fresh_spec; by rewrite Hc).
  rewrite Hf in Hnone.
  destruct (last_ran_cons_ran
              (Entry now args true (Some (func args w).1) ret) es eq_refl)
    as [p Hp].
  simpl in Hp. congruence.
Qed.

(** The record of a run lists the invocations in order, and the world
    after the run is the world the invocations marked [e_ran], and only
    they, have passed through [func]. *)
Lemma run_record calls : forall c w,
  map (fun e => (e_now e, e_args e)) (run func delay c w calls).1.1 = calls
  /\ (run func delay c w calls).2
     = fold_left (fun w e => (func (e_args e) w).2)
                 (List.filter e_ran (run func delay c w calls).1.1) w.
Proof.
  induction calls as [|[now args] rest IH]; intros c w; [done|].
  simpl. destruct (fresh delay c now) eqn:Hf.
  - rewrite invoke_fresh by done.
    specialize (IH {| lastCall := Finite now;
                      lastResult := Some (func args w).1 |} (func args w).2).
    destruct (run func delay _ (func args w).2 rest) as [[es c''] w''].
    simpl in *. destruct IH as [-> ->]. done.
  - rewrite invoke_stale by done. specialize (IH c w).
    destruct (run func delay c w rest) as [[es c''] w''].
    simpl in *. destruct IH as [-> ->]. done.
Qed.

(** C9. The first invocation of the wrapper returned by
    [throttle(func, delay)] calls [func], whatever the time and the delay:
    it returns what [func] returned, not [undefined], and records the
    time. *)
Theorem throttle_first_invocation_runs (args : A) (now : Z) (w : W) :
  fresh delay (throttle (R:=R)) now = true /\
  invoke func delay throttle args now w = executed func args now w.
Proof.
  split; [done|]. by apply invoke_fresh.
Qed.

(** C3. After any sequence [calls] of invocations of the wrapper, an
    invocation at time [now] calls [func] exactly when no invocation has
    called it yet or at least [delay] milliseconds lie between [now] and
    the time of the last invocation that called it; [lastCall] is set to
    [now] in that case only; otherwise the wrapper returns what that last
    invocation computed (which is not [undefined]) and changes nothing.
    The invocations that called [func] are those the record marks: the
    world after the sequence has passed through [func] for them alone. *)
Theorem throttle_runs_when_due (w : W) (calls : list (Z * A)) (args : A) (now : Z) :
  let before := (run func delay throttle w calls).1.1 in
  let c := (run func delay throttle w calls).1.2 in
  let w1 := (run func delay throttle w calls).2 in
  invoke func delay c args now w1 =
    match last_ran before with
    | None => executed func args now w1
    | Some p =>
        if decide (delay <= now - e_now p) then executed func args now w1
        else (e_computed p, c, w1)
    end
  /\ match last_ran before with
     | None => calls = []
     | Some p => lastCall c = Finite (e_now p) /\ is_Some (e_computed p)
     end
  /\ map (fun e => (e_now e, e_args e)) before = calls
  /\ w1 = fold_left (fun w e => (func (e_args e) w).2)
                    (List.filter e_ran before) w.
Proof.
  intros before c w1.
  rewrite (and_assoc _ _ (_ /\ _)). split; [|apply run_record].
  pose proof (run_tracks calls throttle w [] (conj eq_refl eq_refl)) as Ht.
  simpl in Ht. fold before c in Ht. unfold tracks in Ht.
  pose proof (fresh_spec c now) as Hspec.
  destruct (last_ran before) as [p|] eqn:Hlast.
  - destruct Ht as (Hc & Hr & Hs). rewrite Hc in Hspec. split; [|done].
    case_decide as Hdue.
    + apply invoke_fresh. by apply Hspec.
    + rewrite invoke_stale; [by rewrite Hr|].
      destruct (fresh delay c now); [|done]. by destruct Hdue; apply Hspec.
  - destruct Ht as (Hc & _). rewrite Hc in Hspec. split.
    + apply invoke_fresh. by apply Hspec.
    + by apply (run_first_runs throttle w).
Qed.

End ThrottleFacts.

(* ===================================================================== *)
(** * The MIDI bridge *)
(* ===================================================================== *)

Section MidiFacts.
Import Midi.

Lemma control_change_mask_bool b :
  (Z.land (status_number b) 0xf0 =? 0xb0)
  = (0xB0 <=? status_number b) && (status_number b <=? 0xBF).
Proof. by destruct b. Qed.

Lemma high_nibble_bool b :
  (Z.shiftr (status_number b) 4 =? 0xB)
  = (0xB0 <=? status_number b) && (status_number b <=? 0xBF).
Proof. by destruct b. Qed.

(** Masking with [0xf0] finds [0xb0] exactly on the status bytes
    0xB0..0xBF, those whose high nibble is 0xB. *)
Lemma control_change_mask b :
  Z.land (status_number b) 0xf0 = 0xb0 <-> 0xB0 <= status_number b <= 0xBF.
Proof.
  rewrite <- Z.eqb_eq, control_change_mask_bool, andb_true_iff, !Z.leb_le.
  done.
Qed.

Lemma high_nibble b :
  Z.shiftr (status_number b) 4 = 0xB <-> 0xB0 <= status_number b <= 0xBF.
Proof.
  rewrite <- Z.eqb_eq, high_nibble_bool, andb_true_iff, !Z.leb_le. done.
Qed.

Lemma low_nibble b : Z.land (status_number b) 0x0f = status_number b mod 16.
Proof. by destruct b. Qed.

(** C7. A raw MIDI message makes the bridge emit a ['cc-message'] event
    exactly when it comes from the active input and the high nibble of its
    status byte is 0xB (status 0xB0..0xBF); the event then carries the low
    nibble of the status byte as channel, the second byte as cc and the
    third as value; in every other case nothing is emitted. *)
Theorem cc_message_filter (this : MidiDispatcher) (input : MIDIInput)
    (event : MIDIMessageEvent) :
  onmidimessage this input event =
    match data event with
    | Some (status :: rest) =>
        if decide (activeMidiInputId this = Some (id input)
                   /\ Z.shiftr (status_number status) 4 = 0xB)
        then [cc_message {| cc := rest !! 0%nat;
                            value := rest !! 1%nat;
                            channel := status_number status mod 16 |}]
        else []
    | _ => []
    end.
Proof.
  unfold onmidimessage.
  destruct (data event) as [[|status rest]|];
    [by case_bool_decide | | by case_bool_decide].
  pose proof (control_change_mask status) as Hmask.
  pose proof (high_nibble status) as Hhigh.
  rewrite <- low_nibble.
  change (to_number (index (status :: rest) 0)) with (status_number status).
  destruct (Z.eqb_spec (Z.land (status_number status) 0xf0) 0xb0) as [Hcc|Hcc];
    case_bool_decide as Hactive; case_decide as Hboth; simpl; try done.
  - by destruct rest as [|? [|? ?]].
  - destruct Hboth. split; [done | tauto].
  - destruct Hboth as [Heq _]. by destruct Hactive.
  - destruct Hboth as [_ Hnibble]. tauto.
  - destruct Hboth as [Heq _]. by destruct Hactive.
Qed.

End MidiFacts.

(* ===================================================================== *)
(** * The playback scheduler *)
(* ===================================================================== *)

Section SchedulerFacts.
Import Double LiveMusic.

(** After the priming step, [nextStartTime] is [target_start]. *)
Lemma decoded_unfold audioBuffer c0 c1 this :
  processAudioChunks_decoded audioBuffer c0 c1 this =
    if underrun c0 c1 this then
      let primed :=
        if eqb (nextStartTime this) zero then
          set_timeouts (timeouts this ++ [mul (bufferTime this) (of_Z 1000)])
            (set_nextStartTime (add c0 (bufferTime this)) this)
        else this in
      set_nextStartTime zero (setPlaybackState loading primed)
    else if negb (startable (target_start c0 this)) then
      if eqb (nextStartTime this) zero then
        set_timeouts (timeouts this ++ [mul (bufferTime this) (of_Z 1000)])
          (set_nextStartTime (add c0 (bufferTime this)) this)
      else this
    else
      let primed :=
        if eqb (nextStartTime this) zero then
          set_timeouts (timeouts this ++ [mul (bufferTime this) (of_Z 1000)])
            (set_nextStartTime (add c0 (bufferTime this)) this)
        else this in
      set_nextStartTime (add (target_start c0 this) (duration audioBuffer))
        (start {| when := target_start c0 this; buffer := audioBuffer;
                  node := outputNode this |} primed).
Proof.
  unfold processAudioChunks_decoded, underrun, target_start.
  destruct (eqb (nextStartTime this) zero); simpl;
    match goal with |- context [ltb ?a ?b] => destruct (ltb a b) end;
    try reflexivity;
    match goal with |- context [startable ?a] => destruct (startable a) end;
    reflexivity.
Qed.

(** The two cases of the priming step. *)
Lemma target_start_cases c0 this :
  (eqb (nextStartTime this) zero = true
     /\ target_start c0 this = add c0 (bufferTime this))
  \/ (eqb (nextStartTime this) zero = false
     /\ target_start c0 this = nextStartTime this).
Proof.
  unfold target_start. destruct (eqb (nextStartTime this) zero); auto.
Qed.

(** C1. A chunk processed while the playback state is neither [paused]
    nor [stopped], whose target start time lies behind the audio clock,
    makes [processAudioChunks] switch to [loading], reset [nextStartTime]
    to 0 and return without starting the buffer; the next chunk then
    primes the clock again and, unless it is late itself, is started a
    look-ahead after its own clock read (a time [source.start] takes).
    The times are the doubles of the code, compared and added as it
    compares and adds them. *)
Theorem underrun_switches_to_loading (audioBuffer : AudioBuffer)
    (more : list AudioBuffer) (c0 c1 : double) (this : LiveMusicHelper) :
  processAudioChunks_enters this = true ->
  ltb (target_start c0 this) c1 = true ->
  let this' := processAudioChunks (audioBuffer :: more) c0 c1 this in
  playbackState this' = loading
  /\ nextStartTime this' = zero
  /\ started this' = started this
  /\ raised this this' = [playback_state_changed loading]
  /\ forall (next : AudioBuffer) (d0 d1 : double),
       ltb (add d0 (bufferTime this)) d1 = false ->
       startable (add d0 (bufferTime this)) = true ->
       started (processAudioChunks [next] d0 d1 this')
       = started this ++ [{| when := add d0 (bufferTime this);
                             buffer := next;
                             node := outputNode this |}].
Proof.
  intros Henters Hbehind this'. subst this'.
  unfold processAudioChunks. rewrite Henters, decoded_unfold.
  unfold underrun. rewrite Hbehind.
  assert (Hshape : forall primed : LiveMusicHelper,
    events primed = events this -> started primed = started this ->
    bufferTime primed = bufferTime this -> outputNode primed = outputNode this ->
    let h := set_nextStartTime zero (setPlaybackState loading primed) in
    playbackState h = loading /\ nextStartTime h = zero
    /\ started h = started this
    /\ raised this h = [playback_state_changed loading]
    /\ forall next d0 d1, ltb (add d0 (bufferTime this)) d1 = false ->
         startable (add d0 (bufferTime this)) = true ->
         started (processAudioChunks [next] d0 d1 h)
         = started this ++ [{| when := add d0 (bufferTime this);
                               buffer := next; node := outputNode this |}]).
  { intros primed He Hs Hb Ho. simpl. split_and!; try done.
    - unfold raised. simpl. rewrite He. by rewrite drop_app_length.
    - intros next d0 d1 Hd Hok. unfold processAudioChunks. simpl.
      rewrite decoded_unfold. unfold underrun, target_start. simpl.
      change (eqb zero zero) with true. cbv iota.
      rewrite Hb, Hd, Hok. simpl. by rewrite Hs, Ho. }
  destruct (eqb (nextStartTime this) zero); by apply Hshape.
Qed.

(** A chunk that does not underrun is started at [target_start] and moves
    [nextStartTime] on by its duration; nothing else the scheduler reads
    changes. *)
Lemma process_schedules a this :
  processAudioChunks_enters this = true ->
  underrun (read0 a) (read1 a) this = false ->
  startable (target_start (read0 a) this) = true ->
  started (process a this)
    = started this ++ [{| when := target_start (read0 a) this;
                          buffer := chunk a; node := outputNode this |}]
  /\ nextStartTime (process a this)
     = add (target_start (read0 a) this) (duration (chunk a))
  /\ playbackState (process a this) = playbackState this
  /\ bufferTime (process a this) = bufferTime this
  /\ outputNode (process a this) = outputNode this.
Proof.
  intros Henters Hno Hok. unfold process, processAudioChunks.
  rewrite Henters, decoded_unfold, Hno, Hok.
  destruct (eqb (nextStartTime this) zero); simpl; done.
Qed.

(** The time a chunk is aimed at is a positive double: a look-ahead after
    the clock read, or the time the clock is primed for. *)
Lemma target_start_positive c0 this :
  is_double (bufferTime this) = true -> ltb zero (bufferTime this) = true ->
  nonnegative c0 -> nonnegative (nextStartTime this) ->
  is_double (target_start c0 this) = true
  /\ ltb zero (target_start c0 this) = true.
Proof.
  intros Hbd Hbp [Hcd Hcn] [Hnd Hnn].
  destruct (target_start_cases c0 this) as [[_ ->]|[Hz ->]].
  - split.
    + apply add_is_double; try done. by apply positive_nonneg.
    + by apply add_positive_r.
  - split; [done|]. by apply nonzero_positive.
Qed.

(** A chunk that is started leaves the clock primed, for a time that is
    not before its own start. *)
Lemma process_stays_primed a this :
  processAudioChunks_enters this = true ->
  is_double (bufferTime this) = true -> ltb zero (bufferTime this) = true ->
  nonnegative (nextStartTime this) ->
  plausible a ->
  underrun (read0 a) (read1 a) this = false ->
  startable (target_start (read0 a) this) = true ->
  nonnegative (nextStartTime (process a this))
  /\ ltb zero (nextStartTime (process a this)) = true
  /\ leb (target_start (read0 a) this) (nextStartTime (process a this)) = true.
Proof.
  intros Henters Hbd Hbp Hn (H0 & _ & [Hdd Hdn]) Hno Hok.
  destruct (process_schedules a this Henters Hno Hok) as (_ & -> & _).
  destruct (target_start_positive (read0 a) this Hbd Hbp H0 Hn) as [Htd Htp].
  pose proof (positive_nonneg _ Htp) as Htn.
  assert (Hpos : ltb zero (add (target_start (read0 a) this) (duration (chunk a)))
                 = true) by (by apply add_positive_l).
  split_and!.
  - split; [by apply add_is_double | by apply positive_nonneg].
  - done.
  - by apply add_mono_l.
Qed.

Lemma target_start_primed c0 this :
  ltb zero (nextStartTime this) = true ->
  target_start c0 this = nextStartTime this.
Proof.
  intros Hpos. unfold target_start. by rewrite (positive_nonzero _ Hpos).
Qed.

Lemma feed_started arrivals : forall this,
  processAudioChunks_enters this = true ->
  no_underrun arrivals this = true ->
  all_startable arrivals this = true ->
  started (feed arrivals this) = started this ++ expected arrivals this.
Proof.
  induction arrivals as [|a rest IH]; intros this Henters Hno Hok; simpl.
  - by rewrite app_nil_r.
  - simpl in Hno. apply andb_true_iff in Hno as [Hfirst Hrest].
    apply negb_true_iff in Hfirst.
    simpl in Hok. apply andb_true_iff in Hok as [Hokfirst Hokrest].
    destruct (process_schedules a this Henters Hfirst Hokfirst)
      as (Hs & _ & Hp & _).
    change (fold_left (fun h a => process a h) rest (process a this))
      with (feed rest (process a this)).
    rewrite IH;
      [|unfold processAudioChunks_enters in *; by rewrite Hp|done|done].
    by rewrite Hs, <- app_assoc.
Qed.

Lemma expected_buffers arrivals this :
  map buffer (expected arrivals this) = map chunk arrivals.
Proof.
  revert this. induction arrivals as [|a rest IH]; intros this; simpl;
    [done | by rewrite IH].
Qed.

Lemma expected_back_to_back arrivals : forall this,
  processAudioChunks_enters this = true ->
  is_double (bufferTime this) = true -> ltb zero (bufferTime this) = true ->
  nonnegative (nextStartTime this) ->
  Forall plausible arrivals ->
  no_underrun arrivals this = true ->
  all_startable arrivals this = true ->
  map when (expected arrivals this)
  = match arrivals with
    | [] => []
    | a :: _ => back_to_back (target_start (read0 a) this) (map chunk arrivals)
    end.
Proof.
  induction arrivals as [|a rest IH];
    intros this Henters Hbd Hbp Hn Hpl Hno Hok; [done|].
  simpl in Hno. apply andb_true_iff in Hno as [Hfirst Hrest].
  apply negb_true_iff in Hfirst.
  simpl in Hok. apply andb_true_iff in Hok as [Hokfirst Hokrest].
  apply Forall_cons in Hpl as [Ha Hpl].
  destruct (process_schedules a this Henters Hfirst Hokfirst)
    as (_ & Hnext & Hp & Hb & _).
  destruct (process_stays_primed a this Henters Hbd Hbp Hn Ha Hfirst Hokfirst)
    as (Hn' & Hpos & _).
  simpl. f_equal. rewrite IH; try done.
  - destruct rest as [|a' rest]; [done|].
    rewrite target_start_primed by done. by rewrite Hnext.
  - unfold processAudioChunks_enters in *. by rewrite Hp.
  - by rewrite Hb.
  - by rewrite Hb.
Qed.

Lemma back_to_back_length t buffers :
  length (back_to_back t buffers) = length buffers.
Proof.
  revert t. induction buffers as [|b rest IH]; intros t; simpl; [done|].
  by rewrite IH.
Qed.

(** In a back-to-back list each start is the one before plus the duration
    of the buffer before. *)
Lemma back_to_back_consecutive buffers : forall t i s s' b,
  back_to_back t buffers !! i = Some s ->
  back_to_back t buffers !! S i = Some s' ->
  buffers !! i = Some b ->
  s' = add s (duration b).
Proof.
  induction buffers as [|b0 rest IH]; intros t i s s' b Hs Hs' Hb; [done|].
  destruct i as [|i]; simpl in *.
  - injection Hs as <-. injection Hb as <-.
    destruct rest; simpl in Hs'; [done|]. by injection Hs' as <-.
  - by eapply IH.
Qed.

Lemma expected_lookup arrivals : forall this i a,
  arrivals !! i = Some a ->
  expected arrivals this !! i
  = Some {| when := target_start (read0 a) (feed (take i arrivals) this);
            buffer := chunk a;
            node := outputNode (feed (take i arrivals) this) |}.
Proof.
  induction arrivals as [|a0 rest IH]; intros this i a Hi; [done|].
  destruct i as [|i]; simpl in *.
  - by injection Hi as <-.
  - by apply IH.
Qed.

Lemma feed_snoc arrivals a this :
  feed (arrivals ++ [a]) this = process a (feed arrivals this).
Proof. unfold feed. by rewrite fold_left_app. Qed.

(** After a prefix the scheduler still runs, still has not underrun, and
    holds the look-ahead it had and a clock that is not negative. *)
Lemma feed_prefix_invariant arrivals : forall this i,
  processAudioChunks_enters this = true ->
  is_double (bufferTime this) = true -> ltb zero (bufferTime this) = true ->
  nonnegative (nextStartTime this) ->
  Forall plausible arrivals ->
  no_underrun arrivals this = true ->
  all_startable arrivals this = true ->
  processAudioChunks_enters (feed (take i arrivals) this) = true
  /\ no_underrun (drop i arrivals) (feed (take i arrivals) this) = true
  /\ all_startable (drop i arrivals) (feed (take i arrivals) this) = true
  /\ bufferTime (feed (take i arrivals) this) = bufferTime this
  /\ nonnegative (nextStartTime (feed (take i arrivals) this)).
Proof.
  induction arrivals as [|a rest IH];
    intros this i Henters Hbd Hbp Hn Hpl Hno Hok.
  - by destruct i.
  - destruct i as [|i]; [done|].
    simpl in Hno. apply andb_true_iff in Hno as [Hfirst Hrest].
    apply negb_true_iff in Hfirst.
    simpl in Hok. apply andb_true_iff in Hok as [Hokfirst Hokrest].
    apply Forall_cons in Hpl as [Ha Hpl].
    destruct (process_schedules a this Henters Hfirst Hokfirst)
      as (_ & _ & Hp & Hb & _).
    destruct (process_stays_primed a this Henters Hbd Hbp Hn Ha Hfirst Hokfirst)
      as (Hn' & _).
    simpl. rewrite <- Hb. apply IH; try done.
    + unfold processAudioChunks_enters in *. by rewrite Hp.
    + by rewrite Hb.
    + by rewrite Hb.
Qed.

(** C2. For a sequence of chunks processed while playing, none of which
    takes the underrun branch (nor is aimed at a time that has grown to
    [Infinity], which [source.start] refuses): every chunk's buffer is
    started, in order, exactly at the [nextStartTime] current when it is
    processed, after which [nextStartTime] is that time plus the buffer's
    duration; so the start times are back to back,
    [start (i+1) = start i + duration i], and do not decrease. The sum is
    the sum of doubles the code makes, and the underrun test the
    comparison of doubles it makes. *)
Theorem chunks_start_back_to_back (arrivals : list Arrival)
    (this : LiveMusicHelper) :
  processAudioChunks_enters this = true ->
  is_double (bufferTime this) = true -> ltb zero (bufferTime this) = true ->
  nonnegative (nextStartTime this) ->
  Forall plausible arrivals ->
  no_underrun arrivals this = true ->
  all_startable arrivals this = true ->
  let starts := map when (scheduled arrivals this) in
  started (feed arrivals this) = started this ++ scheduled arrivals this
  /\ map buffer (scheduled arrivals this) = map chunk arrivals
  /\ (forall i a, arrivals !! i = Some a ->
        let before := feed (take i arrivals) this in
        let after := feed (take (S i) arrivals) this in
        starts !! i = Some (target_start (read0 a) before)
        /\ nextStartTime after
           = add (target_start (read0 a) before) (duration (chunk a)))
  /\ (forall i a s s', arrivals !! i = Some a ->
        starts !! i = Some s -> starts !! S i = Some s' ->
        s' = add s (duration (chunk a)) /\ leb s s' = true).
Proof.
  intros Henters Hbd Hbp Hn Hpl Hno Hok starts.
  pose proof (feed_started arrivals this Henters Hno Hok) as Hstarted.
  assert (Hsched : scheduled arrivals this = expected arrivals this).
  { unfold scheduled. rewrite Hstarted. by rewrite drop_app_length. }
  assert (Hat : forall i a, arrivals !! i = Some a ->
    map when (expected arrivals this) !! i
    = Some (target_start (read0 a) (feed (take i arrivals) this))).
  { intros i a Hi. by rewrite list_lookup_fmap, (expected_lookup _ _ _ _ Hi). }
  subst starts. rewrite Hsched. split_and!.
  - done.
  - apply expected_buffers.
  - intros i a Hi before after. split; [by apply Hat|].
    subst after before. rewrite (take_S_r _ _ _ Hi), feed_snoc.
    destruct (feed_prefix_invariant arrivals this i Henters Hbd Hbp Hn Hpl Hno Hok)
      as (He & Hrest & Hokrest & _).
    rewrite (drop_S _ _ _ Hi) in Hrest, Hokrest. simpl in Hrest, Hokrest.
    apply andb_true_iff in Hrest as [Hfirst _]. apply negb_true_iff in Hfirst.
    apply andb_true_iff in Hokrest as [Hokfirst _].
    by destruct (process_schedules a _ He Hfirst Hokfirst) as (_ & -> & _).
  - intros i a s s' Hi Hs Hs'.
    assert (Hsum : s' = add s (duration (chunk a))).
    { rewrite (expected_back_to_back arrivals this Henters Hbd Hbp Hn Hpl Hno Hok)
        in Hs, Hs'.
      destruct arrivals as [|a0 rest]; [done|].
      assert (Hb : map chunk (a0 :: rest) !! i = Some (chunk a))
        by (by rewrite list_lookup_fmap, Hi).
      exact (back_to_back_consecutive _ _ _ _ _ _ Hs Hs' Hb). }
    split; [done|]. subst s'.
    rewrite (Hat i a Hi) in Hs. injection Hs as <-.
    destruct (feed_prefix_invariant arrivals this i Henters Hbd Hbp Hn Hpl Hno Hok)
      as (He & Hrest & Hokrest & Hb & Hn').
    rewrite (drop_S _ _ _ Hi) in Hrest, Hokrest. simpl in Hrest, Hokrest.
    apply andb_true_iff in Hrest as [Hfirst _]. apply negb_true_iff in Hfirst.
    apply andb_true_iff in Hokrest as [Hokfirst _].
    rewrite Forall_lookup in Hpl. pose proof (Hpl i a Hi) as Ha.
    rewrite <- Hb in Hbd, Hbp.
    destruct (process_stays_primed a _ He Hbd Hbp Hn' Ha Hfirst Hokfirst)
      as (_ & _ & Hle).
    by destruct (process_schedules a _ He Hfirst Hokfirst) as (_ & <- & _).
Qed.

End SchedulerFacts.

(* ===================================================================== *)
(** * The streaming session manager *)
(* ===================================================================== *)

Section CoordinatorFacts.
Import Double LiveMusic.

Lemma raised_app this this' l :
  events this' = events this ++ l -> raised this this' = l.
Proof. intros H. unfold raised. rewrite H. by rewrite drop_app_length. Qed.

Lemma pause_effect this :
  events (pause this) = events this ++ [playback_state_changed paused]
  /\ playbackState (pause this) = paused
  /\ nextStartTime (pause this) = zero
  /\ prompts (pause this) = prompts this
  /\ filteredPrompts (pause this) = filteredPrompts this
  /\ throttled (pause this) = throttled this.
Proof. unfold pause. by destruct (session this). Qed.

Lemma stop_effect this :
  events (stop this) = events this ++ [playback_state_changed stopped]
  /\ playbackState (stop this) = stopped
  /\ nextStartTime (stop this) = zero
  /\ session (stop this) = None
  /\ sessionPromise (stop this) = None
  /\ connections (stop this) = connections this
  /\ filteredPrompts (stop this) = filteredPrompts this.
Proof. unfold stop. by destruct (session this). Qed.

(** The body stores the map it is given, whatever comes after. *)
Lemma body_stores_prompts prompts this :
  LiveMusic.prompts (setWeightedPrompts_body prompts this).2 = prompts.
Proof.
  unfold setWeightedPrompts_body.
  destruct (activePrompts (set_prompts prompts this)) as [[|p active]|];
    unfold pause; simpl; by destruct (session this).
Qed.

(** The body on a map without an active prompt. *)
Lemma body_without_active_prompt prompts this :
  activePrompts (set_prompts prompts this) = Some [] ->
  setWeightedPrompts_body prompts this
  = (Fulfilled,
     pause (dispatchEvent (error "There needs to be one active prompt to play.")
                          (set_prompts prompts this))).
Proof. unfold setWeightedPrompts_body. by intros ->. Qed.

Lemma set_throttled_same this : set_throttled (throttled this) this = this.
Proof. by destruct this. Qed.

(** A call the rate limiter lets through runs the body. *)
Lemma setWeightedPrompts_let_through prompts now this :
  Throttle.fresh 200 (throttled this) now = true ->
  setWeightedPrompts prompts now this
  = (Some (setWeightedPrompts_body prompts this).1,
     set_throttled
       {| Throttle.lastCall := Throttle.Finite now;
          Throttle.lastResult := Some (setWeightedPrompts_body prompts this).1 |}
       (setWeightedPrompts_body prompts this).2).
Proof.
  intros Hfresh. unfold setWeightedPrompts.
  by rewrite (invoke_fresh setWeightedPrompts_body 200 _ _ _ _ Hfresh).
Qed.

(** A call inside the window is dropped: nothing runs, nothing changes. *)
Lemma setWeightedPrompts_dropped prompts now this :
  Throttle.fresh 200 (throttled this) now = false ->
  setWeightedPrompts prompts now this
  = (Throttle.lastResult (throttled this), this).
Proof.
  intros Hstale. unfold setWeightedPrompts.
  rewrite (invoke_stale setWeightedPrompts_body 200 _ _ _ _ Hstale).
  by rewrite set_throttled_same.
Qed.

(** What a call that is let through does with a map that has no active
    prompt. *)
Lemma let_through_without_active_prompt prompts now this :
  Throttle.fresh 200 (throttled this) now = true ->
  activePrompts (set_prompts prompts this) = Some [] ->
  let this' := (setWeightedPrompts prompts now this).2 in
  events this'
  = events this ++ [error "There needs to be one active prompt to play.";
                    playback_state_changed paused]
  /\ playbackState this' = paused
  /\ LiveMusic.prompts this' = prompts.
Proof.
  intros Hfresh Hsilent this'. subst this'.
  rewrite setWeightedPrompts_let_through by done.
  rewrite body_without_active_prompt by done. unfold pause. simpl.
  destruct (session this); simpl; by rewrite <- app_assoc.
Qed.

(** C4, as the code has it. A call of [setWeightedPrompts] that the rate
    limiter lets through, with a prompt set that has no active prompt,
    raises an ['error'] event and forces the playback state to [paused],
    with or without a session; a call inside the 200 ms window is dropped
    and raises nothing. *)
Theorem silent_set_pauses_when_let_through (prompts : Js.Map) (now : Z)
    (this : LiveMusicHelper) :
  activePrompts (set_prompts prompts this) = Some [] ->
  let this' := (setWeightedPrompts prompts now this).2 in
  if Throttle.fresh 200 (throttled this) now then
    raised this this'
    = [error "There needs to be one active prompt to play.";
       playback_state_changed paused]
    /\ playbackState this' = paused
  else this' = this.
Proof.
  intros Hsilent this'. subst this'.
  destruct (Throttle.fresh 200 (throttled this) now) eqn:Hfresh.
  - destruct (let_through_without_active_prompt prompts now this Hfresh Hsilent)
      as (He & Hp & _).
    split; [by apply raised_app | done].
  - by rewrite setWeightedPrompts_dropped.
Qed.

(** The events the body raises: the error and the pause on a map without
    active prompt, none otherwise. *)
Lemma body_events prompts this :
  events (setWeightedPrompts_body prompts this).2
  = events this
    ++ match activePrompts (set_prompts prompts this) with
       | Some [] => [error "There needs to be one active prompt to play.";
                     playback_state_changed paused]
       | _ => []
       end.
Proof.
  unfold setWeightedPrompts_body.
  destruct (activePrompts (set_prompts prompts this)) as [[|p active]|];
    unfold pause; simpl; destruct (session this); simpl;
    by rewrite <- ?app_assoc, ?app_nil_r.
Qed.

Lemma raised_nothing this : raised this this = [].
Proof. unfold raised. apply drop_all. Qed.

(** What a call that is let through raises: the error and the pause when
    the incoming map has no active prompt, nothing otherwise. *)
Lemma let_through_raises prompts now this :
  Throttle.fresh 200 (throttled this) now = true ->
  raised this (setWeightedPrompts prompts now this).2
  = match activePrompts (set_prompts prompts this) with
    | Some [] => [error "There needs to be one active prompt to play.";
                  playback_state_changed paused]
    | _ => []
    end.
Proof.
  intros Hfresh. rewrite setWeightedPrompts_let_through by done.
  apply raised_app. cbn [snd].
  change (events (set_throttled ?c ?h)) with (events h).
  apply body_events.
Qed.

(** A call that is let through stores the incoming map. *)
Lemma let_through_stores_prompts prompts now this :
  Throttle.fresh 200 (throttled this) now = true ->
  LiveMusic.prompts (setWeightedPrompts prompts now this).2 = prompts.
Proof.
  intros Hfresh. rewrite setWeightedPrompts_let_through by done. cbn [snd].
  change (LiveMusic.prompts (set_throttled ?c ?h)) with (LiveMusic.prompts h).
  apply body_stores_prompts.
Qed.

(** C10. [setWeightedPrompts] stores the incoming map before it looks for
    active prompts. Every call the rate limiter lets through leaves the
    incoming map in [prompts], whatever was stored before and whatever the
    check finds; the check is made on the incoming map: the error is
    raised exactly when the incoming map has no prompt that is active for
    the helper, and then the helper is paused while the incoming map stays
    stored. A call the rate limiter drops stores nothing. *)
Theorem prompts_replaced_on_error_path (prompts : Js.Map) (now : Z)
    (this : LiveMusicHelper) :
  let this' := (setWeightedPrompts prompts now this).2 in
  if Throttle.fresh 200 (throttled this) now then
    LiveMusic.prompts this' = prompts
    /\ (error "There needs to be one active prompt to play." ∈ raised this this'
        <-> activePrompts (set_prompts prompts this) = Some [])
    /\ (activePrompts (set_prompts prompts this) = Some [] ->
        raised this this'
        = [error "There needs to be one active prompt to play.";
           playback_state_changed paused]
        /\ playbackState this' = paused)
  else this' = this.
Proof.
  intros this'. subst this'.
  destruct (Throttle.fresh 200 (throttled this) now) eqn:Hfresh;
    [|by rewrite setWeightedPrompts_dropped].
  pose proof (let_through_raises prompts now this Hfresh) as Hraised.
  split_and!.
  - by apply let_through_stores_prompts.
  - rewrite Hraised.
    destruct (activePrompts (set_prompts prompts this)) as [[|p active]|].
    + split; [done|]. intros _. apply list_elem_of_here.
    + split; [|done]. intros Hin. by apply not_elem_of_nil in Hin.
    + split; [|done]. intros Hin. by apply not_elem_of_nil in Hin.
  - intros Hsilent. rewrite Hraised, Hsilent. split; [done|].
    by destruct (let_through_without_active_prompt prompts now this Hfresh Hsilent)
      as (_ & Hp & _).
Qed.

Lemma setWeightedPrompts_unfold prompts now this :
  setWeightedPrompts prompts now this
  = if Throttle.fresh 200 (throttled this) now then
      (Some (setWeightedPrompts_body prompts this).1,
       set_throttled
         {| Throttle.lastCall := Throttle.Finite now;
            Throttle.lastResult := Some (setWeightedPrompts_body prompts this).1 |}
         (setWeightedPrompts_body prompts this).2)
    else (Throttle.lastResult (throttled this), this).
Proof.
  destruct (Throttle.fresh 200 (throttled this) now) eqn:Hfresh.
  - by apply setWeightedPrompts_let_through.
  - by apply setWeightedPrompts_dropped.
Qed.

(** Unfolds a turn down to the record it builds. *)
Ltac open_turn :=
  unfold turn, onmessage, onerror, onclose, timeout_fires, playPause,
    play_begin, play_connected, play_resume;
  rewrite ?setWeightedPrompts_unfold;
  unfold setWeightedPrompts_body, setWeightedPrompts_catch, getSession,
    connect, pause, stop, processAudioChunks, processAudioChunks_decoded,
    setPlaybackState;
  simpl.

Ltac split_cases :=
  repeat match goal with
         | |- context [match ?x with _ => _ end] => destruct x eqn:?; simpl
         end.

(** A turn adds the text of a filtered-prompt notice to the filtered
    texts and does nothing else to them. *)
Lemma turn_filteredPrompts t this :
  filteredPrompts (turn t this) = filteredPrompts this ∪ filtered_by t.
Proof.
  destruct t; open_turn; split_cases; simplify_eq; simpl;
    by rewrite ?(right_id_L ∅ (∪)).
Qed.

Lemma turns_filteredPrompts ts : forall this,
  filteredPrompts this ⊆ filteredPrompts (turns ts this).
Proof.
  induction ts as [|t ts IH]; intros this; simpl; [done|].
  etrans; [|apply IH]. rewrite turn_filteredPrompts. set_solver.
Qed.

(** What a turn does to the session handles. *)
Lemma turn_session t this :
  session (turn t this)
  = match t with
    | on_error | on_close | do_stop => None
    | do_play_connected s _ => Some s
    | do_playPause =>
        match playbackState this with
        | loading => None
        | _ => session this
        end
    | _ => session this
    end.
Proof. destruct t; open_turn; split_cases; simplify_eq; done. Qed.

Lemma setWeightedPrompts_session prompts now this :
  session (setWeightedPrompts prompts now this).2 = session this.
Proof.
  pose proof (turn_session (do_setWeightedPrompts prompts now) this) as H.
  unfold turn in H. exact H.
Qed.

Lemma play_connected_session s now this :
  session (play_connected s now this).2 = Some s.
Proof. unfold play_connected. by rewrite setWeightedPrompts_session. Qed.

Lemma play_connected_filteredPrompts s now this :
  filteredPrompts (play_connected s now this).2 = filteredPrompts this.
Proof.
  pose proof (turn_filteredPrompts (do_play_connected s now) this) as H.
  unfold turn, filtered_by in H. by rewrite (right_id_L ∅ (∪)) in H.
Qed.

Lemma play_begin_filteredPrompts this :
  filteredPrompts (play_begin this).2 = filteredPrompts this.
Proof.
  pose proof (turn_filteredPrompts do_play_begin this) as H.
  unfold turn, filtered_by in H. by rewrite (right_id_L ∅ (∪)) in H.
Qed.

(** After [stop()], [play()] up to its first [await] has called
    [ai.live.music.connect] and waits for the session it creates. *)
Lemma play_begin_after_stop this :
  (play_begin (stop this)).1 = connections this
  /\ connections (play_begin (stop this)).2 = S (connections this)
  /\ sessionPromise (play_begin (stop this)).2 = Some (connections this)
  /\ playbackState (play_begin (stop this)).2 = loading.
Proof.
  unfold play_begin, getSession, connect, stop, setPlaybackState.
  by destruct (session this).
Qed.

(** C6. [stop()] called while the playback state is [loading], as
    [playPause()] does in that state, discards the session handle and the
    cached session promise, resets the clock to unprimed and leaves the
    state [stopped]; a [play()] after it calls [ai.live.music.connect]
    again and ends up with the session that call creates, not with a
    handle held before. *)
Theorem stop_while_loading_discards_session (this : LiveMusicHelper) :
  playbackState this = loading ->
  handles_known this ->
  playPause this = stop this
  /\ session (stop this) = None
  /\ sessionPromise (stop this) = None
  /\ nextStartTime (stop this) = zero
  /\ playbackState (stop this) = stopped
  /\ let awaited := (play_begin (stop this)).1 in
     let this' := (play_begin (stop this)).2 in
     connections this' = S (connections this)
     /\ awaited = connections this
     /\ sessionPromise this' = Some awaited
     /\ session this <> Some awaited
     /\ sessionPromise this <> Some awaited
     /\ playbackState this' = loading
     /\ playPause (stop this) = this'
     /\ forall now, session (play_connected awaited now this').2 = Some awaited.
Proof.
  intros Hloading [Hs Hp].
  destruct (stop_effect this) as (_ & Hstate & Hnext & Hsess & Hprom & _).
  destruct (play_begin_after_stop this) as (Hawaited & Hconn & Hpromise & Hload).
  split_and!.
  - unfold playPause. by rewrite Hloading.
  - exact Hsess.
  - exact Hprom.
  - exact Hnext.
  - exact Hstate.
  - intros awaited this'. subst awaited this'. rewrite Hawaited. split_and!.
    + exact Hconn.
    + reflexivity.
    + exact Hpromise.
    + intros Heq. apply Hs in Heq. lia.
    + intros Heq. apply Hp in Heq. lia.
    + exact Hload.
    + unfold playPause. by rewrite Hstate.
    + intros now. apply play_connected_session.
Qed.

Lemma turn_sessionPromise t this :
  sessionPromise (turn t this)
  = match t with
    | on_error | on_close | do_stop => None
    | do_play_begin => Some (default (connections this) (sessionPromise this))
    | do_playPause =>
        match playbackState this with
        | loading => None
        | playing => sessionPromise this
        | _ => Some (default (connections this) (sessionPromise this))
        end
    | _ => sessionPromise this
    end.
Proof. destruct t; open_turn; split_cases; simplify_eq; done. Qed.

Lemma turn_connections t this :
  (connections this <= connections (turn t this))%nat
  /\ (sessionPromise this = None ->
      t = do_play_begin
      \/ (t = do_playPause
          /\ (playbackState this = paused \/ playbackState this = stopped)) ->
      connections (turn t this) = S (connections this)).
Proof.
  destruct t; open_turn; split_cases; simplify_eq; simpl;
    (split; [lia | intros ? [?|[? [?|?]]]; simplify_eq; done]).
Qed.

(** The helper only holds sessions that [connect] has created, as long
    as the sessions its promises resolve with are such. *)
Lemma turn_handles_known t this :
  handles_known this ->
  (forall s now, t = do_play_connected s now -> (s < connections this)%nat) ->
  handles_known (turn t this).
Proof.
  intros [Hs Hp] Hresolved.
  destruct (turn_connections t this) as [Hle Hnew].
  split; intros s Heq.
  - rewrite turn_session in Heq.
    destruct t; simplify_eq; try (apply Hs in Heq; lia).
    + specialize (Hresolved s now eq_refl). lia.
    + destruct (playbackState this); simplify_eq; apply Hs in Heq; lia.
  - rewrite turn_sessionPromise in Heq.
    assert (Hdefault :
      Some (default (connections this) (sessionPromise this)) = Some s ->
      (t = do_play_begin
       \/ (t = do_playPause
           /\ (playbackState this = paused \/ playbackState this = stopped))) ->
      (s < connections (turn t this))%nat).
    { intros Hd Ht. destruct (sessionPromise this) as [p|] eqn:Hsp; simpl in Hd.
      - injection Hd as <-. specialize (Hp p eq_refl). lia.
      - injection Hd as <-. rewrite Hnew; [lia|done|done]. }
    destruct t; simplify_eq; try (apply Hp in Heq; lia).
    + apply Hdefault; auto.
    + destruct (playbackState this) eqn:Hst; simplify_eq.
      * apply Hdefault; auto.
      * apply Hp in Heq; lia.
      * apply Hdefault; auto.
Qed.

(** C5, as the code has it. The filtered texts never shrink while the
    helper lives: a turn adds the text of a filtered-prompt notice and
    nothing else touches them; [stop()] and the connection of a new
    session leave them as they are, so a new session starts with the
    texts filtered so far. *)
Theorem filtered_texts_only_grow (ts : list Turn) (this : LiveMusicHelper) :
  filteredPrompts this ⊆ filteredPrompts (turns ts this)
  /\ (forall t, filteredPrompts (turn t this)
                = filteredPrompts this ∪ filtered_by t)
  /\ filteredPrompts (stop this) = filteredPrompts this
  /\ forall now,
       let awaited := (play_begin (stop this)).1 in
       let this' := (play_begin (stop this)).2 in
       session (play_connected awaited now this').2 = Some awaited
       /\ filteredPrompts (play_connected awaited now this').2
          = filteredPrompts this.
Proof.
  split_and!.
  - apply turns_filteredPrompts.
  - intros t. apply turn_filteredPrompts.
  - apply stop_effect.
  - intros now awaited this'. subst awaited this'. split.
    + apply play_connected_session.
    + rewrite play_connected_filteredPrompts, play_begin_filteredPrompts.
      apply stop_effect.
Qed.

End CoordinatorFacts.

(* ===================================================================== *)
(** * Saving and loading prompt sets *)
(* ===================================================================== *)

Section SetFileFacts.
Import Double Js PromptDj.

Lemma same_string_key a b :
  same_value_zero (JString a) (JString b) = false <-> a <> b.
Proof.
  simpl. destruct (String.eqb_spec a b); split; congruence.
Qed.

(** Setting a key no entry has appends the entry. *)
Lemma Map_set_new k v (m : Map) :
  Forall (fun entry => same_value_zero entry.1 k = false) m ->
  Map_set k v m = m ++ [(k, v)].
Proof.
  induction 1 as [|[k' v'] m Hk Hm IH]; simpl; [done|].
  simpl in Hk. by rewrite Hk, IH.
Qed.

Lemma prompt_entry_key entry :
  prompt_entry entry ->
  exists promptId, promptId <> ""%string /\ entry.1 = JString promptId
                   /\ prop "promptId" entry.2 = Some (JString promptId).
Proof. intros (promptId & text & ? & ? & ? & ? & ?). eauto. Qed.

(** A prompt entry passes the check of [handleLoadSet]. *)
Lemma prompt_entry_valid entry :
  prompt_entry entry -> invalid_entry entry.2 = Some false.
Proof.
  intros (promptId & text & Hid & Htext & _ & Hp & Ht).
  unfold invalid_entry. destruct entry.2 eqn:Hv; try done.
  rewrite Hp, Ht. simpl.
  destruct (String.eqb_spec promptId ""), (String.eqb_spec text ""); done.
Qed.

Lemma prompt_set_valid (m : Map) :
  Forall prompt_entry m -> some invalid_entry (Map_values m) = Some false.
Proof.
  induction 1 as [|entry m He Hm IH]; simpl; [done|].
  by rewrite (prompt_entry_valid _ He).
Qed.

(** Setting the values of a prompt set one by one, under their
    [promptId], rebuilds it entry by entry. *)
Lemma set_each_rebuilds (m : Map) : forall built : Map,
  NoDup (map fst (built ++ m)) ->
  Forall prompt_entry built ->
  Forall prompt_entry m ->
  set_each (Map_values m) built = built ++ m.
Proof.
  induction m as [|[k p] m IH]; intros built Hnodup Hdone Hm; simpl.
  - by rewrite app_nil_r.
  - apply Forall_cons in Hm as [Hentry Hm].
    destruct (prompt_entry_key _ Hentry) as (promptId & _ & Hk & Hp).
    simpl in Hk, Hp. subst k. rewrite Hp.
    rewrite Map_set_new.
    + change (fold_left _ (map snd m) ?d) with (set_each (Map_values m) d).
      rewrite IH.
      * by rewrite <- app_assoc.
      * by rewrite <- app_assoc.
      * apply Forall_app. split; [done|]. by apply Forall_singleton.
      * done.
    + rewrite map_app in Hnodup. simpl in Hnodup.
      apply NoDup_app in Hnodup as (_ & Hfresh & _).
      rewrite Forall_forall. intros [k' v'] Hin.
      rewrite Forall_forall in Hdone.
      destruct (prompt_entry_key _ (Hdone _ Hin)) as (other & _ & Hk' & _).
      simpl in Hk' |- *. subst k'. apply same_string_key. intros ->.
      apply (Hfresh (JString promptId)).
      * apply list_elem_of_fmap. by exists (JString promptId, v').
      * set_solver.
Qed.

(** An entry that lacks [promptId] or [text] fails the check. *)
Lemma lacking_invalid p : lacking p -> invalid_entry p <> Some false.
Proof.
  unfold lacking, invalid_entry. intros [H|H]; destruct p; try done;
    rewrite H; simpl; try done; by rewrite orb_true_r.
Qed.

Lemma some_lacking entries p :
  p ∈ entries -> lacking p -> some invalid_entry entries <> Some false.
Proof.
  intros Hin Hlack. induction entries as [|q entries IH]; [by apply not_elem_of_nil in Hin|].
  simpl. apply elem_of_cons in Hin as [<-|Hin].
  - pose proof (lacking_invalid p Hlack).
    by destruct (invalid_entry p) as [[|]|].
  - destruct (invalid_entry q) as [[|]|]; [done| |done]. by apply IH.
Qed.

(** Reading a property of an object that has been through JSON. *)
Lemma assoc_parse_stringify name (ps : list (string * value)) :
  assoc name (map (fun p => (p.1, parse_stringify p.2)) ps)
  = parse_stringify <$> assoc name ps.
Proof.
  induction ps as [|[n v] ps IH]; simpl; [done|].
  by destruct (String.eqb n name).
Qed.

(** A string property survives JSON. *)
Lemma prop_parse_stringify name v s :
  prop name v = Some (JString s) ->
  prop name (parse_stringify v) = Some (JString s).
Proof.
  destruct v as [| | x| | |ps]; simpl; try done.
  intros H. by rewrite assoc_parse_stringify, H.
Qed.

Lemma prompt_entry_parse_stringify entry :
  prompt_entry entry -> prompt_entry (entry.1, parse_stringify entry.2).
Proof.
  intros (promptId & text & Hid & Htext & Hk & Hp & Ht).
  exists promptId, text. split_and!; try done; by apply prop_parse_stringify.
Qed.

(** A value whose Numbers are finite and not negative zero survives
    JSON as it is. *)
Lemma parse_stringify_plain : forall v, plain v = true -> parse_stringify v = v.
Proof.
  fix IH 1. intros [| b| x| s| elements| properties] Hplain; simpl in *;
    try done.
  - apply andb_true_iff in Hplain as [-> Hzero].
    by destruct x as [[|]|[|]| |[|] m e].
  - f_equal. induction elements as [|v elements IHelements]; [done|].
    simpl in *. apply andb_true_iff in Hplain as [Hv Hrest].
    f_equal; [by apply IH | by apply IHelements].
  - f_equal. induction properties as [|[n v] properties IHproperties]; [done|].
    simpl in *. apply andb_true_iff in Hplain as [Hv Hrest].
    f_equal; [f_equal; by apply IH | by apply IHproperties].
Qed.

Lemma map_parse_stringify_plain (values : list value) :
  Forall (fun v => plain v = true) values ->
  map parse_stringify values = values.
Proof.
  induction 1 as [|v values Hv Hvalues IH]; simpl; [done|].
  by rewrite parse_stringify_plain, IH.
Qed.

Lemma through_JSON_plain (m : Map) :
  Forall (fun p => plain p = true) (Map_values m) -> through_JSON m = m.
Proof.
  unfold through_JSON, Map_values. rewrite Forall_fmap.
  induction 1 as [|[k v] m Hv Hm IH]; simpl in *; [done|].
  by rewrite (parse_stringify_plain v Hv), IH.
Qed.

(** C8, as the code has it. A prompt set whose entries all have a
    non-empty [promptId] and a non-empty [text], saved by [handleSaveSet]
    and loaded again by [handleLoadSet], comes back with every prompt as
    JSON gives it back: the same map when every Number in it is finite and
    not negative zero, and otherwise with [null] where a Number was not
    finite; a set file with an entry that lacks [promptId] or [text] is
    rejected as a whole, with an error event, and the prompt map stays
    what it was. *)
Theorem set_file_round_trip :
  (forall this other : PromptDjMidi,
      prompt_set (prompts this) ->
      let loaded := handleLoadSet (Some (loads (saved_file this))) other in
      prompts loaded = through_JSON (prompts this)
      /\ events loaded
         = events other ++ [prompts_changed (through_JSON (prompts this));
                            info "Set loaded successfully!"]
      /\ (Forall (fun p => plain p = true) (Map_values (prompts this)) ->
          prompts loaded = prompts this
          /\ events loaded
             = events other ++ [prompts_changed (prompts this);
                                info "Set loaded successfully!"]))
  /\ (forall (this : PromptDjMidi) (entries : list value) (p : value),
        p ∈ entries -> lacking p ->
        let loaded := handleLoadSet (Some (loads (json (JArray entries)))) this in
        prompts loaded = prompts this
        /\ exists message, events loaded = events this ++ [error message]).
Proof.
  split.
  - intros this other [Hnodup Hentries] loaded.
    assert (Hset : prompt_set (through_JSON (prompts this))).
    { split.
      - unfold through_JSON. rewrite map_map. simpl. exact Hnodup.
      - unfold through_JSON. apply Forall_fmap.
        eapply Forall_impl; [exact Hentries|].
        intros entry. apply prompt_entry_parse_stringify. }
    assert (Hvalues : map parse_stringify (Map_values (prompts this))
                      = Map_values (through_JSON (prompts this))).
    { unfold Map_values, through_JSON. by rewrite !map_map. }
    assert (Hloaded : prompts loaded = through_JSON (prompts this)
      /\ events loaded
         = events other ++ [prompts_changed (through_JSON (prompts this));
                            info "Set loaded successfully!"]).
    { subst loaded.
      unfold handleLoadSet, onload, onload_try, saved_file, handleSaveSet.
      cbn [parse_stringify]. rewrite Hvalues.
      destruct Hset as [Hnodup' Hentries'].
      rewrite (prompt_set_valid _ Hentries').
      rewrite (set_each_rebuilds _ [] Hnodup' (Forall_nil_2 _) Hentries').
      simpl. by rewrite <- app_assoc. }
    destruct Hloaded as [Hprompts Hevents]. split_and!; [done|done|].
    intros Hplain.
    by rewrite Hprompts, Hevents, (through_JSON_plain _ Hplain).
  - intros this entries p Hin Hlack loaded. subst loaded.
    unfold handleLoadSet, onload, onload_try.
    pose proof (some_lacking entries p Hin Hlack) as Hsome.
    destruct (some invalid_entry entries) as [[|]|]; [|done|]; simpl; eauto.
Qed.

End SetFileFacts.

(* ===================================================================== *)
(** * Worked scenarios *)
(* ===================================================================== *)

Section Scenarios.
Import Double Js LiveMusic.

(** Four invocations of a wrapper with a delay of 200 ms around a
    function that numbers its calls: the first and the third run. *)
Example throttle_burst :
  let counting := fun (args : string) (calls : nat) => ((args, calls), S calls) in
  let '(record, _, calls) :=
    Throttle.run counting 200 Throttle.throttle 0%nat
      [(1000, "a"); (1100, "b"); (1200, "c"); (1250, "d")]%string in
  map Throttle.e_returned record
  = [Some ("a", 0%nat); Some ("a", 0%nat); Some ("c", 1%nat); Some ("c", 1%nat)]%string
  /\ map Throttle.e_ran record = [true; false; true; false]
  /\ calls = 2%nat.
Proof. vm_compute. done. Qed.

(** A Control Change on channel 3 from the active input, the same from
    another input, and a Note On from the active input. *)
Example midi_messages :
  let bridge := {| Midi.access := false; Midi.activeMidiInputId := Some "in-1"%string |} in
  let active := {| Midi.id := "in-1"; Midi.name := "Keys" |}%string in
  let other := {| Midi.id := "in-2"; Midi.name := "Pads" |}%string in
  Midi.onmidimessage bridge active {| Midi.data := Some [xb3; x07; x64]%byte |}
  = [Midi.cc_message {| Midi.cc := Some x07; Midi.value := Some x64;
                        Midi.channel := 3 |}]%byte
  /\ Midi.onmidimessage bridge other {| Midi.data := Some [xb3; x07; x64]%byte |} = []
  /\ Midi.onmidimessage bridge active {| Midi.data := Some [x93; x3c; x7f]%byte |} = [].
Proof. vm_compute. done. Qed.

(** Three chunks of two seconds fed to a helper that waits for its first
    chunk at second 10 are started at seconds 12, 14 and 16. *)
Example three_chunks :
  map when (scheduled sample_arrivals buffering_helper)
  = [of_Z 12; of_Z 14; of_Z 16]
  /\ nextStartTime (feed sample_arrivals buffering_helper) = of_Z 18
  /\ timeouts (feed sample_arrivals buffering_helper) = [of_Z 2000].
Proof. vm_compute. done. Qed.

(** A chunk that arrives at second 7 for a clock primed for second 5. *)
Example late_chunk :
  let this' := processAudioChunks [two_seconds] (of_Z 7) (of_Z 7) late_helper in
  playbackState this' = loading /\ nextStartTime this' = zero
  /\ started this' = [].
Proof. vm_compute. done. Qed.

(** Ten chunks of a tenth of a second for a clock primed at 0.1: the
    sums of doubles stay below 1, so the chunk that arrives when the clock
    reads 1 finds the clock behind and is not started. *)
Example rounding_underrun :
  let this' := feed ten_tenths early_helper in
  no_underrun ten_tenths early_helper = false
  /\ playbackState this' = loading
  /\ length (started this') = 9%nat
  /\ ltb (nextStartTime (feed (take 9 ten_tenths) early_helper)) (of_Z 1) = true.
Proof. vm_compute. done. Qed.

(** After a buffer of duration [Infinity] the clock stands at [Infinity]:
    the next chunk is not late, [source.start] refuses its time, and
    nothing more is started. *)
Example start_refuses_infinity :
  let this' := feed endless_arrivals buffering_helper in
  map when (started this') = [of_Z 12]
  /\ nextStartTime this' = Infinity
  /\ no_underrun endless_arrivals buffering_helper = true
  /\ all_startable endless_arrivals buffering_helper = false.
Proof. vm_compute. done. Qed.

(** A first chunk at 0.1 whose second clock read is the sum of doubles
    0.1 + 2: the chunk is not late and is started at that time. *)
Example start_at_the_clock :
  let this' :=
    processAudioChunks [two_seconds] tenth (add tenth (of_Z 2))
      (set_playbackState playing constructor) in
  underrun tenth (add tenth (of_Z 2)) (set_playbackState playing constructor)
  = false
  /\ map when (started this') = [add tenth (of_Z 2)].
Proof. vm_compute. done. Qed.

(** The [play()] of the sample helper, once connected, awaits the
    promise of the prompts it has sent to its session. *)
Example play_awaits_the_session :
  (play_connected 0 1000 connecting_helper).1 = Some (AwaitingSession 0).
Proof. vm_compute. done. Qed.

(** A prompt map that holds [null] makes the getter of the active prompts
    throw: the promise [play()] awaits is rejected, and [play()] ends
    without telling the session to play. *)
Example play_ends_on_rejection :
  let broken : Map := [(JString "prompt-0", JNull)] in
  let this := set_prompts broken (snd (play_begin constructor)) in
  let awaited := (play_connected 0 1000 this).1 in
  let connected := (play_connected 0 1000 this).2 in
  awaited = Some Rejected
  /\ play_resume awaited connected = connected
  /\ sent (play_resume awaited connected) = [].
Proof. vm_compute. done. Qed.

(** The session connected after a stop is sent the prompts without the
    text the backend filtered in the session before. *)
Example second_session_prompts :
  last (sent reconnected_helper)
  = Some (1%nat,
          call_setWeightedPrompts
            [(sample_prompt "prompt-0" "Bossa Nova" "#9900ff" 0 (of_Z 1)).2]).
Proof. vm_compute. done. Qed.

(** A set without active prompt given to a helper that plays two prompts:
    the error is raised, the helper is paused, and the new set has taken
    the place of the old one. *)
Example silent_set_is_stored :
  let this' :=
    (setWeightedPrompts (sample_prompts zero zero) 5000 filtering_helper).2 in
  prompts filtering_helper = sample_prompts (of_Z 1) (of_Z 1)
  /\ prompts this' = sample_prompts zero zero
  /\ raised filtering_helper this'
     = [error "There needs to be one active prompt to play.";
        playback_state_changed paused]
  /\ playbackState this' = paused.
Proof. vm_compute. done. Qed.

(** A set file with an entry that has no [text], and one of two entries
    with the same [promptId]: the later entry takes the place of the
    earlier. *)
Example set_files :
  PromptDj.handleLoadSet
    (Some (PromptDj.loads (PromptDj.json (JArray [PromptDj.nameless_entry]))))
    PromptDj.sample_component
  = {| PromptDj.prompts := sample_prompts (of_Z 1) half;
       PromptDj.events := [PromptDj.error "Error loading set: Invalid set file format."] |}
  /\ PromptDj.prompts
       (PromptDj.handleLoadSet
          (Some (PromptDj.loads (PromptDj.json
                   (JArray [(sample_prompt "prompt-0" "Funk" "#2af6de" 5 (of_Z 1)).2;
                            (sample_prompt "prompt-0" "Thrash" "#d9b2ff" 15 zero).2]))))
          PromptDj.sample_component)
     = [sample_prompt "prompt-0" "Thrash" "#d9b2ff" 15 zero].
Proof. vm_compute. done. Qed.

(** C4, the claim as written, fails: a call of [setWeightedPrompts] with
    a set without active prompt, made 100 ms after a call that ran, raises
    no event and leaves the playback state [stopped]. *)
Lemma dropped_call_raises_nothing :
  let this :=
    (setWeightedPrompts (sample_prompts (of_Z 1) (of_Z 1)) 1000 constructor).2 in
  let this' := (setWeightedPrompts (sample_prompts zero zero) 1100 this).2 in
  activePrompts (set_prompts (sample_prompts zero zero) this) = Some []
  /\ raised this this' = []
  /\ playbackState this' = stopped
  /\ ~ (exists detail, error detail ∈ raised this this').
Proof.
  split_and!.
  - vm_compute. reflexivity.
  - vm_compute. reflexivity.
  - vm_compute. reflexivity.
  - intros [detail Hin]. vm_compute in Hin. by apply not_elem_of_nil in Hin.
Qed.

(** C5, the claim as written, fails: after a stop and a new connection
    the helper holds session 1 in place of session 0, and the text
    filtered during session 0 is still in the filtered texts. *)
Lemma reconnect_keeps_filtered_texts :
  session filtering_helper = Some 0%nat
  /\ session reconnected_helper = Some 1%nat
  /\ "Dubstep"%string ∈ filteredPrompts reconnected_helper
  /\ filteredPrompts reconnected_helper <> ∅.
Proof.
  assert (Hin : "Dubstep"%string ∈ filteredPrompts reconnected_helper).
  { refine (bool_decide_unpack
              ("Dubstep"%string ∈ filteredPrompts reconnected_helper) _).
    by vm_compute. }
  split_and!.
  - vm_compute. reflexivity.
  - vm_compute. reflexivity.
  - exact Hin.
  - intros Hempty.
    apply (not_elem_of_empty (C:=gset string) "Dubstep"%string).
    rewrite <- Hempty. exact Hin.
Qed.

(** C8, the claim as written, fails: a prompt set whose entries all have
    a non-empty [promptId] and a non-empty [text], one of them with the
    weight [Infinity], is saved and loaded without an error, and comes
    back with the weight [null] in place of [Infinity]. *)
Lemma infinite_weight_is_lost :
  let this := PromptDj.loud_component in
  let loaded :=
    PromptDj.handleLoadSet (Some (PromptDj.loads (PromptDj.saved_file this)))
      PromptDj.other_component in
  PromptDj.prompt_set (PromptDj.prompts this)
  /\ PromptDj.prompts loaded <> PromptDj.prompts this
  /\ prop "weight" <$> Map_get (JString "prompt-11") (PromptDj.prompts this)
     = Some (Some (JNumber Infinity))
  /\ prop "weight" <$> Map_get (JString "prompt-11") (PromptDj.prompts loaded)
     = Some (Some JNull)
  /\ PromptDj.events loaded
     = [PromptDj.prompts_changed (PromptDj.prompts loaded);
        PromptDj.info "Set loaded successfully!"].
Proof.
  split_and!.
  - split.
    + apply NoDup_cons. split; [|apply NoDup_singleton].
      rewrite list_elem_of_singleton. discriminate.
    + repeat constructor.
      * by exists "prompt-0"%string, "Bossa Nova"%string.
      * by exists "prompt-11"%string, "Dubstep"%string.
  - vm_compute. discriminate.
  - vm_compute. reflexivity.
  - vm_compute. reflexivity.
  - vm_compute. reflexivity.
Qed.

(** ** The theorems at work *)

Lemma underrun_switches_to_loading_witness :
  playbackState
    (processAudioChunks [two_seconds] (of_Z 7) (of_Z 7) late_helper)
  = loading.
Proof.
  exact (proj1 (underrun_switches_to_loading two_seconds [] (of_Z 7) (of_Z 7)
                  late_helper eq_refl eq_refl)).
Defined.

Lemma sample_arrivals_plausible : Forall plausible sample_arrivals.
Proof. repeat constructor. Defined.

Lemma chunks_start_back_to_back_witness :
  of_Z 14 = add (of_Z 12) (duration two_seconds)
  /\ leb (of_Z 12) (of_Z 14) = true.
Proof.
  exact (proj2 (proj2 (proj2
           (chunks_start_back_to_back sample_arrivals buffering_helper
              eq_refl eq_refl eq_refl (conj eq_refl eq_refl)
              sample_arrivals_plausible eq_refl eq_refl)))
           0%nat
           {| chunk := two_seconds; read0 := of_Z 10; read1 := of_Z 10 |}
           (of_Z 12) (of_Z 14) eq_refl eq_refl eq_refl).
Defined.

Lemma silent_set_pauses_when_let_through_witness :
  raised constructor
    (setWeightedPrompts (sample_prompts zero zero) 1000 constructor).2
  = [error "There needs to be one active prompt to play.";
     playback_state_changed paused]
  /\ playbackState
       (setWeightedPrompts (sample_prompts zero zero) 1000 constructor).2
     = paused.
Proof.
  exact (silent_set_pauses_when_let_through (sample_prompts zero zero) 1000
           constructor eq_refl).
Defined.

Lemma connecting_helper_handles_known : handles_known connecting_helper.
Proof.
  split; intros s Hs; vm_compute in Hs; [discriminate Hs|].
  injection Hs as <-. vm_compute. lia.
Defined.

Lemma stop_while_loading_discards_session_witness :
  session (stop connecting_helper) = None
  /\ sessionPromise (play_begin (stop connecting_helper)).2 = Some 1%nat.
Proof.
  pose proof (stop_while_loading_discards_session connecting_helper eq_refl
                connecting_helper_handles_known)
    as (_ & Hsession & _ & _ & _ & _ & _ & Hpromise & _).
  exact (conj Hsession Hpromise).
Defined.

Lemma sample_component_prompt_set :
  PromptDj.prompt_set (PromptDj.prompts PromptDj.sample_component).
Proof.
  split.
  - apply NoDup_cons. split; [|apply NoDup_singleton].
    rewrite list_elem_of_singleton. discriminate.
  - repeat constructor.
    + by exists "prompt-0"%string, "Bossa Nova"%string.
    + by exists "prompt-11"%string, "Dubstep"%string.
Defined.

Lemma sample_component_plain :
  Forall (fun p => plain p = true)
    (Map_values (PromptDj.prompts PromptDj.sample_component)).
Proof. repeat constructor. Defined.

Lemma set_file_round_trip_witness :
  PromptDj.prompts
    (PromptDj.handleLoadSet
       (Some (PromptDj.loads (PromptDj.saved_file PromptDj.sample_component)))
       PromptDj.other_component)
  = PromptDj.prompts PromptDj.sample_component
  /\ PromptDj.prompts
       (PromptDj.handleLoadSet
          (Some (PromptDj.loads (PromptDj.json (JArray [PromptDj.nameless_entry]))))
          PromptDj.sample_component)
     = PromptDj.prompts PromptDj.sample_component.
Proof.
  destruct set_file_round_trip as [Hround Hreject]. split.
  - exact (proj1 (proj2 (proj2
             (Hround PromptDj.sample_component PromptDj.other_component
                sample_component_prompt_set))
             sample_component_plain)).
  - refine (proj1 (Hreject PromptDj.sample_component [PromptDj.nameless_entry]
                     PromptDj.nameless_entry _ _)).
    + apply list_elem_of_singleton. reflexivity.
    + right. reflexivity.
Defined.

End Scenarios.

(* ===================================================================== *)
(** * More on the rate limiter *)
(* ===================================================================== *)

Section ThrottleSequences.
Import Throttle.
Context {A W R : Type}.
Variable func : A -> W -> R * W.
Variable delay : Z.

(** X1. In the record of any sequence of invocations of the wrapper, two
    invocations that called [func] with none in between that did are at
    least [delay] milliseconds apart on the clock. *)
Theorem executions_are_spaced (w : W) (calls : list (Z * A)) (i j : nat)
    (first second : entry A R) :
  let record := (run func delay throttle w calls).1.1 in
  record !! i = Some first ->
  record !! j = Some second ->
  (i < j)%nat ->
  e_ran first = true ->
  e_ran second = true ->
  (forall k e, (i < k < j)%nat -> record !! k = Some e -> e_ran e = false) ->
  delay <= e_now second - e_now first.
Proof.
  intros record Hi Hj Hlt Hfirst Hsecond Hbetween.
  destruct (run_characterised func delay calls throttle w [] j second
              (conj eq_refl eq_refl) Hj) as (Hran & _).
  simpl in Hran. fold record in Hran.
  assert (Hlast : last_ran (take j record) = Some first).
  { apply last_ran_Some. exists i. split_and!.
    - by rewrite lookup_take_lt.
    - done.
    - intros k e Hk He. apply lookup_take_Some in He as [He Hkj].
      by apply (Hbetween k). }
  rewrite Hlast in Hran. by apply Hran.
Qed.

(** X2. The wrapper never returns [undefined]: every invocation of a
    sequence returns what some call of [func] computed. *)
Theorem wrapper_never_returns_undefined (w : W) (calls : list (Z * A)) :
  Forall (fun e => is_Some (e_returned e)) (run func delay throttle w calls).1.1.
Proof.
  apply Forall_lookup. intros i e Hi.
  destruct (run_characterised func delay calls throttle w [] i e
              (conj eq_refl eq_refl) Hi) as (_ & Hran & Hskipped).
  destruct (e_ran e).
  - destruct (Hran eq_refl) as [Hsome ->]. done.
  - destruct (Hskipped eq_refl) as (p & _ & Hsome & ->). done.
Qed.

(** The closure after a run from the start follows the record. *)
Lemma run_from_start_tracks (w : W) (calls : list (Z * A)) :
  tracks (run func delay throttle w calls).1.2 (run func delay throttle w calls).1.1.
Proof.
  exact (run_tracks func delay calls throttle w [] (conj eq_refl eq_refl)).
Qed.

(** X3. A burst collapses: after an invocation that called [func] at time
    [t], invocations that all come less than [delay] milliseconds after
    [t] never call [func]; each returns what that invocation computed, and
    neither the captured variables nor the world change. *)
Theorem burst_is_dropped (w : W) (calls burst : list (Z * A)) (p : entry A R) :
  let c := (run func delay throttle w calls).1.2 in
  let w1 := (run func delay throttle w calls).2 in
  last_ran (run func delay throttle w calls).1.1 = Some p ->
  Forall (fun call => call.1 - e_now p < delay) burst ->
  run func delay c w1 burst
  = (map (fun call => Entry call.1 call.2 false None (e_computed p)) burst, c, w1).
Proof.
  intros c w1 Hlast Hburst.
  pose proof (run_from_start_tracks w calls) as Ht. unfold tracks in Ht.
  rewrite Hlast in Ht. fold c in Ht. destruct Ht as (Hc & Hr & _).
  induction Hburst as [|[now args] burst Hnow Hburst IH]; [done|].
  simpl in Hnow |- *.
  assert (Hstale : fresh delay c now = false).
  { destruct (fresh delay c now) eqn:Hf; [|done].
    apply fresh_spec in Hf. rewrite Hc in Hf. lia. }
  rewrite Hstale, invoke_stale by done. rewrite IH. by rewrite Hr.
Qed.

End ThrottleSequences.

Section ThrottleSequencesAtWork.
Import Throttle.

Lemma executions_are_spaced_witness : 200 <= 1200 - 1000.
Proof.
  exact (executions_are_spaced
           (fun (args : string) (calls : nat) => ((args, calls), S calls)) 200
           0%nat [(1000, "a"); (1100, "b"); (1200, "c")]%string 0 2
           (Entry 1000 "a" true (Some ("a", 0%nat)) (Some ("a", 0%nat)))
           (Entry 1200 "c" true (Some ("c", 1%nat)) (Some ("c", 1%nat)))
           eq_refl eq_refl ltac:(lia) eq_refl eq_refl
           ltac:(intros [|[|k]] e Hk He; [lia | by injection He as <- | lia])).
Defined.

Lemma burst_is_dropped_witness :
  run (fun (args : string) (calls : nat) => ((args, calls), S calls)) 200
      {| lastCall := Finite 1000; lastResult := Some ("a"%string, 0%nat) |}
      1%nat [(1100, "b"); (1150, "c")]%string
  = ([Entry 1100 "b"%string false None (Some ("a"%string, 0%nat));
      Entry 1150 "c"%string false None (Some ("a"%string, 0%nat))],
     {| lastCall := Finite 1000; lastResult := Some ("a"%string, 0%nat) |},
     1%nat).
Proof.
  apply (burst_is_dropped
           (fun (args : string) (calls : nat) => ((args, calls), S calls)) 200
           0%nat [(1000, "a")]%string [(1100, "b"); (1150, "c")]%string
           (Entry 1000 "a" true (Some ("a", 0%nat)) (Some ("a", 0%nat)))).
  - reflexivity.
  - repeat constructor.
Defined.

End ThrottleSequencesAtWork.

(* ===================================================================== *)
(** * More on the MIDI bridge *)
(* ===================================================================== *)

Section MidiAccessFacts.
Import Midi MidiDevices.

(** X4. [getMidiAccess()] asks the platform once. The call that is
    granted access returns the ids of the inputs the platform has then and
    makes the first one active unless an input was chosen before, in which
    case the choice stays; from then on a call asks nothing: whatever
    [requestMIDIAccess] would answer, it returns the ids of the inputs the
    platform has at that time (the [inputs] map is live) and changes
    nothing in the dispatcher. *)
Theorem getMidiAccess_asks_once (nav later : navigator) (this : MidiDispatcher) :
  access this = false ->
  requestMIDIAccess nav = request_granted ->
  let granted := getMidiAccess nav this in
  granted.1 = inr (map id (inputs nav))
  /\ access granted.2 = true
  /\ activeMidiInputId granted.2
     = match activeMidiInputId this with
       | Some chosen => Some chosen
       | None => head (map id (inputs nav))
       end
  /\ getMidiAccess later granted.2 = (inr (map id (inputs later)), granted.2).
Proof.
  intros Hnone Hgranted granted. subst granted. unfold getMidiAccess.
  rewrite Hnone, Hgranted. simpl. split_and!; try done.
  destruct (map id (inputs nav)), (activeMidiInputId this); done.
Qed.

Lemma find_input id (inputs : list MIDIInput) :
  id ∈ map Midi.id inputs ->
  exists input, inputs_get id inputs = Some input
                /\ input ∈ inputs /\ Midi.id input = id.
Proof.
  induction inputs as [|first inputs IH]; simpl; intros Hin.
  - by apply not_elem_of_nil in Hin.
  - destruct (String.eqb_spec (Midi.id first) id) as [Heq|Hne].
    + exists first. split_and!; [done | apply list_elem_of_here | done].
    + apply elem_of_cons in Hin as [Hhere|Hin]; [congruence|].
      destruct (IH Hin) as (input & Hget & Hmem & Hid).
      exists input. split_and!; [done | by apply list_elem_of_further | done].
Qed.

(** X5. Every id that [getMidiAccess()] returns has a name as long as
    the platform has the inputs it had at the call: [getDeviceName] finds
    an input with that id among them and gives its name. It gives [null]
    while the dispatcher has no access, and for an id that no input of
    the platform has at the time it is asked, as after the input has been
    removed. *)
Theorem returned_ids_have_names (nav : navigator) (this : MidiDispatcher) :
  (forall ids this', getMidiAccess nav this = (inr ids, this') ->
     forall id, id ∈ ids ->
       exists input,
         input ∈ inputs nav /\ Midi.id input = id
         /\ getDeviceName id nav this' = Some (name input))
  /\ (forall id, access this = false -> getDeviceName id nav this = None)
  /\ (forall id, id ∉ map Midi.id (inputs nav) ->
        getDeviceName id nav this = None).
Proof.
  split_and!.
  - intros ids this' Hget id Hin. unfold getMidiAccess in Hget.
    destruct (access this) eqn:Haccess.
    + injection Hget as <- <-.
      destruct (find_input id (inputs nav) Hin) as (input & Hfound & Hmem & Hid).
      exists input. unfold getDeviceName. by rewrite Haccess, Hfound.
    + destruct (requestMIDIAccess nav); try discriminate Hget.
      injection Hget as <- <-.
      destruct (find_input id (inputs nav) Hin) as (input & Hfound & Hmem & Hid).
      exists input. unfold getDeviceName. simpl. by rewrite Hfound.
  - intros id Hnone. unfold getDeviceName. by rewrite Hnone.
  - intros id Hnot. unfold getDeviceName.
    destruct (access this); [|done]. simpl.
    destruct (inputs_get id (inputs nav)) as [input|] eqn:Hfound; [|done].
    exfalso. apply Hnot. apply find_some in Hfound as [Hmem Heqb].
    apply String.eqb_eq in Heqb. subst id.
    apply list_elem_of_fmap. exists input. split; [done|].
    by apply list_elem_of_In.
Qed.

(** X6. A message makes the bridge dispatch at most one event, and the
    channel of an event it dispatches lies between 0 and 15. *)
Theorem dispatched_channel_in_range (this : MidiDispatcher) (input : MIDIInput)
    (event : MIDIMessageEvent) :
  (length (onmidimessage this input event) <= 1)%nat
  /\ forall d, cc_message d ∈ onmidimessage this input event ->
       0 <= channel d <= 15.
Proof.
  unfold onmidimessage.
  repeat case_match; (split; [simpl; lia|]); intros d Hin;
    try (by apply not_elem_of_nil in Hin).
  apply list_elem_of_singleton in Hin. injection Hin as ->. simpl.
  match goal with |- context [to_number ?b] => destruct b as [status|] end;
    [|by vm_compute].
  pose proof (low_nibble status) as Hlow. unfold status_number in Hlow.
  rewrite Hlow.
  pose proof (Z.mod_pos_bound (to_number (Some status)) 16). lia.
Qed.

End MidiAccessFacts.

Section MidiPanelFacts.
Import MidiPanel.

Lemma getMidiAccess_outcome nav dispatcher :
  (exists message, Midi.getMidiAccess nav dispatcher = (inl message, dispatcher))
  \/ (Midi.getMidiAccess nav dispatcher
      = (inr (map Midi.id (Midi.inputs nav)),
         (Midi.getMidiAccess nav dispatcher).2)
      /\ Midi.access (Midi.getMidiAccess nav dispatcher).2 = true).
Proof.
  unfold Midi.getMidiAccess.
  destruct (Midi.access dispatcher) eqn:Haccess.
  - right. simpl. done.
  - destruct (Midi.requestMIDIAccess nav); [left; eauto | left; eauto |].
    right. simpl. done.
Qed.

Lemma getMidiAccess_keeps_access nav dispatcher :
  Midi.access dispatcher = true ->
  Midi.access (Midi.getMidiAccess nav dispatcher).2 = true.
Proof. intros H. unfold Midi.getMidiAccess. by rewrite H. Qed.

Lemma step_in_step s this : in_step this -> in_step (step s this).
Proof.
  intros (Hactive & Hids).
  assert (Hset : forall show nav, in_step (setShowMidi show nav this)).
  { intros show nav. unfold setShowMidi. destruct show; simpl.
    - destruct (getMidiAccess_outcome nav (midiDispatcher this))
        as [[message Hfail]|[Hok Haccess]].
      + rewrite Hfail. split; [done | done].
      + rewrite Hok. split; [done | done].
    - split; [done | done]. }
  destruct s as [show nav|nav|newMidiId]; simpl.
  - apply Hset.
  - apply Hset.
  - split; [done | exact Hids].
Qed.

(** X7. Whatever sequence of [setShowMidi], [toggleShowMidi] and
    [handleMidiInputChange] calls runs on the panel, with whatever answers
    and inputs of the platform, the active input the panel shows is the
    one the dispatcher filters on, and the panel lists input ids only
    when the dispatcher has been granted access. *)
Theorem panel_follows_dispatcher (ss : list Step) :
  in_step (steps ss constructor).
Proof.
  assert (Hgen : forall this, in_step this -> in_step (steps ss this)).
  { induction ss as [|s ss IH]; intros this Hin; [done|].
    simpl. apply IH. by apply step_in_step. }
  apply Hgen. split; done.
Qed.

(** X8. [setShowMidi(true)] on a platform that refuses MIDI access leaves
    the panel hidden with one error raised and its inputs, its active
    input and its dispatcher untouched; when access is granted the panel is
    shown without an error and lists the ids of the granted inputs. *)
Theorem setShowMidi_outcomes (this : PromptDjMidi) (inputs : list Midi.MIDIInput) :
  Midi.access (midiDispatcher this) = false ->
  (forall answer,
     answer = Midi.no_requestMIDIAccess \/ answer = Midi.request_rejected ->
     let nav := {| Midi.requestMIDIAccess := answer; Midi.inputs := inputs |} in
     let this' := setShowMidi true nav this in
     showMidi this' = false
     /\ (exists message, events this' = events this ++ [error message])
     /\ midiInputIds this' = midiInputIds this
     /\ activeMidiInputId this' = activeMidiInputId this
     /\ midiDispatcher this' = midiDispatcher this)
  /\ (let nav := {| Midi.requestMIDIAccess := Midi.request_granted;
                    Midi.inputs := inputs |} in
      let this' := setShowMidi true nav this in
      showMidi this' = true
      /\ events this' = events this
      /\ midiInputIds this' = map Midi.id inputs
      /\ Midi.access (midiDispatcher this') = true).
Proof.
  intros Hnone. split.
  - intros answer [-> | ->] nav this'; subst nav this';
      unfold setShowMidi, Midi.getMidiAccess;
      rewrite Hnone; simpl; split_and!; eauto.
  - unfold setShowMidi, Midi.getMidiAccess. rewrite Hnone. simpl. done.
Qed.

End MidiPanelFacts.

Section MidiAtWork.
Import Midi MidiDevices.

(** Access granted with two inputs; later the first input is gone and a
    third is there: the dispatcher returns the ids of the inputs that are
    there, keeps the active input it had, and no longer names it. *)
Example inputs_are_read_live :
  let this := (getMidiAccess studio Midi.constructor).2 in
  getMidiAccess studio_later this = (inr ["in-2"; "in-3"]%string, this)
  /\ activeMidiInputId this = Some "in-1"%string
  /\ getDeviceName "in-1" studio this = Some "Keys"%string
  /\ getDeviceName "in-1" studio_later this = None
  /\ getDeviceName "in-3" studio_later this = Some "Wind"%string.
Proof. vm_compute. done. Qed.

Lemma getMidiAccess_asks_once_witness :
  getMidiAccess studio_later (getMidiAccess studio Midi.constructor).2
  = (inr ["in-2"; "in-3"]%string, (getMidiAccess studio Midi.constructor).2).
Proof.
  exact (proj2 (proj2 (proj2
    (getMidiAccess_asks_once studio studio_later Midi.constructor
       eq_refl eq_refl)))).
Defined.

Lemma returned_ids_have_names_witness :
  exists input,
    input ∈ two_inputs /\ Midi.id input = "in-2"%string
    /\ getDeviceName "in-2" studio (getMidiAccess studio Midi.constructor).2
       = Some (name input).
Proof.
  refine (proj1 (returned_ids_have_names studio Midi.constructor)
            ["in-1"; "in-2"]%string _ eq_refl "in-2"%string _).
  apply list_elem_of_further, list_elem_of_here.
Defined.

Lemma dispatched_channel_in_range_witness :
  0 <= 3 <= 15.
Proof.
  destruct (dispatched_channel_in_range
              {| access := false; activeMidiInputId := Some "in-1"%string |}
              {| id := "in-1"; name := "Keys" |}
              {| data := Some [xb3; x07; x64]%byte |}) as [_ Hrange].
  apply (Hrange {| cc := Some x07; value := Some x64; channel := 3 |}%byte).
  vm_compute. apply list_elem_of_here.
Defined.

Lemma setShowMidi_outcomes_witness :
  MidiPanel.showMidi (MidiPanel.setShowMidi true locked MidiPanel.constructor)
  = false
  /\ MidiPanel.midiInputIds
       (MidiPanel.setShowMidi true studio MidiPanel.constructor)
     = ["in-1"; "in-2"]%string.
Proof.
  destruct (setShowMidi_outcomes MidiPanel.constructor two_inputs eq_refl)
    as [Hrefused Hgranted].
  split.
  - exact (proj1 (Hrefused request_rejected (or_intror eq_refl))).
  - exact (proj1 (proj2 (proj2 Hgranted))).
Defined.

End MidiAtWork.

(* ===================================================================== *)
(** * The recording sink *)
(* ===================================================================== *)

Section RecordingFacts.
Import Recording.

Lemma deliver_effect chunks : forall this,
  mediaRecorder (deliver chunks this) = mediaRecorder this
  /\ recordedChunks (deliver chunks this) = recordedChunks this ++ kept chunks
  /\ events (deliver chunks this) = events this.
Proof.
  induction chunks as [|data chunks IH]; intros this; simpl.
  - by rewrite app_nil_r.
  - destruct (IH (ondataavailable data this)) as (Hr & Hc & He).
    change (fold_left _ chunks ?h) with (deliver chunks h).
    rewrite Hr, Hc, He. unfold ondataavailable.
    destruct (0 <? size data)%N; simpl; [|done].
    by rewrite <- app_assoc.
Qed.

Lemma kept_app chunks1 chunks2 : kept (chunks1 ++ chunks2) = kept chunks1 ++ kept chunks2.
Proof. unfold kept. apply List.filter_app. Qed.

(** X9. A recording from start to stop: when the platform can record and
    no recording is running, [startRecording()], then the chunks the
    recorder hands over before and after [stopRecording()], then the
    recorder's [stop] event give a blob of exactly the non-empty chunks, in
    the order they came, typed like the first of them, or ['audio/mp3']
    when there is none or its type is empty; the chunks of an earlier
    recording are not in it, the buffer is empty afterwards and no event is
    raised. *)
Theorem recording_round_trip (platform : Platform) (this : Recorder)
    (before after : list Chunk) :
  platform <> records_nothing ->
  is_recording this = false ->
  let started := startRecording platform this in
  let stopping := stopRecording (deliver before started) in
  let stopped := onstop (deliver after stopping.2) in
  stopping.1 = awaits_onstop
  /\ parts stopped.1 = kept (before ++ after)
  /\ mimeType stopped.1
     = match kept (before ++ after) with
       | first :: _ => if String.eqb (type first) "" then "audio/mp3"%string
                       else type first
       | [] => "audio/mp3"%string
       end
  /\ recordedChunks stopped.2 = []
  /\ events stopped.2 = events this.
Proof.
  intros Hplatform Hidle started stopping stopped.
  assert (Hstarted : exists options,
    started = {| mediaRecorder := Some {| state := recording; options := options |};
                 recordedChunks := []; events := events this |}).
  { subst started. unfold startRecording. rewrite Hidle.
    destruct platform; [eauto | eauto | done]. }
  destruct Hstarted as [options Hstarted].
  subst stopping stopped. rewrite Hstarted. clear Hstarted started.
  set (started := {| mediaRecorder := Some {| state := recording; options := options |};
                     recordedChunks := []; events := events this |}).
  destruct (deliver_effect before started) as (Hr1 & Hc1 & He1).
  simpl in Hr1, Hc1, He1.
  assert (Hstopping : stopRecording (deliver before started)
    = (awaits_onstop,
       {| mediaRecorder := Some {| state := inactive; options := options |};
          recordedChunks := kept before; events := events this |})).
  { unfold stopRecording. by rewrite Hr1, Hc1, He1. }
  rewrite Hstopping. cbn [fst snd].
  destruct (deliver_effect after
    {| mediaRecorder := Some {| state := inactive; options := options |};
       recordedChunks := kept before; events := events this |})
    as (Hr2 & Hc2 & He2).
  simpl in Hr2, Hc2, He2.
  unfold onstop. rewrite Hc2, He2, kept_app. done.
Qed.

(** X10. [startRecording()] while a recording runs changes nothing: the
    recorder and the chunks gathered so far stay, so the recording goes on
    as if the call had not been made. *)
Theorem second_start_keeps_recording (platform platform' : Platform)
    (this : Recorder) (chunks : list Chunk) :
  platform <> records_nothing ->
  is_recording this = false ->
  let running := deliver chunks (startRecording platform this) in
  startRecording platform' running = running
  /\ recordedChunks running = kept chunks.
Proof.
  intros Hplatform Hidle running.
  destruct (deliver_effect chunks (startRecording platform this)) as (Hr & Hc & _).
  fold running in Hr, Hc.
  assert (Hrec : is_recording (startRecording platform this) = true
                 /\ recordedChunks (startRecording platform this) = []).
  { unfold startRecording. rewrite Hidle. by destruct platform. }
  destruct Hrec as [Hrec Hempty]. rewrite Hempty in Hc. split; [|done].
  unfold startRecording. unfold is_recording in *. rewrite Hr.
  by destruct (mediaRecorder (startRecording platform this)) as [[[] ?]|].
Qed.

(** X11. [stopRecording()] resolves with [null] and changes nothing when
    no recorder was ever made, and again when it is called a second time
    before a new recording starts. *)
Theorem stop_without_recording (this : Recorder) :
  stopRecording constructor = (resolved_null, constructor)
  /\ stopRecording (stopRecording this).2
     = (resolved_null, (stopRecording this).2).
Proof.
  split; [done|]. unfold stopRecording.
  destruct (mediaRecorder this) as [[[] o]|] eqn:Hrecorder; simpl;
    rewrite ?Hrecorder; done.
Qed.

Lemma step_keeps_no_empty_chunk s this :
  Forall (fun data => (0 < size data)%N) (recordedChunks this) ->
  Forall (fun data => (0 < size data)%N) (recordedChunks (step s this)).
Proof.
  intros Hinv. destruct s as [platform| |data|]; simpl.
  - unfold startRecording. destruct (is_recording this); [done|].
    by destruct platform.
  - unfold stopRecording. by destruct (mediaRecorder this) as [[[] ?]|].
  - unfold ondataavailable. destruct (N.ltb_spec 0 (size data)); [|done].
    simpl. apply Forall_app. split; [done|]. by apply Forall_singleton.
  - done.
Qed.

(** X12. However starts, stops and recorder events follow each other,
    whatever the platform supports, the buffer of recorded chunks never
    holds an empty chunk. *)
Theorem no_empty_chunk_is_kept (ss : list Step) :
  Forall (fun data => (0 < size data)%N) (recordedChunks (steps ss constructor)).
Proof.
  assert (Hgen : forall h,
    Forall (fun data => (0 < size data)%N) (recordedChunks h) ->
    Forall (fun data => (0 < size data)%N) (recordedChunks (steps ss h))).
  { induction ss as [|s ss IH]; intros h Hinv; [done|].
    simpl. apply IH. by apply step_keeps_no_empty_chunk. }
  apply Hgen. constructor.
Qed.

End RecordingFacts.

Section RecordingAtWork.
Import Recording.

Lemma recording_round_trip_witness :
  parts (onstop (deliver [webm_chunk 7]
           (stopRecording (deliver [webm_chunk 0; webm_chunk 5]
              (startRecording records_default constructor))).2)).1
  = [webm_chunk 5; webm_chunk 7].
Proof.
  apply (recording_round_trip records_default constructor
           [webm_chunk 0; webm_chunk 5] [webm_chunk 7]).
  - discriminate.
  - reflexivity.
Defined.

Lemma second_start_keeps_recording_witness :
  recordedChunks (deliver [webm_chunk 5] (startRecording records_webm constructor))
  = [webm_chunk 5].
Proof.
  apply (second_start_keeps_recording records_webm records_nothing constructor
           [webm_chunk 5]).
  - discriminate.
  - reflexivity.
Defined.

End RecordingAtWork.

(* ===================================================================== *)
(** * More on the helper: what every sequence of moments keeps *)
(* ===================================================================== *)

Section PlaybackInvariants.
Import Double Js LiveMusic Playback.

Lemma last_announced_snoc log e :
  last_announced (log ++ [e])
  = match e with
    | playback_state_changed state => Some state
    | _ => last_announced log
    end.
Proof. unfold last_announced. by rewrite fold_left_app. Qed.

(** Unfolds a turn down to the record it builds. *)
Ltac unfold_turn :=
  unfold turn, onmessage, onerror, onclose, timeout_fires, playPause,
    play_begin, play_connected, play_resume;
  rewrite ?setWeightedPrompts_unfold;
  unfold setWeightedPrompts_body, setWeightedPrompts_catch, getSession,
    connect, pause, stop, processAudioChunks, processAudioChunks_decoded,
    setPlaybackState;
  simpl.

Ltac case_split :=
  repeat match goal with
         | |- context [match ?x with _ => _ end] => destruct x eqn:?; simpl
         end.

Lemma turn_announced t this : announced this -> announced (turn t this).
Proof.
  unfold announced. intros Hinv.
  destruct t; unfold_turn; case_split; simplify_eq;
    rewrite ?last_announced_snoc; simpl; rewrite ?last_announced_snoc; simpl;
    rewrite ?last_announced_snoc; simpl; try done; congruence.
Qed.

Lemma moment_announced m this : announced this -> announced (moment m this).
Proof.
  destruct m as [t|audioBuffer c0 c1]; [apply turn_announced|].
  unfold announced. intros Hinv. simpl. rewrite decoded_unfold.
  destruct (underrun c0 c1 this), (startable (target_start c0 this)),
    (eqb (nextStartTime this) zero); simpl;
    rewrite ?last_announced_snoc; done.
Qed.

Lemma moments_keep (P : LiveMusicHelper -> Prop) (ms : list Moment) :
  (forall m this, In m ms -> P this -> P (moment m this)) ->
  forall this, P this -> P (moments ms this).
Proof.
  induction ms as [|m ms IH]; intros Hstep this HP; [done|].
  simpl. apply IH.
  - intros m' h Hin. apply Hstep. by right.
  - apply Hstep; [by left | done].
Qed.

(** X13. However the operations and callbacks of the helper follow each
    other from its construction on, also when other turns run while a
    chunk is decoded, the state its last ['playback-state-changed'] event
    told is the state it is in (and while it has told none it is
    [stopped]): a listener that copies the events never disagrees with
    the helper. *)
Theorem state_changes_are_announced (ms : list Moment) :
  default stopped (last_announced (events (moments ms constructor)))
  = playbackState (moments ms constructor).
Proof.
  apply (moments_keep announced); [|done].
  intros m this _. apply moment_announced.
Qed.

(** The rest of [processAudioChunks] keeps the clock sound. *)
Lemma decoded_clock_sound audioBuffer c0 c1 this :
  leb zero c0 = true -> leb zero (duration audioBuffer) = true ->
  clock_sound this ->
  clock_sound (processAudioChunks_decoded audioBuffer c0 c1 this).
Proof.
  intros H0 Hd (Hb & Hn & Hs). unfold clock_sound.
  rewrite decoded_unfold.
  assert (Htarget : leb zero (target_start c0 this) = true).
  { destruct (target_start_cases c0 this) as [[_ ->]|[_ ->]]; [|done].
    apply add_nonneg; [done|]. by rewrite Hb. }
  pose proof (add_nonneg _ _ Htarget Hd) as Hnext.
  destruct (underrun c0 c1 this), (startable (target_start c0 this));
    destruct (target_start_cases c0 this) as [[Hz Ht]|[Hz Ht]];
    rewrite Ht in *; rewrite Hz; simpl;
    split_and!; try done;
    apply Forall_app; split; try done; by apply Forall_singleton.
Qed.

Lemma stop_clock_sound this : clock_sound this -> clock_sound (stop this).
Proof. intros (Hb & Hn & Hs). unfold stop. by destruct (session this). Qed.

Lemma pause_clock_sound this : clock_sound this -> clock_sound (pause this).
Proof. intros (Hb & Hn & Hs). unfold pause. by destruct (session this). Qed.

Lemma setWeightedPrompts_clock_sound prompts now this :
  clock_sound this -> clock_sound (setWeightedPrompts prompts now this).2.
Proof.
  intros Hsound. rewrite setWeightedPrompts_unfold.
  destruct (Throttle.fresh 200 (throttled this) now); cbn [snd]; [|done].
  unfold setWeightedPrompts_body.
  destruct (activePrompts (set_prompts prompts this)) as [[|p active]|];
    cbn [snd].
  - by apply (pause_clock_sound (dispatchEvent _ (set_prompts prompts this))).
  - by destruct (session (set_prompts prompts this)).
  - done.
Qed.

Lemma turn_clock_sound t this :
  plausible_turn t -> clock_sound this -> clock_sound (turn t this).
Proof.
  intros Hpl Hsound.
  destruct t as [e c0 c1| | | |prompts now|message| |s now|awaited| | |];
    cbn [turn].
  - destruct Hpl as (H0 & H1 & Hd). unfold onmessage.
    set (h := match filteredPrompt e with
              | Some (text, filteredReason) => _
              | None => _
              end).
    assert (Hh : clock_sound h).
    { subst h. destruct Hsound as (Hb & Hn & Hs).
      by destruct (setupComplete e), (filteredPrompt e) as [[? ?]|]. }
    destruct (audioChunks e) as [[|audioBuffer more]|]; try done.
    + unfold processAudioChunks. by destruct (processAudioChunks_enters h).
    + unfold processAudioChunks. destruct (processAudioChunks_enters h); [|done].
      by apply decoded_clock_sound.
  - unfold onerror. by apply (stop_clock_sound (set_connectionError true this)).
  - unfold onclose. by apply (stop_clock_sound (set_connectionError true this)).
  - destruct Hsound as (Hb & Hn & Hs). unfold timeout_fires.
    by destruct (timeouts this).
  - by apply setWeightedPrompts_clock_sound.
  - unfold setWeightedPrompts_catch.
    by apply (pause_clock_sound (dispatchEvent _ this)).
  - destruct Hsound as (Hb & Hn & Hs).
    unfold play_begin, getSession, connect. simpl.
    by destruct (sessionPromise this).
  - unfold play_connected.
    by apply (setWeightedPrompts_clock_sound _ _ (set_session (Some s) this)).
  - destruct Hsound as (Hb & Hn & Hs). unfold play_resume.
    by destruct awaited as [[| |]|], (session this).
  - by apply pause_clock_sound.
  - by apply stop_clock_sound.
  - unfold playPause. destruct (playbackState this).
    + destruct Hsound as (Hb & Hn & Hs).
      unfold play_begin, getSession, connect. simpl.
      by destruct (sessionPromise this).
    + by apply stop_clock_sound.
    + by apply pause_clock_sound.
    + destruct Hsound as (Hb & Hn & Hs).
      unfold play_begin, getSession, connect. simpl.
      by destruct (sessionPromise this).
Qed.

Lemma moment_clock_sound m this :
  plausible_moment m -> clock_sound this -> clock_sound (moment m this).
Proof.
  destruct m as [t|audioBuffer c0 c1]; [apply turn_clock_sound|].
  intros (H0 & H1 & Hd). by apply decoded_clock_sound.
Qed.

(** X14. As long as the clock reads and the durations of the chunks that
    arrive are not negative, the look-ahead stays the two seconds of the
    constructor, [nextStartTime] is never negative and no source is ever
    started at a negative time (nor is either NaN), whatever the helper
    goes through, also when other turns run while a chunk is decoded. *)
Theorem clock_stays_sound (ms : list Moment) :
  Forall plausible_moment ms ->
  bufferTime (moments ms constructor) = of_Z 2
  /\ leb zero (nextStartTime (moments ms constructor)) = true
  /\ Forall (fun s => leb zero (when s) = true)
       (started (moments ms constructor)).
Proof.
  intros Hpl. apply (moments_keep clock_sound).
  - intros m this Hin. apply moment_clock_sound.
    rewrite Forall_forall in Hpl. apply Hpl. by apply list_elem_of_In.
  - split_and!; [done | done | constructor].
Qed.

End PlaybackInvariants.

(* ===================================================================== *)
(** * More on the helper: how its operations compose *)
(* ===================================================================== *)

Section PlaybackComposition.
Import Double Js LiveMusic Playback.

Lemma halted_ignores_chunks e c0 c1 this :
  halted this = true ->
  setupComplete e = false -> filteredPrompt e = None ->
  onmessage e c0 c1 this = this.
Proof.
  unfold halted, onmessage, processAudioChunks. intros Hh -> ->.
  apply negb_true_iff in Hh. destruct (audioChunks e); [|done].
  by rewrite Hh.
Qed.

(** [pause()], [stop()] and the loss of the connection leave the helper
    paused or stopped. *)
Lemma halting_operations this :
  halted (pause this) = true /\ halted (stop this) = true
  /\ halted (onerror this) = true /\ halted (onclose this) = true.
Proof.
  unfold halted, processAudioChunks_enters, onerror, onclose, pause, stop.
  by destruct (session this).
Qed.

(** X15. Audio messages handled while the playback state is [paused] or
    [stopped] are dropped, however many follow each other: they leave the
    helper exactly as it was, so nothing is started and the clock is not
    touched. This is the state [pause()], [stop()] and a lost connection
    leave; it lasts until something else sets the state, which the
    timeout of an earlier priming does when it is still pending. *)
Theorem chunks_while_halted_are_dropped
    (messages : list (list AudioBuffer * double * double))
    (this : LiveMusicHelper) :
  halted this = true ->
  hear messages this = this.
Proof.
  intros Hh. unfold hear.
  induction messages as [|[[chunks c0] c1] messages IH]; [done|].
  simpl. by rewrite halted_ignores_chunks.
Qed.

(** A message first handles its setup and filtered-prompt parts, which
    leave the sources and the output node alone, then its chunks. *)
Lemma onmessage_then_chunks e c0 c1 this :
  exists h,
    started h = started this /\ outputNode h = outputNode this
    /\ onmessage e c0 c1 this
       = match audioChunks e with
         | Some chunks => processAudioChunks chunks c0 c1 h
         | None => h
         end.
Proof.
  unfold onmessage. eexists. split_and!; [| |reflexivity];
    by destruct (setupComplete e), (filteredPrompt e) as [[? ?]|].
Qed.

(** X16. One message starts at most one source: the one for the first of
    its chunks, connected to the current output node, at a time that is
    not behind the clock read of the underrun check (and that
    [source.start] takes); the other chunks of the message are not
    played. *)
Theorem message_starts_first_chunk_ahead (e : Message) (c0 c1 : double)
    (this : LiveMusicHelper) :
  newly_started this (onmessage e c0 c1 this) = []
  \/ exists first more start,
       audioChunks e = Some (first :: more)
       /\ ltb start c1 = false
       /\ startable start = true
       /\ newly_started this (onmessage e c0 c1 this)
          = [{| when := start; buffer := first; node := outputNode this |}].
Proof.
  destruct (onmessage_then_chunks e c0 c1 this) as (h & Hstarted & Hnode & ->).
  unfold newly_started, processAudioChunks. rewrite <- Hstarted, <- Hnode.
  destruct (audioChunks e) as [[|first more]|] eqn:Hchunks.
  - left. destruct (processAudioChunks_enters h); apply drop_all.
  - destruct (processAudioChunks_enters h); [|left; apply drop_all].
    rewrite decoded_unfold. destruct (underrun c0 c1 h) eqn:Hunder.
    + left. destruct (eqb (nextStartTime h) zero); simpl; apply drop_all.
    + destruct (startable (target_start c0 h)) eqn:Hok; simpl.
      * right. exists first, more, (target_start c0 h).
        split_and!; [done|done|done|].
        destruct (eqb (nextStartTime h) zero); simpl;
          by rewrite drop_app_length.
      * left. destruct (eqb (nextStartTime h) zero); simpl; apply drop_all.
  - left. apply drop_all.
Qed.

(** X17. [getSession()] is single-flight: with a promise cached it returns
    that promise and connects nothing; without one it connects once; in
    both cases a second call returns the promise of the first and makes no
    further connection. *)
Theorem getSession_connects_once (this : LiveMusicHelper) :
  getSession (getSession this).2 = ((getSession this).1, (getSession this).2)
  /\ sessionPromise (getSession this).2 = Some (getSession this).1
  /\ connections (getSession this).2
     = match sessionPromise this with
       | Some _ => connections this
       | None => S (connections this)
       end.
Proof.
  unfold getSession, connect.
  destruct (sessionPromise this) as [p|] eqn:Hp; simpl; by rewrite ?Hp.
Qed.

(** X18. [pause()] keeps the session: a [play()] after it awaits the
    promise cached before and makes no new connection, and the [pause]
    directive went to the session the helper holds. *)
Theorem play_after_pause_reuses_session (p : nat) (this : LiveMusicHelper) :
  sessionPromise this = Some p ->
  (play_begin (pause this)).1 = p
  /\ connections (play_begin (pause this)).2 = connections this
  /\ session (play_begin (pause this)).2 = session this
  /\ newly_sent this (pause this)
     = match session this with
       | Some s => [(s, call_pause)]
       | None => []
       end.
Proof.
  intros Hp. unfold play_begin, getSession, pause, newly_sent.
  destruct (session this) as [s|] eqn:Hs; simpl; rewrite Hp; simpl;
    split_and!; try done; [by rewrite drop_app_length | apply drop_all].
Qed.

Lemma filter_throwing_kept f l kept :
  filter_throwing f l = Some kept ->
  Forall (fun p => f p = Some true) kept /\ kept `sublist_of` l.
Proof.
  revert kept. induction l as [|p l IH]; simpl; intros kept Hf.
  - injection Hf as <-. split; [constructor | constructor].
  - destruct (f p) as [keep|] eqn:Hp; [|done].
    destruct (filter_throwing f l) as [rest|]; [|done].
    injection Hf as <-. destruct (IH rest eq_refl) as [Hall Hsub].
    destruct keep.
    + split; [by constructor | by constructor].
    + split; [done | by constructor].
Qed.

(** X19. What [setWeightedPrompts] sends to the backend: only to the
    session the helper holds, never an empty list, and only prompts of the
    incoming map, in their order, that are active for the helper (text not
    filtered, weight not 0). *)
Theorem only_active_prompts_are_sent (prompts : Map) (now : Z)
    (this : LiveMusicHelper) (s : nat) (sent_prompts : list value) :
  let this' := (setWeightedPrompts prompts now this).2 in
  (s, call_setWeightedPrompts sent_prompts) ∈ newly_sent this this' ->
  session this = Some s
  /\ sent_prompts <> []
  /\ sent_prompts `sublist_of` Map_values prompts
  /\ Forall (fun p => is_active (filteredPrompts this) p = Some true) sent_prompts.
Proof.
  intros this'. subst this'. unfold newly_sent.
  rewrite setWeightedPrompts_unfold.
  destruct (Throttle.fresh 200 (throttled this) now); cbn [snd];
    [|rewrite drop_all; intros Hin; by apply not_elem_of_nil in Hin].
  change (sent (set_throttled ?c ?h)) with (sent h).
  unfold setWeightedPrompts_body.
  destruct (activePrompts (set_prompts prompts this)) as [[|p active]|] eqn:Hactive;
    cbn [snd].
  - unfold pause. destruct (session (dispatchEvent _ (set_prompts prompts this)))
      as [s'|] eqn:Hs; simpl.
    + rewrite drop_app_length. intros Hin.
      apply list_elem_of_singleton in Hin. discriminate Hin.
    + rewrite drop_all. intros Hin. by apply not_elem_of_nil in Hin.
  - destruct (session (set_prompts prompts this)) as [s'|] eqn:Hs; simpl.
    + rewrite drop_app_length. intros Hin.
      apply list_elem_of_singleton in Hin. injection Hin as -> ->.
      destruct (filter_throwing_kept _ _ _ Hactive) as [Hall Hsub].
      simpl in Hs. done.
    + rewrite drop_all. intros Hin. by apply not_elem_of_nil in Hin.
  - simpl. rewrite drop_all. intros Hin. by apply not_elem_of_nil in Hin.
Qed.

(** X20. A connection error and a close do the same: the helper ends
    [stopped] with the error flag set, without session or cached promise
    and with the clock unprimed; it has told the new state and then raised
    the error; and the next [play()] makes a new connection. *)
Theorem connection_loss_stops_playback (this : LiveMusicHelper) :
  onclose this = onerror this
  /\ playbackState (onerror this) = stopped
  /\ connectionError (onerror this) = true
  /\ session (onerror this) = None
  /\ sessionPromise (onerror this) = None
  /\ nextStartTime (onerror this) = zero
  /\ raised this (onerror this)
     = [playback_state_changed stopped;
        error "Connection error, please restart audio."]
  /\ (play_begin (onerror this)).1 = connections this
  /\ connections (play_begin (onerror this)).2 = S (connections this).
Proof.
  unfold onclose, onerror, stop, play_begin, getSession, connect, raised.
  simpl. destruct (session this) eqn:Hs; simpl; split_and!; try done;
    by rewrite <- app_assoc, drop_app_length.
Qed.

(** X21. [stop()] and [pause()] do not cancel the timeout that priming the
    clock has set: when it fires after them the helper tells and takes the
    state [playing], with the clock unprimed and, after [stop()], without
    a session. *)
Theorem pending_timeout_outlives_stop (delay : double) (more : list double)
    (this : LiveMusicHelper) :
  timeouts this = delay :: more ->
  playbackState (timeout_fires (stop this)) = playing
  /\ session (timeout_fires (stop this)) = None
  /\ nextStartTime (timeout_fires (stop this)) = zero
  /\ playbackState (timeout_fires (pause this)) = playing
  /\ nextStartTime (timeout_fires (pause this)) = zero.
Proof.
  intros Htimeouts. unfold timeout_fires, stop, pause.
  destruct (session this); simpl; rewrite Htimeouts; done.
Qed.

(** A halted helper stays halted through [setWeightedPrompts]. *)
Lemma setWeightedPrompts_halted prompts now this :
  halted this = true -> halted (setWeightedPrompts prompts now this).2 = true.
Proof.
  intros Hh. rewrite setWeightedPrompts_unfold.
  destruct (Throttle.fresh 200 (throttled this) now); cbn [snd]; [|done].
  change (halted (set_throttled ?c ?h)) with (halted h).
  unfold setWeightedPrompts_body.
  destruct (activePrompts (set_prompts prompts this)) as [[|p active]|];
    cbn [snd].
  - unfold halted, processAudioChunks_enters, pause.
    by destruct (session _).
  - by destruct (session (set_prompts prompts this)).
  - done.
Qed.

Lemma play_resume_effect awaited s h :
  session h = Some s ->
  session (play_resume awaited h) = Some s
  /\ halted (play_resume awaited h) = halted h
  /\ match awaited with
     | Some Rejected => play_resume awaited h = h
     | _ => last (sent (play_resume awaited h)) = Some (s, call_play)
     end.
Proof.
  intros Hs. unfold play_resume.
  destruct awaited as [[| |s']|]; rewrite ?Hs; split_and!; try done;
    apply last_snoc.
Qed.

(** X22. [stop()] does not cancel a [play()] that waits for its
    connection: when the connection arrives, that [play()] still stores
    the session in the helper and, unless the promise of
    [setWeightedPrompts] it awaits is rejected (then [play()] ends
    there), tells the session to play, while the helper stays [stopped]
    (or [paused], if no prompt is active). *)
Theorem play_in_flight_outlives_stop (s : nat) (now : Z) (this : LiveMusicHelper) :
  let awaited := (play_connected s now (stop this)).1 in
  let connected := (play_connected s now (stop this)).2 in
  let this' := play_resume awaited connected in
  session this' = Some s
  /\ halted this' = true
  /\ match awaited with
     | Some Rejected => this' = connected
     | _ => last (sent this') = Some (s, call_play)
     end.
Proof.
  intros awaited connected this'. subst this' connected.
  pose proof (play_connected_session s now (stop this)) as Hsession.
  assert (Hhalted : halted (play_connected s now (stop this)).2 = true).
  { unfold play_connected. apply setWeightedPrompts_halted.
    unfold halted, processAudioChunks_enters, stop.
    by destruct (session this). }
  clearbody awaited.
  destruct (play_resume_effect awaited s _ Hsession) as (Hs & Hh & Hlast).
  split_and!; [exact Hs | rewrite Hh; exact Hhalted | exact Hlast].
Qed.

End PlaybackComposition.

(* ===================================================================== *)
(** * The initial prompts *)
(* ===================================================================== *)

Section InitialPromptsFacts.
Import Js Index.

(** The loop never sets a key twice: the map is the list of the entries
    it makes. *)
Lemma buildInitialPrompts_entries startOn :
  buildInitialPrompts startOn
  = map (initial_entry (weight_of startOn)) indexed_prompts.
Proof.
  unfold buildInitialPrompts. generalize (weight_of startOn). intros weight.
  vm_compute. reflexivity.
Qed.

Lemma initial_entry_is_prompt_entry weight indexed :
  indexed ∈ indexed_prompts ->
  PromptDj.prompt_entry (initial_entry weight indexed).
Proof.
  intros Hin. destruct indexed as [i [color text]].
  exists ("prompt-" ++ pretty i)%string, text. simpl. split_and!; try done.
  assert (Htexts : Forall (fun p => p.2.2 <> ""%string) indexed_prompts)
    by (repeat constructor; done).
  rewrite Forall_forall in Htexts. exact (Htexts _ Hin).
Qed.

Lemma initial_keys weight :
  map fst (map (initial_entry weight) indexed_prompts)
  = map (fun i => JString ("prompt-" ++ pretty i)) (seq 0 (length DEFAULT_PROMPTS)).
Proof. vm_compute. reflexivity. Qed.

(** X23. Whatever prompts the shuffle picks, [buildInitialPrompts()]
    returns sixteen entries, one per default prompt and in their order,
    under the distinct keys [prompt-0] to [prompt-15], each holding its
    key as [promptId], the default text and colour, its index as [cc], and
    weight 1 if it was picked and 0 if not; so the map is a prompt set
    that [handleSaveSet] and [handleLoadSet] carry over unchanged. *)
Theorem initial_prompts_form_a_prompt_set (startOn : list nat) :
  buildInitialPrompts startOn
  = map (initial_entry (weight_of startOn)) indexed_prompts
  /\ length (buildInitialPrompts startOn) = 16%nat
  /\ PromptDj.prompt_set (buildInitialPrompts startOn).
Proof.
  rewrite buildInitialPrompts_entries. split_and!; [done | done |].
  split.
  - rewrite initial_keys. apply NoDup_fmap_2_strong; [|apply NoDup_seq].
    intros i j _ _ [= Heq]. apply (inj (String.app "")) in Heq.
    by apply (inj pretty) in Heq.
  - apply Forall_forall. intros entry Hin.
    apply list_elem_of_fmap in Hin as (indexed & -> & Hin).
    by apply initial_entry_is_prompt_entry.
Qed.

Lemma filter_throwing_total (f : value -> option bool) (g : value -> bool) l :
  Forall (fun p => f p = Some (g p)) l ->
  LiveMusic.filter_throwing f l = Some (List.filter g l).
Proof.
  induction 1 as [|p l Hp Hl IH]; simpl; [done|]. by rewrite Hp, IH.
Qed.

Lemma bool_filter_is_filter {X} (P : X -> Prop) `{!forall x, Decision (P x)} l :
  List.filter (fun x => bool_decide (P x)) l = filter P l.
Proof.
  induction l as [|x l IH]; simpl; [done|].
  rewrite filter_cons, IH. unfold bool_decide, decide. by destruct (H x).
Qed.

(** Counting the indexes below [n] that are in a list without repetition
    whose members are all below [n] counts the list. *)
Lemma count_picked (picked : list nat) (n : nat) :
  NoDup picked -> Forall (fun i => (i < n)%nat) picked ->
  length (filter (fun i => i ∈ picked) (seq 0 n)) = length picked.
Proof.
  intros Hnodup Hbelow. apply Permutation_length, NoDup_Permutation.
  - apply NoDup_filter, NoDup_seq.
  - done.
  - intros i. rewrite list_elem_of_filter, elem_of_seq.
    rewrite Forall_forall in Hbelow. split; [tauto|].
    intros Hin. split; [done|]. specialize (Hbelow i Hin). lia.
Qed.

(** The active ones among the initial prompts, for a helper that has
    filtered no text, are those picked. *)
Lemma initial_active (startOn : list nat) :
  LiveMusic.filter_throwing (LiveMusic.is_active ∅)
    (Map_values (map (initial_entry (weight_of startOn)) indexed_prompts))
  = Some (map (fun indexed => (initial_entry (weight_of startOn) indexed).2)
            (filter (fun indexed : nat * (string * string) => indexed.1 ∈ startOn)
               indexed_prompts)).
Proof.
  unfold Map_values. rewrite map_map.
  rewrite (filter_throwing_total _
             (fun p => strict_ne_zero (prop "weight" p))).
  - f_equal. rewrite <- bool_filter_is_filter.
    induction indexed_prompts as [|[i [color text]] l IH]; [done|].
    cbn [map List.filter]. rewrite IH. cbn [initial_entry snd fst].
    unfold weight_of at 1. simpl. by case_bool_decide.
  - apply Forall_forall. intros p Hin.
    apply list_elem_of_fmap in Hin as ([i [color text]] & -> & _). simpl.
    rewrite bool_decide_eq_false_2; [done | set_solver].
Qed.

Lemma picked_among_indexed (startOn : list nat) :
  length (filter (fun indexed : nat * (string * string) => indexed.1 ∈ startOn)
            indexed_prompts)
  = length (filter (fun i => i ∈ startOn) (seq 0 (length DEFAULT_PROMPTS))).
Proof.
  assert (Hfst : map fst indexed_prompts = seq 0 (length DEFAULT_PROMPTS))
    by done.
  rewrite <- Hfst. generalize indexed_prompts. intros l.
  induction l as [|x l IH]; [done|].
  cbn [map]. rewrite !filter_cons. simpl. case_decide; simpl; by rewrite IH.
Qed.

(** A call that is let through, with active prompts and no session, only
    stores the map. *)
Lemma let_through_without_session prompts now this p more :
  Throttle.fresh 200 (LiveMusic.throttled this) now = true ->
  LiveMusic.activePrompts (LiveMusic.set_prompts prompts this) = Some (p :: more) ->
  LiveMusic.session this = None ->
  let this' := (LiveMusic.setWeightedPrompts prompts now this).2 in
  LiveMusic.prompts this' = prompts
  /\ LiveMusic.events this' = LiveMusic.events this
  /\ LiveMusic.sent this' = LiveMusic.sent this
  /\ LiveMusic.playbackState this' = LiveMusic.playbackState this
  /\ LiveMusic.activePrompts this' = Some (p :: more).
Proof.
  intros Hfresh Hactive Hsession this'. subst this'.
  rewrite setWeightedPrompts_let_through by done.
  unfold LiveMusic.setWeightedPrompts_body. rewrite Hactive.
  cbn [LiveMusic.session LiveMusic.set_prompts]. rewrite Hsession.
  cbn [fst snd]. split_and!; try done.
Qed.

(** X24. At start-up, with the three different prompts the shuffle has
    picked, the first [setWeightedPrompts(initialPrompts)] on the new
    helper stores the sixteen prompts, finds exactly three of them active,
    raises no error, sends nothing (there is no session yet) and leaves the
    helper [stopped]. *)
Theorem startup_finds_three_active_prompts (startOn : list nat) (now : Z) :
  three_prompts startOn ->
  let this' :=
    (LiveMusic.setWeightedPrompts (buildInitialPrompts startOn) now
       LiveMusic.constructor).2 in
  LiveMusic.prompts this' = buildInitialPrompts startOn
  /\ LiveMusic.events this' = []
  /\ LiveMusic.sent this' = []
  /\ LiveMusic.playbackState this' = LiveMusic.stopped
  /\ exists active, LiveMusic.activePrompts this' = Some active
                    /\ length active = 3%nat.
Proof.
  intros (Hlen & Hnodup & Hbelow) this'.
  set (picked := map (fun indexed => (initial_entry (weight_of startOn) indexed).2)
                   (filter (fun indexed : nat * (string * string) =>
                              indexed.1 ∈ startOn) indexed_prompts)).
  assert (Hactive : LiveMusic.activePrompts
            (LiveMusic.set_prompts (buildInitialPrompts startOn) LiveMusic.constructor)
          = Some picked).
  { unfold LiveMusic.activePrompts. cbn [LiveMusic.prompts LiveMusic.set_prompts
      LiveMusic.filteredPrompts LiveMusic.constructor].
    rewrite buildInitialPrompts_entries. apply initial_active. }
  assert (Hthree : length picked = 3%nat).
  { subst picked. rewrite length_map, picked_among_indexed.
    rewrite count_picked; done. }
  clearbody picked. destruct picked as [|p more]; [done|].
  destruct (let_through_without_session (buildInitialPrompts startOn) now
              LiveMusic.constructor p more eq_refl Hactive eq_refl)
    as (Hp & He & Hs & Hst & Ha).
  split_and!; [exact Hp | exact He | exact Hs | exact Hst |].
  exists (p :: more). split; [exact Ha | exact Hthree].
Qed.

End InitialPromptsFacts.

(* ===================================================================== *)
(** * Editing a prompt, and what a load leaves in the map *)
(* ===================================================================== *)

Section PromptEditFacts.
Import Js PromptDj PromptEdit.

Lemma assoc_assign_same name v ps : assoc name (assign name v ps) = Some v.
Proof.
  induction ps as [|[n old] ps IH]; simpl.
  - by rewrite String.eqb_refl.
  - destruct (String.eqb n name) eqn:Hn; simpl; by rewrite Hn.
Qed.

Lemma assoc_assign_other name other v ps :
  other <> name -> assoc other (assign name v ps) = assoc other ps.
Proof.
  intros Hne. induction ps as [|[n old] ps IH]; simpl.
  - destruct (String.eqb_spec name other); [congruence | done].
  - destruct (String.eqb_spec n name) as [->|Hn]; simpl.
    + destruct (String.eqb_spec name other); [congruence | done].
    + by rewrite IH.
Qed.

(** The properties of a prompt after the four assignments. *)
Lemma assign_fields_props d ps :
  assoc "text" (assign_fields d ps) = Some (text d)
  /\ assoc "weight" (assign_fields d ps) = Some (weight d)
  /\ assoc "cc" (assign_fields d ps) = Some (cc d)
  /\ assoc "color" (assign_fields d ps) = Some (color d)
  /\ assoc "promptId" (assign_fields d ps) = assoc "promptId" ps.
Proof.
  unfold assign_fields. split_and!;
    repeat first [ rewrite assoc_assign_same | rewrite assoc_assign_other by done ];
    done.
Qed.

(** Where [get] finds a value, [set] under the same key puts the new
    value in the place of the old one and touches nothing else. *)
Lemma Map_set_in_place k v old (m : Map) :
  Map_get k m = Some old ->
  exists before key after,
    m = before ++ (key, old) :: after
    /\ Map_set k v m = before ++ (key, v) :: after
    /\ same_value_zero key k = true
    /\ Forall (fun entry => same_value_zero entry.1 k = false) before.
Proof.
  induction m as [|[k' v'] m IH]; simpl; [done|].
  destruct (same_value_zero k' k) eqn:Hk.
  - intros [= ->]. by exists [], k', m.
  - intros Hget. destruct (IH Hget) as (before & key & after & -> & -> & Hkey & Hbefore).
    exists ((k', v') :: before), key, after. split_and!; try done.
    by constructor.
Qed.

(** X25. [handlePromptChanged] with an id the map does not hold changes
    nothing and raises nothing. With an id under which the map holds a
    prompt object, it changes that one entry where it stands: the key, the
    entries before and after and so the order stay, the prompt gets the
    text, weight, cc and colour of the event and keeps its [promptId], and
    one ['prompts-changed'] event carries the new map. *)
Theorem prompt_change_is_local (d : detail) (this : PromptDjMidi) :
  (Map_get (promptId d) (prompts this) = None ->
   handlePromptChanged d this = this)
  /\ (forall ps, Map_get (promptId d) (prompts this) = Some (JObject ps) ->
      let this' := handlePromptChanged d this in
      exists before key after ps',
        prompts this = before ++ (key, JObject ps) :: after
        /\ prompts this' = before ++ (key, JObject ps') :: after
        /\ assoc "text" ps' = Some (text d)
        /\ assoc "weight" ps' = Some (weight d)
        /\ assoc "cc" ps' = Some (cc d)
        /\ assoc "color" ps' = Some (color d)
        /\ assoc "promptId" ps' = assoc "promptId" ps
        /\ events this' = events this ++ [prompts_changed (prompts this')]).
Proof.
  split.
  - intros Hnone. unfold handlePromptChanged. by rewrite Hnone.
  - intros ps Hget this'. subst this'. unfold handlePromptChanged.
    rewrite Hget. simpl.
    destruct (Map_set_in_place (promptId d) (JObject (assign_fields d ps)) _ _ Hget)
      as (before & key & after & Hold & Hnew & _ & _).
    destruct (assign_fields_props d ps) as (Ht & Hw & Hc & Hco & Hid).
    exists before, key, after, (assign_fields d ps).
    rewrite Hnew. split_and!; done.
Qed.

(** X26. Editing keeps a prompt set a prompt set: when the new text is a
    non-empty string, the map after [handlePromptChanged] still has
    distinct keys, each the [promptId] of its prompt, and non-empty ids and
    texts, whatever the id, weight, cc and colour of the event. *)
Theorem prompt_change_keeps_prompt_set (d : detail) (this : PromptDjMidi)
    (new_text : string) :
  prompt_set (prompts this) ->
  text d = JString new_text -> new_text <> ""%string ->
  prompt_set (prompts (handlePromptChanged d this)).
Proof.
  intros [Hnodup Hentries] Htext Hnonempty. unfold handlePromptChanged.
  destruct (Map_get (promptId d) (prompts this)) as [found|] eqn:Hget;
    [|done].
  destruct (truthy (Some found)); simpl; [|done].
  destruct found as [| | | | |ps]; try done.
  destruct (Map_set_in_place (promptId d) (JObject (assign_fields d ps)) _ _ Hget)
    as (before & key & after & Hold & Hnew & _ & _).
  simpl. rewrite Hnew. rewrite Hold in Hnodup, Hentries. split.
  - by rewrite map_app in *.
  - apply Forall_app in Hentries as [Hbefore Hrest].
    apply Forall_cons in Hrest as [Hentry Hafter].
    apply Forall_app. split; [done|]. apply Forall_cons. split; [|done].
    destruct Hentry as (id & old_text & Hid & _ & Hkey & Hprop & _).
    destruct (assign_fields_props d ps) as (Ht & _ & _ & _ & Hsame).
    exists id, new_text. simpl in *. split_and!; try done.
    + by rewrite Hsame.
    + by rewrite Ht, Htext.
Qed.

Lemma Map_set_entries k v (m : Map) entry :
  entry ∈ Map_set k v m ->
  entry ∈ m \/ (entry.2 = v /\ (entry.1 = k \/ same_value_zero entry.1 k = true)).
Proof.
  induction m as [|[k' v'] m IH]; simpl.
  - intros Hin. apply list_elem_of_singleton in Hin as ->. right. simpl. auto.
  - destruct (same_value_zero k' k) eqn:Hk; intros Hin;
      apply elem_of_cons in Hin as [->|Hin].
    + right. simpl. auto.
    + left. by apply list_elem_of_further.
    + left. apply list_elem_of_here.
    + destruct (IH Hin) as [Hold|Hnew]; [|by right].
      left. by apply list_elem_of_further.
Qed.

Lemma some_valid_entries entries p :
  some invalid_entry entries = Some false -> p ∈ entries ->
  truthy (prop "promptId" p) = true /\ truthy (prop "text" p) = true.
Proof.
  induction entries as [|q entries IH]; simpl; intros Hsome Hin.
  - by apply not_elem_of_nil in Hin.
  - destruct (invalid_entry q) as [[|]|] eqn:Hq; try done.
    apply elem_of_cons in Hin as [->|Hin]; [|by apply IH].
    unfold invalid_entry in Hq. destruct q; try done;
      injection Hq as Hq; apply orb_false_iff in Hq as [H1 H2];
      by apply negb_false_iff in H1, H2.
Qed.

Lemma set_each_loaded (checked entries : list value) : forall built : Map,
  (forall p, p ∈ entries -> p ∈ checked) ->
  (forall p, p ∈ checked ->
     truthy (prop "promptId" p) = true /\ truthy (prop "text" p) = true) ->
  Forall (loaded_entry checked) built ->
  Forall (loaded_entry checked) (set_each entries built).
Proof.
  induction entries as [|p entries IH]; intros built Hsub Hvalid Hbuilt; [done|].
  simpl. apply IH.
  - intros q Hq. apply Hsub. by apply list_elem_of_further.
  - done.
  - assert (Hp : p ∈ checked) by (apply Hsub; apply list_elem_of_here).
    destruct (Hvalid p Hp) as [Hid Htext].
    destruct (prop "promptId" p) as [k|] eqn:Hk; [|done].
    apply Forall_forall. intros entry Hin.
    apply Map_set_entries in Hin as [Hold|[Hvalue Hkey]].
    + rewrite Forall_forall in Hbuilt. by apply Hbuilt.
    + unfold loaded_entry. rewrite Hvalue, Hk. split_and!; try done.
      by exists k.
Qed.

(** X27. What a load can do: with no file chosen nothing happens;
    otherwise either the map is left as it was and exactly one error is
    raised, or the file held an array, one ['prompts-changed'] and one
    info event are raised, and every value of the new map is an entry of
    the file with truthy [promptId] and [text], stored under its
    [promptId]. *)
Theorem load_fails_or_replaces (file : option Reading) (this : PromptDjMidi) :
  let this' := handleLoadSet file this in
  (file = None /\ this' = this)
  \/ (prompts this' = prompts this
      /\ exists message, events this' = events this ++ [error message])
  \/ (exists entries,
        file = Some (loads (json (JArray entries)))
        /\ events this' = events this ++ [prompts_changed (prompts this');
                                          info "Set loaded successfully!"]
        /\ Forall (loaded_entry entries) (prompts this')
        /\ (length (prompts this') <= length entries)%nat).
Proof.
  intros this'. subst this'.
  destruct file as [[|content]|]; [right; left | | by left].
  - simpl. unfold onerror. simpl. eauto.
  - right. unfold handleLoadSet, onload, onload_try.
    destruct content as [|message|[| | | |entries|]];
      try (left; simpl; by eauto).
    destruct (some invalid_entry entries) as [[|]|] eqn:Hsome;
      try (left; simpl; by eauto).
    right. exists entries. simpl. split_and!.
    + done.
    + by rewrite <- app_assoc.
    + apply set_each_loaded; [done | | constructor].
      intros p Hp. by apply (some_valid_entries entries).
    + clear Hsome. assert (Hlen : forall built : Map,
        (length (set_each entries built) <= length built + length entries)%nat).
      { induction entries as [|p entries IH]; intros built; simpl; [lia|].
        destruct (prop "promptId" p) as [k|].
        - etrans; [apply IH|].
          assert (length (Map_set k p built) <= S (length built))%nat; [|lia].
          clear. induction built as [|[k' v'] built IHb]; simpl; [lia|].
          destruct (same_value_zero k' k); simpl; lia.
        - etrans; [apply IH|]. lia. }
      apply (Hlen []).
Qed.

End PromptEditFacts.

(* ===================================================================== *)
(** * The further theorems at work *)
(* ===================================================================== *)

Section FurtherScenarios.
Import Double Js LiveMusic Playback.

(** The first chunk after [play()] is started at second 12, leaves the
    clock at second 14 and sets the timeout; a stop and the timeout later
    the helper says it plays. *)
Example stopped_helper_turns_playing :
  let primed := turns first_chunk_turns constructor in
  nextStartTime primed = of_Z 14 /\ timeouts primed = [of_Z 2000]
  /\ playbackState (turns [do_stop; on_timeout] primed) = playing
  /\ session (turns [do_stop; on_timeout] primed) = None.
Proof. vm_compute. done. Qed.

(** A chunk whose decoding ends after a [pause()] is started all the
    same, on the output node the pause has put in place, and the paused
    helper has its clock primed. *)
Example chunk_decoded_after_pause :
  let this' := moments late_decoding constructor in
  playbackState this' = paused
  /\ nextStartTime this' = of_Z 15
  /\ map when (started this') = [of_Z 12; of_Z 13]
  /\ map node (started this') = [0; 1]%nat.
Proof. vm_compute. done. Qed.

(** A pause does not clear the timeout of the priming: once it has fired
    the helper says it plays, and a chunk that arrives then is started, on
    the output node the pause has put in place. *)
Example chunk_after_pending_timeout :
  let this' := turns chunk_after_timeout constructor in
  playbackState this' = playing
  /\ map when (started this') = [of_Z 12; of_Z 13]
  /\ map node (started this') = [0; 1]%nat.
Proof. vm_compute. done. Qed.

(** With "Dubstep" filtered, the helper sends the other prompt only. *)
Example filtered_prompt_is_not_sent :
  newly_sent filtering_helper
    (setWeightedPrompts (sample_prompts (of_Z 1) (of_Z 1)) 5000
       filtering_helper).2
  = [(0%nat, call_setWeightedPrompts
               [(sample_prompt "prompt-0" "Bossa Nova" "#9900ff" 0 (of_Z 1)).2])].
Proof. vm_compute. done. Qed.

(** The shuffle picks the prompts 2, 7 and 11. *)
Example picked_prompts_are_active :
  LiveMusic.activePrompts
    (setWeightedPrompts (Index.buildInitialPrompts [2; 7; 11]%nat) 0 constructor).2
  = Some [(sample_prompt "prompt-2" "Drum and Bass" "#ff25f6" 2 (of_Z 1)).2;
          (sample_prompt "prompt-7" "Lush Strings" "#3dffab" 7 (of_Z 1)).2;
          (sample_prompt "prompt-11" "Dubstep" "#ffdd28" 11 (of_Z 1)).2].
Proof. vm_compute. done. Qed.

(** The slider of "Dubstep" is renamed and moved. *)
Example retuned_prompt :
  PromptDj.prompts (PromptEdit.handlePromptChanged PromptEdit.retune
                      PromptDj.sample_component)
  = [sample_prompt "prompt-0" "Bossa Nova" "#9900ff" 0 (of_Z 1);
     sample_prompt "prompt-11" "Dub Techno" "#ffdd28" 11
       (div (of_Z 3) (of_Z 2))].
Proof. vm_compute. done. Qed.

Lemma late_decoding_plausible : Forall plausible_moment late_decoding.
Proof. repeat constructor. Defined.

Lemma clock_stays_sound_witness :
  leb zero (nextStartTime (moments late_decoding constructor)) = true.
Proof.
  exact (proj1 (proj2 (clock_stays_sound late_decoding late_decoding_plausible))).
Defined.

Lemma chunks_while_halted_are_dropped_witness :
  hear [([two_seconds], of_Z 11, of_Z 11); ([two_seconds], of_Z 12, of_Z 12)]
    (pause buffering_helper)
  = pause buffering_helper.
Proof.
  exact (chunks_while_halted_are_dropped
           [([two_seconds], of_Z 11, of_Z 11); ([two_seconds], of_Z 12, of_Z 12)]
           (pause buffering_helper) eq_refl).
Defined.

Lemma play_after_pause_reuses_session_witness :
  (play_begin (pause filtering_helper)).1 = 0%nat
  /\ connections (play_begin (pause filtering_helper)).2
     = connections filtering_helper.
Proof.
  pose proof (play_after_pause_reuses_session 0 filtering_helper eq_refl)
    as (Hawaited & Hconnections & _).
  exact (conj Hawaited Hconnections).
Defined.

Lemma only_active_prompts_are_sent_witness :
  session filtering_helper = Some 0%nat.
Proof.
  apply (only_active_prompts_are_sent (sample_prompts (of_Z 1) (of_Z 1)) 5000
           filtering_helper 0%nat
           [(sample_prompt "prompt-0" "Bossa Nova" "#9900ff" 0 (of_Z 1)).2]).
  vm_compute. apply list_elem_of_here.
Defined.

Lemma pending_timeout_outlives_stop_witness :
  playbackState (timeout_fires (stop (feed sample_arrivals buffering_helper)))
  = playing.
Proof.
  exact (proj1 (pending_timeout_outlives_stop (of_Z 2000) []
                  (feed sample_arrivals buffering_helper) eq_refl)).
Defined.

Lemma picked_three : Index.three_prompts [2; 7; 11]%nat.
Proof.
  split_and!.
  - reflexivity.
  - apply NoDup_cons. split; [|apply NoDup_cons; split; [|apply NoDup_singleton]].
    + intros Hin. apply elem_of_cons in Hin as [Heq|Hin]; [discriminate Heq|].
      apply list_elem_of_singleton in Hin. discriminate Hin.
    + intros Hin. apply list_elem_of_singleton in Hin. discriminate Hin.
  - repeat constructor.
Defined.

Lemma startup_finds_three_active_prompts_witness :
  events (setWeightedPrompts (Index.buildInitialPrompts [2; 7; 11]%nat) 0
            constructor).2 = [].
Proof.
  exact (proj1 (proj2 (startup_finds_three_active_prompts [2; 7; 11]%nat 0
                         picked_three))).
Defined.

Lemma prompt_change_is_local_witness :
  PromptEdit.handlePromptChanged PromptEdit.stray PromptDj.sample_component
  = PromptDj.sample_component
  /\ exists before key after ps',
       PromptDj.prompts
         (PromptEdit.handlePromptChanged PromptEdit.retune
            PromptDj.sample_component)
       = before ++ (key, JObject ps') :: after
       /\ assoc "text" ps' = Some (JString "Dub Techno").
Proof.
  split.
  - exact (proj1 (prompt_change_is_local PromptEdit.stray
                    PromptDj.sample_component) eq_refl).
  - destruct (proj2 (prompt_change_is_local PromptEdit.retune
                       PromptDj.sample_component)
                [("promptId", JString "prompt-11"); ("text", JString "Dubstep");
                 ("weight", JNumber half); ("cc", JNumber (of_Z 11));
                 ("color", JString "#ffdd28")]%string eq_refl)
      as (before & key & after & ps' & _ & Hnew & Htext & _).
    exists before, key, after, ps'. exact (conj Hnew Htext).
Defined.

Lemma prompt_change_keeps_prompt_set_witness :
  PromptDj.prompt_set
    (PromptDj.prompts (PromptEdit.handlePromptChanged PromptEdit.retune
                         PromptDj.sample_component)).
Proof.
  apply (prompt_change_keeps_prompt_set PromptEdit.retune
           PromptDj.sample_component "Dub Techno").
  - exact sample_component_prompt_set.
  - reflexivity.
  - discriminate.
Defined.

End FurtherScenarios.
